(** * img2dataset: the per-shard download engine and its DNS caches

    A shallow embedding of [img2dataset/downloader.py],
    [img2dataset/cache_copy.py] and [img2dataset/lru_cache.py].

    Python integers are [Z]; Python [str] is [string]; a [dict] is a [gmap],
    a [set] a [gset]; an exception is the [inl] branch of a sum; calls into
    the outside world (the DNS library, urllib, the resizer, the writer, the
    random generator) are oracles passed as arguments. *)

From Stdlib Require Import ZArith String Ascii List Lia Bool.
From stdpp Require Import base option gmap sets list strings.
Import ListNotations.

(** ** Mutable state and exceptions

    A computation reads and writes a state of type [S] and either returns or
    raises; the state written before a [raise] is kept, as it is in Python. *)

Module Exc.

Definition M (S A : Type) : Type := S -> (string + A) * S.

Definition ret {S A} (a : A) : M S A := fun s => (inr a, s).

Definition raise {S A} (e : string) : M S A := fun s => (inl e, s).

Definition bind {S A B} (m : M S A) (k : A -> M S B) : M S B :=
  fun s =>
    match m s with
    | (inl e, s') => (inl e, s')
    | (inr a, s') => k a s'
    end.

Definition gets {S A} (f : S -> A) : M S A := fun s => (inr (f s), s).

Definition modify {S} (f : S -> S) : M S unit := fun s => (inr tt, f s).

(** [try: body / except Exception as err: handler err] *)
Definition try_except {S A} (body : M S A) (handler : string -> M S A) : M S A :=
  fun s =>
    match body s with
    | (inl e, s') => handler e s'
    | (inr a, s') => (inr a, s')
    end.

(** Run a computation on a component of the state. *)
Definition zoom {S T A} (proj : S -> T) (upd : T -> S -> S) (m : M T A) : M S A :=
  fun s => let '(r, t') := m (proj s) in (r, upd t' s).

End Exc.

Declare Scope exc_scope.
Delimit Scope exc_scope with exc.
Notation "x <- m ;; k" := (Exc.bind m (fun x => k))
  (at level 100, m at next level, k at level 200, right associativity)
  : exc_scope.
Notation "m ;; k" := (Exc.bind m (fun _ => k))
  (at level 100, k at level 200, right associativity) : exc_scope.

(** ** Key encoding: [compute_key] *)

Module Key.
Local Open Scope Z_scope.

(** The character of a decimal digit [0 <= d < 10]. *)
Definition digit_char (d : Z) : ascii := ascii_of_nat (Z.to_nat (48 + d)).

(** The digit a character stands for. *)
Definition digit_val (c : ascii) : Z := Z.of_nat (nat_of_ascii c) - 48.

Definition is_digit (c : ascii) : bool :=
  (48 <=? Z.of_nat (nat_of_ascii c)) && (Z.of_nat (nat_of_ascii c) <=? 57).

Fixpoint all_digits (s : string) : bool :=
  match s with
  | EmptyString => true
  | String c s' => is_digit c && all_digits s'
  end.

(** The number a string of digits denotes, most significant digit first. *)
Fixpoint value (s : string) : Z :=
  match s with
  | EmptyString => 0
  | String c s' => digit_val c * 10 ^ Z.of_nat (String.length s') + value s'
  end.

(** Digits of [n >= 0] pushed in front of [acc], least significant first;
    [fuel] bounds the number of digits. *)
Fixpoint decimal_aux (fuel : nat) (n : Z) (acc : string) : string :=
  match fuel with
  | O => acc
  | S f =>
      let acc' := String (digit_char (n mod 10)) acc in
      if n <? 10 then acc' else decimal_aux f (n / 10) acc'
  end.

(** [str(n)] for [n >= 0]: no leading zero, ["0"] for zero. *)
Definition decimal (n : Z) : string :=
  decimal_aux (S (Z.to_nat (Z.log2 n))) n EmptyString.

Fixpoint zeros (k : nat) : string :=
  match k with
  | O => EmptyString
  | S k' => String "0"%char (zeros k')
  end.

(** Python's [format(n, "0{w}d")]: the sign, then zeros up to a total of
    [w] characters, then the digits; [w] is a minimum, never a truncation. *)
Definition format_0d (w : nat) (n : Z) : string :=
  let digits := decimal (Z.abs n) in
  let sign := if n <? 0 then "-"%string else EmptyString in
  (sign ++ zeros (w - String.length sign - String.length digits) ++ digits)%string.

(** Python's [str(n)] on an integer. *)
Definition str_int (n : Z) : string :=
  if n <? 0 then ("-" ++ decimal (- n))%string else decimal n.

(** [compute_key(key, shard_id, oom_sample_per_shard, oom_shard_count)] *)
Definition compute_key (key shard_id : Z)
    (oom_sample_per_shard oom_shard_count : nat) : string :=
  let true_key := 10 ^ Z.of_nat oom_sample_per_shard * shard_id + key in
  let key_format := (oom_sample_per_shard + oom_shard_count)%nat in
  format_0d key_format true_key.

Example compute_key_ex1 : compute_key 42 7 4 5 = "000070042"%string.
Proof. reflexivity. Qed.

Example compute_key_ex2 : compute_key 9999 99999 4 5 = "999999999"%string.
Proof. reflexivity. Qed.

Example compute_key_ex3 : compute_key 0 0 0 0 = "0"%string.
Proof. reflexivity. Qed.

Example format_0d_neg : format_0d 3 (-5) = "-05"%string.
Proof. reflexivity. Qed.

Example format_0d_wide : format_0d 2 12345 = "12345"%string.
Proof. reflexivity. Qed.

(** *** Facts about the decimal printer *)

Lemma digit_val_char d : 0 <= d < 10 -> digit_val (digit_char d) = d.
Proof.
  intros Hd. unfold digit_val, digit_char.
  rewrite nat_ascii_embedding by lia. lia.
Qed.

Lemma is_digit_char d : 0 <= d < 10 -> is_digit (digit_char d) = true.
Proof.
  intros Hd. unfold is_digit, digit_char.
  rewrite nat_ascii_embedding by lia.
  apply andb_true_iff; split; apply Z.leb_le; lia.
Qed.

Lemma length_app_string (s t : string) :
  String.length (s ++ t) = (String.length s + String.length t)%nat.
Proof.
  induction s as [|c s IH]; [reflexivity|].
  change (String c s ++ t)%string with (String c (s ++ t)%string).
  simpl. now rewrite IH.
Qed.

Lemma all_digits_app (s t : string) :
  all_digits (s ++ t) = all_digits s && all_digits t.
Proof.
  induction s as [|c s IH]; [reflexivity|].
  change (String c s ++ t)%string with (String c (s ++ t)%string).
  simpl. now rewrite IH, andb_assoc.
Qed.

Lemma value_app (s t : string) :
  value (s ++ t) = value s * 10 ^ Z.of_nat (String.length t) + value t.
Proof.
  induction s as [|c s IH].
  { change (EmptyString ++ t)%string with t. cbn [value]. ring. }
  change (String c s ++ t)%string with (String c (s ++ t)%string).
  cbn [value String.length].
  rewrite IH, length_app_string, Nat2Z.inj_add, Z.pow_add_r by lia. ring.
Qed.

Lemma length_zeros k : String.length (zeros k) = k.
Proof. induction k; simpl; congruence. Qed.

Lemma all_digits_zeros k : all_digits (zeros k) = true.
Proof. induction k; simpl; [reflexivity | assumption]. Qed.

Lemma value_zeros k : value (zeros k) = 0.
Proof. induction k; simpl; [reflexivity | rewrite IHk; reflexivity]. Qed.

(** The printer never writes more digits than the magnitude allows. *)
Lemma length_decimal_aux fuel : forall n acc (k : nat),
  n < 10 ^ Z.of_nat k -> (1 <= k)%nat ->
  (String.length (decimal_aux fuel n acc) <= k + String.length acc)%nat.
Proof.
  induction fuel as [|f IH]; intros n acc k Hn Hk; simpl; [lia|].
  destruct (Z.ltb_spec n 10) as [Hlt|Hge]; simpl; [lia|].
  destruct k as [|[|k']]; [lia | simpl in Hn; lia |].
  specialize (IH (n / 10) (String (digit_char (n mod 10)) acc) (S k')).
  simpl String.length in IH.
  assert (n / 10 < 10 ^ Z.of_nat (S k')).
  { apply Z.div_lt_upper_bound; [lia|].
    replace (Z.of_nat (S (S k'))) with (1 + Z.of_nat (S k')) in Hn by lia.
    rewrite Z.pow_add_r in Hn by lia. lia. }
  lia.
Qed.

Lemma all_digits_decimal_aux fuel : forall n acc,
  all_digits acc = true -> all_digits (decimal_aux fuel n acc) = true.
Proof.
  induction fuel as [|f IH]; intros n acc Hacc; simpl; [assumption|].
  assert (Hd : all_digits (String (digit_char (n mod 10)) acc) = true).
  { simpl. rewrite Hacc, is_digit_char; [reflexivity|].
    apply Z.mod_pos_bound; lia. }
  destruct (n <? 10); [assumption | now apply IH].
Qed.

Lemma value_decimal_aux fuel : forall n acc,
  0 <= n < 2 ^ Z.of_nat fuel ->
  value (decimal_aux fuel n acc)
  = n * 10 ^ Z.of_nat (String.length acc) + value acc.
Proof.
  induction fuel as [|f IH]; intros n acc Hn.
  - simpl in *. assert (n = 0) by lia. subst. lia.
  - cbn [decimal_aux].
    assert (Hmod : 0 <= n mod 10 < 10) by (apply Z.mod_pos_bound; lia).
    destruct (Z.ltb_spec n 10) as [Hlt|Hge].
    + cbn [value]. rewrite digit_val_char by assumption.
      rewrite Z.mod_small by lia. reflexivity.
    + rewrite IH.
      * cbn [value String.length]. rewrite digit_val_char by assumption.
        rewrite Nat2Z.inj_succ, Z.pow_succ_r by lia.
        pose proof (Z.div_mod n 10 ltac:(lia)) as Hdm.
        set (p := 10 ^ Z.of_nat (String.length acc)).
        rewrite Hdm at 3. ring.
      * rewrite Nat2Z.inj_succ, Z.pow_succ_r in Hn by lia.
        split; [apply Z.div_pos; lia|].
        apply Z.div_lt_upper_bound; lia.
Qed.

Lemma value_decimal n : 0 <= n -> value (decimal n) = n.
Proof.
  intros Hn. unfold decimal. rewrite value_decimal_aux; [simpl; lia|].
  split; [assumption|].
  destruct (Z.eq_dec n 0) as [->|Hnz]; [reflexivity|].
  rewrite Nat2Z.inj_succ, Z2Nat.id by apply Z.log2_nonneg.
  apply Z.log2_spec. lia.
Qed.

Lemma length_decimal n (k : nat) :
  n < 10 ^ Z.of_nat k -> (1 <= k)%nat -> (String.length (decimal n) <= k)%nat.
Proof.
  intros Hn Hk. unfold decimal.
  pose proof (length_decimal_aux (S (Z.to_nat (Z.log2 n))) n EmptyString k Hn Hk).
  simpl String.length in *. lia.
Qed.

Lemma all_digits_decimal n : all_digits (decimal n) = true.
Proof. unfold decimal. now apply all_digits_decimal_aux. Qed.

(** On a non-negative number the formatter writes zeros, then the digits. *)
Lemma format_0d_nonneg w n :
  0 <= n ->
  format_0d w n = (zeros (w - String.length (decimal n)) ++ decimal n)%string.
Proof.
  intros Hn. unfold format_0d.
  destruct (Z.ltb_spec n 0); [lia|].
  rewrite Z.abs_eq by assumption. simpl. now rewrite Nat.sub_0_r.
Qed.

Lemma value_format_0d w n : 0 <= n -> value (format_0d w n) = n.
Proof.
  intros Hn. rewrite format_0d_nonneg, value_app, value_zeros, value_decimal by assumption.
  lia.
Qed.

Lemma all_digits_format_0d w n : 0 <= n -> all_digits (format_0d w n) = true.
Proof.
  intros Hn. rewrite format_0d_nonneg, all_digits_app by assumption.
  now rewrite all_digits_zeros, all_digits_decimal.
Qed.

Lemma length_format_0d (w : nat) n :
  0 <= n < 10 ^ Z.of_nat w -> (1 <= w)%nat -> String.length (format_0d w n) = w.
Proof.
  intros [Hn Hlt] Hw. rewrite format_0d_nonneg, length_app_string, length_zeros by assumption.
  pose proof (length_decimal n w Hlt Hw). lia.
Qed.

(** The number under the key stays below [10 ^ (d + c)] on the domain. *)
Lemma true_key_bound key shard_id (d c : nat) :
  0 <= key < 10 ^ Z.of_nat d -> 0 <= shard_id < 10 ^ Z.of_nat c ->
  0 <= 10 ^ Z.of_nat d * shard_id + key < 10 ^ Z.of_nat (d + c).
Proof.
  intros Hk Hs. rewrite Nat2Z.inj_add, Z.pow_add_r by lia.
  assert (0 < 10 ^ Z.of_nat d) by (apply Z.pow_pos_nonneg; lia).
  nia.
Qed.

(** Quotient and remainder by [p] are determined by the number. *)
Lemma true_key_inj p k s k' s' :
  0 <= k < p -> 0 <= k' < p -> s * p + k = s' * p + k' -> k = k' /\ s = s'.
Proof.
  intros Hk Hk' E.
  assert (s = s') as ->.
  { destruct (Z.lt_trichotomy s s') as [Hlt|[Heq|Hgt]]; [|assumption|].
    - assert (p * 1 <= p * (s' - s)) by (apply Z.mul_le_mono_nonneg_l; lia). lia.
    - assert (p * 1 <= p * (s - s')) by (apply Z.mul_le_mono_nonneg_l; lia). lia. }
  split; lia.
Qed.

Lemma value_compute_key key shard_id (d c : nat) :
  0 <= key < 10 ^ Z.of_nat d -> 0 <= shard_id < 10 ^ Z.of_nat c ->
  value (compute_key key shard_id d c) = shard_id * 10 ^ Z.of_nat d + key.
Proof.
  intros Hk Hs. unfold compute_key.
  rewrite value_format_0d by (apply (true_key_bound key shard_id d c); assumption).
  ring.
Qed.

(** C4, as amended: with ordinal and shard id non-negative and below
    [10 ^ digitsPerShard] and [10 ^ digitsShardCount], and at least one digit
    of width in total, [compute_key] writes only decimal digits, exactly
    [digitsPerShard + digitsShardCount] of them, they denote
    [shardId * 10 ^ digitsPerShard + ordinal], and for fixed digit counts
    two tuples with the same key are the same tuple. *)
Theorem compute_key_fixed_width key shard_id (d c : nat) :
  0 <= key < 10 ^ Z.of_nat d ->
  0 <= shard_id < 10 ^ Z.of_nat c ->
  (1 <= d + c)%nat ->
  String.length (compute_key key shard_id d c) = (d + c)%nat
  /\ all_digits (compute_key key shard_id d c) = true
  /\ value (compute_key key shard_id d c) = shard_id * 10 ^ Z.of_nat d + key
  /\ (forall key' shard_id',
        0 <= key' < 10 ^ Z.of_nat d ->
        0 <= shard_id' < 10 ^ Z.of_nat c ->
        compute_key key' shard_id' d c = compute_key key shard_id d c ->
        key' = key /\ shard_id' = shard_id).
Proof.
  intros Hk Hs Hw.
  pose proof (true_key_bound key shard_id d c Hk Hs) as Hb.
  split; [unfold compute_key; now apply length_format_0d|].
  split; [unfold compute_key; now apply all_digits_format_0d|].
  split; [now apply value_compute_key|].
  intros key' shard_id' Hk' Hs' E.
  apply (f_equal value) in E.
  rewrite !value_compute_key in E by assumption.
  now apply (true_key_inj (10 ^ Z.of_nat d)).
Qed.

Lemma compute_key_fixed_width_witness :
  String.length (compute_key 42 7 4 5) = (4 + 5)%nat
  /\ all_digits (compute_key 42 7 4 5) = true
  /\ value (compute_key 42 7 4 5) = 7 * 10 ^ Z.of_nat 4 + 42.
Proof.
  destruct (compute_key_fixed_width 42 7 4 5) as (Hl & Hd & Hv & _);
    [vm_compute; split; [discriminate | reflexivity] ..| lia |].
  repeat split; assumption.
Defined.

(** C4, as stated, fails when both digit counts are zero: the only tuple of
    that domain is ordinal 0 in shard 0, and its key is ["0"], one character
    where zero are announced. *)
Lemma compute_key_zero_width :
  0 <= 0 < 10 ^ Z.of_nat 0
  /\ compute_key 0 0 0 0 = "0"%string
  /\ String.length (compute_key 0 0 0 0) <> (0 + 0)%nat.
Proof.
  split; [vm_compute; split; [discriminate | reflexivity]|].
  split; [reflexivity | discriminate].
Qed.

End Key.

(** ** The thread-shared merge cache ([cache_copy.py]) *)

Module MergeCache.

(** [CacheKey = Tuple[Name, RdataType, RdataClass]]: the name and the two
    integer codes.  A name is the text that stands for it up to the equality
    of [dns.name.Name], which ignores case; nothing below depends on what
    the keys are. *)
Definition CacheKey : Type := string * Z * Z.

Section Caches.
Context {Answer : Type}.

(** *** [SimpleCache] *)

(** [self.data[key] = value] *)
Definition simple_put (key : CacheKey) (value : Answer)
    (data : gmap CacheKey Answer) : gmap CacheKey Answer :=
  <[key := value]> data.

(** [dump]: the copy that is returned, and the cleared dictionary. *)
Definition simple_dump (data : gmap CacheKey Answer)
    : gmap CacheKey Answer * gmap CacheKey Answer :=
  let dumped_data := data in
  (dumped_data, ∅).

(** *** [GlobalCache]: every method runs under [self.lock], so each is one
    atomic transformation of [self.data]. *)

(** [dict.update(other)]: the bindings of [other] win. *)
Definition dict_update (self other : gmap CacheKey Answer)
    : gmap CacheKey Answer :=
  other ∪ self.

Definition merge (data new_data : gmap CacheKey Answer)
    : gmap CacheKey Answer :=
  let keys_to_add : gset CacheKey := dom new_data ∖ dom data in
  let keys_to_add_data :=
    filter (λ kv : CacheKey * Answer, kv.1 ∈ keys_to_add) new_data in
  dict_update data keys_to_add_data.

Definition get (key : CacheKey) (data : gmap CacheKey Answer) : option Answer :=
  data !! key.

Definition dump (data : gmap CacheKey Answer) : gmap CacheKey Answer :=
  let dumped_data := data in dumped_data.

(** *** Lookups in a merged cache *)

Lemma merge_lookup (data new_data : gmap CacheKey Answer) (k : CacheKey) :
  merge data new_data !! k
  = match data !! k with Some v => Some v | None => new_data !! k end.
Proof.
  unfold merge, dict_update. rewrite lookup_union.
  destruct (data !! k) as [v|] eqn:Hd.
  - rewrite map_lookup_filter_None_2; [by destruct (data !! k)|].
    right. intros x _ Hin. simpl in Hin.
    apply elem_of_difference in Hin as [_ Hn]. apply Hn.
    apply elem_of_dom. by exists v.
  - destruct (new_data !! k) as [w|] eqn:Hn.
    + rewrite (map_lookup_filter_Some_2 _ _ k w); [done | done |].
      simpl. apply elem_of_difference. split; [apply elem_of_dom; eauto|].
      rewrite elem_of_dom, Hd. by intros [? ?].
    + rewrite map_lookup_filter_None_2; [done|]. by left.
Qed.

(** C5: merging never changes the value of a key that was already cached; the
    keys afterwards are the old keys together with the new ones; a new value
    is taken only for a key that was absent. *)
Theorem merge_first_writer_wins (data new_data : gmap CacheKey Answer) :
  (∀ k v, data !! k = Some v → merge data new_data !! k = Some v)
  ∧ dom (merge data new_data) = dom data ∪ dom new_data
  ∧ (∀ k, data !! k = None → merge data new_data !! k = new_data !! k).
Proof.
  split; [|split].
  - intros k v Hk. by rewrite merge_lookup, Hk.
  - apply set_eq. intros k.
    rewrite elem_of_union, !elem_of_dom, merge_lookup.
    destruct (data !! k) as [v|], (new_data !! k) as [w|]; split;
      try (intros [?|?]); eauto; try done.
    all: try (by intros [? ?]).
  - intros k Hk. by rewrite merge_lookup, Hk.
Qed.

End Caches.

Example merge_ex :
  merge (Answer := string)
        {[ ("a.com."%string, 1%Z, 1%Z) := "old"%string ]}
        {[ ("a.com."%string, 1%Z, 1%Z) := "new"%string ]}
    !! ("a.com."%string, 1%Z, 1%Z)
  = Some "old"%string.
Proof. by rewrite merge_lookup, lookup_singleton_eq. Qed.

End MergeCache.

(** ** The remote LRU cache ([lru_cache.py]) *)

Module RedisLRU.
Import Exc.
Local Open Scope exc_scope.

Definition bytes : Type := list Byte.byte.

(** *** The Redis server

    The server is outside the repository; the commands the cache sends are
    modelled by their documented behaviour on one keyspace that holds byte
    strings and lists. *)

Inductive rvalue : Type :=
| RString (b : bytes)
| RList (l : list string).

Definition WRONGTYPE : string :=
  "WRONGTYPE Operation against a key holding the wrong kind of value".

Definition redis_get (k : string) : M (gmap string rvalue) (option bytes) :=
  fun d =>
    match d !! k with
    | None => (inr None, d)
    | Some (RString b) => (inr (Some b), d)
    | Some (RList _) => (inl WRONGTYPE, d)
    end.

Definition redis_set (k : string) (v : bytes) : M (gmap string rvalue) unit :=
  modify (insert k (RString v)).

Definition redis_delete (k : string) : M (gmap string rvalue) Z :=
  fun d => (inr (match d !! k with Some _ => 1%Z | None => 0%Z end), delete k d).

(** Drop the first [n] occurrences of [x], scanning from the head. *)
Fixpoint remove_first (x : string) (l : list string) (n : nat) : list string :=
  match l with
  | [] => []
  | y :: l' =>
      match n with
      | O => l
      | S n' =>
          if decide (y = x) then remove_first x l' n'
          else y :: remove_first x l' n
      end
  end.

Definition lrem_list (count : Z) (x : string) (l : list string) : list string :=
  if (count =? 0)%Z then filter (λ y, y ≠ x) l
  else if (0 <? count)%Z then remove_first x l (Z.to_nat count)
  else rev (remove_first x (rev l) (Z.to_nat (- count))).

(** [LREM name count value]: an empty list does not stay in the keyspace. *)
Definition redis_lrem (name : string) (count : Z) (value : string)
    : M (gmap string rvalue) Z :=
  fun d =>
    match d !! name with
    | None => (inr 0%Z, d)
    | Some (RString _) => (inl WRONGTYPE, d)
    | Some (RList l) =>
        let l' := lrem_list count value l in
        let removed := (Z.of_nat (length l) - Z.of_nat (length l'))%Z in
        match l' with
        | [] => (inr removed, delete name d)
        | _ => (inr removed, <[name := RList l']> d)
        end
    end.

(** [LPUSH name value]: the value becomes the head of the list. *)
Definition redis_lpush (name : string) (value : string)
    : M (gmap string rvalue) Z :=
  fun d =>
    match d !! name with
    | None => (inr 1%Z, <[name := RList [value]]> d)
    | Some (RString _) => (inl WRONGTYPE, d)
    | Some (RList l) =>
        (inr (Z.of_nat (S (length l))), <[name := RList (value :: l)]> d)
    end.

Definition redis_flushdb : M (gmap string rvalue) unit := modify (fun _ => ∅).

Definition redis_dbsize : M (gmap string rvalue) Z :=
  gets (fun d => Z.of_nat (size d)).

(** *** [LRUCacheRedis] *)

Definition CacheKey : Type := string * Z * Z.

(** The object: its connection (the server's keyspace) and the hit and miss
    counters of [CacheBase.statistics]. *)
Record cache : Type := mk_cache {
  conn : gmap string rvalue;
  hits : Z;
  misses : Z
}.

Definition on_conn {A} (m : M (gmap string rvalue) A) : M cache A :=
  zoom conn (fun d c => mk_cache d (hits c) (misses c)) m.

Definition get_size : M cache Z := on_conn redis_dbsize.

(** [f"{name!s}:{int(rdtype)}:{int(rdclass)}"] *)
Definition _generate_cache_key (key : CacheKey) : string :=
  let '(name, rdtype, rdclass) := key in
  (name ++ ":" ++ Key.str_int rdtype ++ ":" ++ Key.str_int rdclass)%string.

Section Cache.
Context {Answer : Type}.
Variable pickle_dumps : Answer -> bytes.
(** [None]: [pickle.loads] raises. *)
Variable pickle_loads : bytes -> option Answer.

Definition loads (data : bytes) : M cache Answer :=
  match pickle_loads data with
  | Some a => ret a
  | None => raise "UnpicklingError"
  end.

Definition get (key : CacheKey) : M cache (option Answer) :=
  let cache_key := _generate_cache_key key in
  cache_data <- on_conn (redis_get cache_key) ;;
  match cache_data with
  | None =>
      modify (fun c => mk_cache (conn c) (hits c) (misses c + 1)) ;;
      ret None
  | Some data =>
      answer <- loads data ;;
      on_conn (redis_lrem "lru_list" 0 cache_key) ;;
      on_conn (redis_lpush "lru_list" cache_key) ;;
      modify (fun c => mk_cache (conn c) (hits c + 1) (misses c)) ;;
      ret (Some answer)
  end.

Definition put (key : CacheKey) (value : Answer) : M cache unit :=
  let cache_key := _generate_cache_key key in
  let serialized_value := pickle_dumps value in
  on_conn (redis_set cache_key serialized_value) ;;
  on_conn (redis_lrem "lru_list" 0 cache_key) ;;
  on_conn (redis_lpush "lru_list" cache_key) ;;
  ret tt.

Definition flush (key : option CacheKey) : M cache unit :=
  match key with
  | Some key =>
      let cache_key := _generate_cache_key key in
      on_conn (redis_delete cache_key) ;;
      on_conn (redis_lrem "lru_list" 0 cache_key) ;;
      ret tt
  | None => on_conn redis_flushdb
  end.

(** The recency list as the server holds it. *)
Definition lru_list (d : gmap string rvalue) : list string :=
  match d !! "lru_list"%string with
  | Some (RList l) => l
  | _ => []
  end.

(** What a keyspace written only by this class looks like: the list lives
    under ["lru_list"], every other key holds a pickled answer. *)
Definition store_ok (d : gmap string rvalue) : Prop :=
  ∀ k x, d !! k = Some x →
    match x with
    | RString b => k ≠ "lru_list"%string ∧ ∃ v, b = pickle_dumps v
    | RList _ => k = "lru_list"%string
    end.

(** The keyspace after [LREM lru_list 0 ck] and [LPUSH lru_list ck]. *)
Definition touched (d : gmap string rvalue) (ck : string) : gmap string rvalue :=
  <["lru_list"%string := RList (ck :: filter (λ y, y ≠ ck) (lru_list d))]> d.

Fixpoint has_colon (s : string) : bool :=
  match s with
  | EmptyString => false
  | String c s' => Ascii.eqb c ":" || has_colon s'
  end.

(** *** The cache key never collides with the name of the list *)

Lemma has_colon_app (name rest : string) :
  has_colon (name ++ ":" ++ rest) = true.
Proof.
  induction name as [|c name IH]; [reflexivity|].
  change (has_colon (String c name ++ ":" ++ rest))
    with (Ascii.eqb c ":" || has_colon (name ++ ":" ++ rest)).
  rewrite IH. apply orb_true_r.
Qed.

Lemma cache_key_not_lru (key : CacheKey) :
  _generate_cache_key key ≠ "lru_list"%string.
Proof.
  destruct key as [[name rdtype] rdclass]. unfold _generate_cache_key.
  intros E. apply (f_equal has_colon) in E.
  rewrite has_colon_app in E. discriminate E.
Qed.

(** *** The two list commands sent on every access *)

Lemma lrem_lpush_spec (d : gmap string rvalue) (ck : string) :
  (∀ b, d !! "lru_list"%string ≠ Some (RString b)) →
  ∃ r, (redis_lrem "lru_list" 0 ck ;; redis_lpush "lru_list" ck) d
       = (inr r, touched d ck).
Proof.
  intros Hlru. unfold bind, redis_lrem, redis_lpush, touched, lru_list.
  destruct (d !! "lru_list"%string) as [[b|l]|] eqn:Hl.
  - by destruct (Hlru b).
  - change (lrem_list 0 ck l) with (filter (λ y, y ≠ ck) l).
    destruct (filter (λ y, y ≠ ck) l) as [|y l'] eqn:Hf.
    + rewrite lookup_delete_eq, insert_delete_eq. eauto.
    + rewrite lookup_insert_eq, insert_insert_eq. eauto.
  - rewrite Hl. eauto.
Qed.

Lemma on_conn_lrem_lpush (c : cache) (ck : string) :
  (∀ b, conn c !! "lru_list"%string ≠ Some (RString b)) →
  ∀ {A} (k : M cache A),
    (on_conn (redis_lrem "lru_list" 0 ck) ;;
     on_conn (redis_lpush "lru_list" ck) ;; k) c
    = k (mk_cache (touched (conn c) ck) (hits c) (misses c)).
Proof.
  intros Hlru A k. destruct (lrem_lpush_spec (conn c) ck Hlru) as [r Hr].
  unfold bind, on_conn, zoom in *.
  destruct (redis_lrem "lru_list" 0 ck (conn c)) as [[e|n] d1]; [discriminate|].
  simpl. destruct (redis_lpush "lru_list" ck d1) as [[e|n'] d2]; [discriminate|].
  by injection Hr as _ ->.
Qed.

Lemma store_ok_lru (d : gmap string rvalue) :
  store_ok d → ∀ b, d !! "lru_list"%string ≠ Some (RString b).
Proof. intros Hok b Hb. by destruct (Hok _ _ Hb) as [Hne _]. Qed.

Lemma lru_list_touched (d : gmap string rvalue) (ck : string) :
  lru_list (touched d ck) = ck :: filter (λ y, y ≠ ck) (lru_list d).
Proof. unfold lru_list at 1, touched. by rewrite lookup_insert_eq. Qed.

Lemma store_ok_empty : store_ok ∅.
Proof. intros k x Hk. by rewrite lookup_empty in Hk. Qed.

Lemma store_ok_touched (d : gmap string rvalue) (ck : string) :
  store_ok d → store_ok (touched d ck).
Proof.
  intros Hok k x. unfold touched. rewrite lookup_insert.
  case_decide as Hk; [intros [= <-]; done | apply Hok].
Qed.

Lemma store_ok_set (d : gmap string rvalue) (key : CacheKey) (v : Answer) :
  store_ok d →
  store_ok (<[_generate_cache_key key := RString (pickle_dumps v)]> d).
Proof.
  intros Hok k x. rewrite lookup_insert.
  case_decide as Hk; [|apply Hok].
  intros [= <-]. subst k. split; [apply cache_key_not_lru | eauto].
Qed.

(** *** What each method does to a well-formed store *)

Lemma put_spec (c : cache) (key : CacheKey) (v : Answer) :
  store_ok (conn c) →
  put key v c
  = (inr tt,
     mk_cache
       (touched (<[_generate_cache_key key := RString (pickle_dumps v)]> (conn c))
                (_generate_cache_key key))
       (hits c) (misses c)).
Proof.
  intros Hok. unfold put.
  unfold bind at 1. unfold on_conn at 1, zoom, redis_set, modify. simpl.
  rewrite on_conn_lrem_lpush; [reflexivity|].
  simpl. apply store_ok_lru. by apply store_ok_set.
Qed.

Lemma get_miss_spec (c : cache) (key : CacheKey) :
  conn c !! _generate_cache_key key = None →
  get key c = (inr None, mk_cache (conn c) (hits c) (misses c + 1)).
Proof.
  intros Hk. unfold get, bind, on_conn, zoom, redis_get. rewrite Hk.
  destruct c; reflexivity.
Qed.

Lemma get_hit_spec (c : cache) (key : CacheKey) (b : bytes) (a : Answer) :
  store_ok (conn c) →
  conn c !! _generate_cache_key key = Some (RString b) →
  pickle_loads b = Some a →
  get key c
  = (inr (Some a),
     mk_cache (touched (conn c) (_generate_cache_key key)) (hits c + 1) (misses c)).
Proof.
  intros Hok Hk Hl. unfold get.
  unfold bind at 1. unfold on_conn at 1, zoom, redis_get. rewrite Hk.
  assert (Hc : mk_cache (conn c) (hits c) (misses c) = c) by (by destruct c).
  rewrite Hc. unfold bind at 1. unfold loads. rewrite Hl. unfold ret at 1.
  rewrite on_conn_lrem_lpush by (by apply store_ok_lru).
  reflexivity.
Qed.

Lemma flush_key_spec (c : cache) (key : CacheKey) :
  store_ok (conn c) →
  ∃ d', flush (Some key) c = (inr tt, mk_cache d' (hits c) (misses c))
        ∧ d' !! _generate_cache_key key = None
        ∧ lru_list d'
          = filter (λ y, y ≠ _generate_cache_key key) (lru_list (conn c))
        ∧ store_ok d'.
Proof.
  intros Hok. set (ck := _generate_cache_key key).
  assert (Hne : ck ≠ "lru_list"%string) by apply cache_key_not_lru.
  assert (Hok1 : store_ok (delete ck (conn c))).
  { intros k x. rewrite lookup_delete. case_decide; [done | apply Hok]. }
  unfold flush. fold ck.
  unfold bind, on_conn, zoom, redis_delete, redis_lrem, ret. simpl.
  unfold lru_list. rewrite lookup_delete_ne by done.
  destruct (conn c !! "lru_list"%string) as [[b|l]|] eqn:Hl.
  - by destruct (store_ok_lru _ Hok b).
  - change (lrem_list 0 ck l) with (filter (λ y, y ≠ ck) l).
    destruct (filter (λ y, y ≠ ck) l) as [|y l'] eqn:Hf.
    + eexists. split; [reflexivity|]. simpl.
      rewrite lookup_delete_ne, lookup_delete_eq, lookup_delete_eq by done.
      repeat split; try done.
      intros k x. rewrite lookup_delete. case_decide; [done | apply Hok1].
    + eexists. split; [reflexivity|]. simpl.
      rewrite lookup_insert_ne, lookup_delete_eq, lookup_insert_eq by done.
      repeat split; try done.
      intros k x. rewrite lookup_insert.
      case_decide; [intros [= <-]; done | apply Hok1].
  - eexists. split; [reflexivity|]. simpl.
    rewrite lookup_delete_eq, lookup_delete_ne, Hl by done. done.
Qed.

Lemma flush_all_spec (c : cache) :
  flush None c = (inr tt, mk_cache ∅ (hits c) (misses c)).
Proof. reflexivity. Qed.

(** Every method leaves a well-formed store well-formed, so a store that
    starts empty and is written only through this class stays well-formed. *)
Lemma store_ok_put (c : cache) (key : CacheKey) (v : Answer) :
  store_ok (conn c) → store_ok (conn (put key v c).2).
Proof.
  intros Hok. rewrite put_spec by done. simpl.
  by apply store_ok_touched, store_ok_set.
Qed.

Lemma store_ok_get (c : cache) (key : CacheKey) :
  store_ok (conn c) → store_ok (conn (get key c).2).
Proof.
  intros Hok.
  destruct (conn c !! _generate_cache_key key) as [[b|l]|] eqn:Hk.
  - destruct (pickle_loads b) as [a|] eqn:Hl.
    + rewrite (get_hit_spec c key b a) by done. simpl. by apply store_ok_touched.
    + unfold get, bind, on_conn, zoom, redis_get, loads, raise.
      rewrite Hk, Hl. by destruct c.
  - unfold get, bind, on_conn, zoom, redis_get. rewrite Hk. by destruct c.
  - rewrite get_miss_spec by done. done.
Qed.

Lemma store_ok_flush (c : cache) (key : option CacheKey) :
  store_ok (conn c) → store_ok (conn (flush key c).2).
Proof.
  intros Hok. destruct key as [key|].
  - destruct (flush_key_spec c key Hok) as (d' & -> & _ & _ & Hok'). done.
  - rewrite flush_all_spec. apply store_ok_empty.
Qed.

Hypothesis pickle_roundtrip : ∀ v, pickle_loads (pickle_dumps v) = Some v.


End Cache.


Example get_after_put_ex :
  (get (Answer := bytes) Some ("example.com."%string, 1%Z, 1%Z)
     (put (Answer := bytes) (λ b, b) ("example.com."%string, 1%Z, 1%Z)
          [Byte.x01] (mk_cache ∅ 0 0)).2).1
  = inr (Some [Byte.x01]).
Proof. by vm_compute. Qed.

End RedisLRU.

(** ** Domain resolution over the pool of public resolvers *)

Module Dns.

Definition PUBLIC_DNS_SERVERS : list string :=
  [ "8.8.8.8"; "8.8.4.4"; "1.1.1.1"; "9.9.9.9"; "1.0.0.1";
    "208.67.222.222"; "208.67.220.220" ]%string.

(** Python's [needle in haystack] on strings. *)
Fixpoint contains (needle haystack : string) : bool :=
  String.prefix needle haystack
  || match haystack with
     | EmptyString => false
     | String _ rest => contains needle rest
     end.

Definition parse_dns_error (error : string) : string :=
  if contains "The DNS query name does not exist" error then
    "The DNS query name does not exist."
  else if contains "The DNS response does not contain an answer to the question" error then
    "The DNS response does not contain an answer to the question."
  else if contains "All nameservers failed to answer the query data.whicdn.com. IN A" error then
    "All nameservers failed to answer the query data.whicdn.com. IN A."
  else error.

(** [random.choice(PUBLIC_DNS_SERVERS)] when the generator draws [k]. *)
Definition random_choice (k : nat) : string :=
  nth (k mod length PUBLIC_DNS_SERVERS) PUBLIC_DNS_SERVERS EmptyString.

(** What one run of [resolve_domain] reads and writes: the contents of the
    set object bound to [dns_blacklist], the number of draws taken from the
    random generator, and the log of the resolvers that were selected, each
    with the blacklist it was selected against. *)
Record dns_state : Type := mk_dns_state {
  blacklist : gset string;
  draws : nat;
  selections : list (string * gset string)
}.

(** The process when the module has just been loaded. *)
Definition fresh_process : dns_state := mk_dns_state ∅ 0 [].

(** Two top-level calls in a row.  The first, for a domain that fails, uses
    one retry and fails on 8.8.8.8 then on 8.8.4.4.  The second call is for
    a domain that resolves on any server, and the generator offers 8.8.8.8
    first. *)
Definition rand_ex (i : nat) : nat := nth i [0; 1; 0; 3] 3.

Definition resolve_ex (_ : nat) (_ : string) (domain : option string)
    : string + string :=
  if decide (domain = Some "good.example"%string)
  then inr "93.184.216.34"%string
  else inl "The DNS query name does not exist: bad.invalid."%string.

Section Resolve.
(** The random generator: its [i]-th draw. *)
Variable rand : nat -> nat.
(** [resolver.resolve(domain)] on the [i]-th lookup of the process, sent to
    one nameserver: the text of the exception, or the text of the first
    answer.  The domain is [None] for a URL without a hostname. *)
Variable resolve : nat -> string -> option string -> string + string.

(** The [while] loop: draw until the server is not blacklisted.  [None]: the
    loop is still running after [fuel] draws. *)
Fixpoint select_server (fuel : nat) (dns_blacklist : gset string) (drawn : nat)
    : option (string * nat) :=
  match fuel with
  | O => None
  | S fuel' =>
      let selected_dns_server := random_choice (rand drawn) in
      if decide (selected_dns_server ∈ dns_blacklist)
      then select_server fuel' dns_blacklist (S drawn)
      else Some (selected_dns_server, S drawn)
  end.

(** [resolve_domain(domain, resolver, dns_blacklist, num_retries)].  A retry
    budget that is not positive behaves as [0]; [fuel] bounds each run of the
    selection loop. *)
Fixpoint resolve_domain (fuel : nat) (domain : option string)
    (num_retries : nat) (st : dns_state) : option (bool * string * dns_state) :=
  match select_server fuel (blacklist st) (draws st) with
  | None => None
  | Some (selected_dns_server, drawn) =>
      let attempt := length (selections st) in
      let log := selections st ++ [(selected_dns_server, blacklist st)] in
      match resolve attempt selected_dns_server domain with
      | inr ip => Some (true, ip, mk_dns_state (blacklist st) drawn log)
      | inl e =>
          match num_retries with
          | S n =>
              resolve_domain fuel domain n
                (mk_dns_state ({[selected_dns_server]} ∪ blacklist st) drawn log)
          | O =>
              Some (false, parse_dns_error e,
                    mk_dns_state (blacklist st) drawn log)
          end
      end
  end.

(** The generator keeps offering every server of the pool. *)
Definition fair : Prop :=
  ∀ p i, i < length PUBLIC_DNS_SERVERS →
    ∃ q, p ≤ q ∧ rand q mod length PUBLIC_DNS_SERVERS = i.

(** Every lookup of the domain raises, whichever server is asked. *)
Definition always_fails (domain : option string) : Prop :=
  ∀ i ns, ∃ e, resolve i ns domain = inl e.

(** A log of selections in which each server is outside the blacklist it was
    selected against, and joins it for the next selection. *)
Fixpoint chain (bl : gset string) (l : list (string * gset string)) : Prop :=
  match l with
  | [] => True
  | (s, b) :: l' =>
      (b = bl) ∧ (s ∈ PUBLIC_DNS_SERVERS) ∧ (s ∉ bl) ∧ chain ({[s]} ∪ bl) l'
  end.

(** *** The blacklist a call gets when it passes none

    [def resolve_domain(..., dns_blacklist: Set[str] = set(), ...)] builds
    one set when the function is defined and binds that same object to every
    call that omits the argument; [dns_blacklist.add] writes into it.  The
    state of the process therefore carries the contents of that set from
    one top-level call to the next. *)

(** [resolve_domain(domain, resolver, num_retries=n)], as [download_image]
    calls it: the blacklist is the default object held by the process. *)
Definition resolve_domain_default (fuel : nat) (domain : option string)
    (num_retries : nat) (process : dns_state)
    : option (bool * string * dns_state) :=
  resolve_domain fuel domain num_retries process.

(** What the specification describes: every top-level call starts from an
    empty blacklist of its own, and the process keeps none. *)
Definition resolve_domain_fresh_blacklist (fuel : nat) (domain : option string)
    (num_retries : nat) (process : dns_state)
    : option (bool * string * dns_state) :=
  match resolve_domain fuel domain num_retries
          (mk_dns_state ∅ (draws process) (selections process)) with
  | None => None
  | Some (ok, text, st') =>
      Some (ok, text, mk_dns_state (blacklist process) (draws st') (selections st'))
  end.

(** The pool as a set. *)
Definition pool_set : gset string := list_to_set PUBLIC_DNS_SERVERS.

(** *** The selection loop *)

Lemma random_choice_in_pool k : random_choice k ∈ PUBLIC_DNS_SERVERS.
Proof.
  apply list_elem_of_In, nth_In.
  apply Nat.mod_upper_bound. discriminate.
Qed.

Lemma size_pool_set : size pool_set = 7.
Proof. by vm_compute. Qed.

Lemma elem_of_pool_set s : s ∈ pool_set ↔ s ∈ PUBLIC_DNS_SERVERS.
Proof. unfold pool_set. apply elem_of_list_to_set. Qed.

Lemma select_server_sound fuel bl : ∀ p s p',
  select_server fuel bl p = Some (s, p') →
  (s ∈ PUBLIC_DNS_SERVERS) ∧ (s ∉ bl) ∧ (p < p').
Proof.
  induction fuel as [|f IH]; intros p s p' H; simpl in H; [discriminate|].
  case_decide as Hin.
  - apply IH in H as (? & ? & ?). repeat split; [done | done | lia].
  - injection H as <- <-. split; [apply random_choice_in_pool|]. split; [done | lia].
Qed.

Lemma select_server_mono fuel bl : ∀ fuel' p r,
  fuel ≤ fuel' →
  select_server fuel bl p = Some r → select_server fuel' bl p = Some r.
Proof.
  induction fuel as [|f IH]; intros fuel' p r Hle H; simpl in H; [discriminate|].
  destruct fuel' as [|f']; [lia|]. simpl.
  case_decide; [apply IH; [lia | done] | done].
Qed.

Lemma select_server_reaches bl : ∀ n p,
  random_choice (rand (p + n)) ∉ bl →
  ∃ r, select_server (S n) bl p = Some r.
Proof.
  induction n as [|n IH]; intros p Hq.
  - rewrite Nat.add_0_r in Hq. simpl. rewrite decide_False by done. eauto.
  - cbn [select_server]. case_decide; [|eauto].
    apply IH. by replace (S p + n) with (p + S n) by lia.
Qed.

(** A server outside the blacklist exists as long as the blacklist is
    smaller than the pool. *)
Lemma pool_not_exhausted (bl : gset string) :
  size bl < 7 → ∃ s, s ∈ PUBLIC_DNS_SERVERS ∧ s ∉ bl.
Proof.
  intros Hsz.
  destruct (set_choose_or_empty (pool_set ∖ bl)) as [[s Hs]|Hempty].
  - apply elem_of_difference in Hs as [Hs Hn].
    exists s. split; [by apply elem_of_pool_set | done].
  - assert (pool_set ⊆ bl) as Hsub.
    { intros x Hx. destruct (decide (x ∈ bl)) as [|Hout]; [done|].
      assert (x ∈ pool_set ∖ bl) as Hd by (by apply elem_of_difference).
      apply Hempty in Hd. by apply not_elem_of_empty in Hd. }
    apply subseteq_size in Hsub. rewrite size_pool_set in Hsub. lia.
Qed.

Lemma select_server_fair bl p :
  fair → size bl < 7 →
  ∃ fuel s p', ∀ fuel', fuel ≤ fuel' → select_server fuel' bl p = Some (s, p').
Proof.
  intros Hfair Hsz.
  destruct (pool_not_exhausted bl Hsz) as (s & Hs & Hn).
  apply list_elem_of_In, (In_nth _ _ EmptyString) in Hs as (i & Hi & Hnth).
  destruct (Hfair p i Hi) as (q & Hq & Hr).
  destruct (select_server_reaches bl (q - p) p) as [[s' p'] Hsel].
  { replace (p + (q - p)) with q by lia.
    unfold random_choice. by rewrite Hr, Hnth. }
  exists (S (q - p)), s', p'. intros fuel' Hle.
  by apply (select_server_mono (S (q - p))).
Qed.

(** *** Logs of selections *)

Lemma union_shift (X Y : gset string) (s : string) :
  X ∪ ({[s]} ∪ Y) = ({[s]} ∪ X) ∪ Y.
Proof. by rewrite (assoc_L (∪)), (comm_L (∪) X {[s]}). Qed.

Lemma chain_fresh bl l :
  chain bl l → ∀ s, s ∈ l.*1 → s ∈ PUBLIC_DNS_SERVERS ∧ s ∉ bl.
Proof.
  revert bl. induction l as [|[s0 b0] l IH]; intros bl Hc s Hs; simpl in *.
  - by apply elem_of_nil in Hs.
  - destruct Hc as (-> & Hp & Hn & Hc).
    apply elem_of_cons in Hs as [->|Hs]; [done|].
    destruct (IH _ Hc s Hs) as [Hin Hout]. split; [done|].
    intros Hbl. apply Hout, elem_of_union. by right.
Qed.

Lemma chain_NoDup bl l : chain bl l → NoDup l.*1.
Proof.
  revert bl. induction l as [|[s0 b0] l IH]; intros bl Hc; simpl in *.
  - constructor.
  - destruct Hc as (-> & Hp & Hn & Hc). constructor; [|by eapply IH].
    intros Hin. destruct (chain_fresh _ _ Hc s0 Hin) as [_ Hout].
    apply Hout, elem_of_union. left. by apply elem_of_singleton.
Qed.

Lemma chain_snapshot bl l :
  chain bl l → ∀ i s b, l !! i = Some (s, b) →
  (s ∈ PUBLIC_DNS_SERVERS) ∧ (s ∉ b) ∧ (b = list_to_set (take i l.*1) ∪ bl).
Proof.
  revert bl. induction l as [|[s0 b0] l IH]; intros bl Hc i s b Hi; simpl in *.
  - by rewrite lookup_nil in Hi.
  - destruct Hc as (-> & Hp & Hn & Hc). destruct i as [|i]; simpl in *.
    + injection Hi as <- <-. split; [done|]. split; [done|].
      by rewrite (left_id_L ∅ (∪)).
    + destruct (IH _ Hc i s b Hi) as (? & ? & ->).
      split; [done|]. split; [done | apply union_shift].
Qed.

(** *** A run in which every lookup fails *)

Lemma resolve_domain_fail_run (domain : option string) :
  fair → always_fails domain →
  ∀ N st, size (blacklist st) + N < 7 →
  ∃ fuel e st' new,
    (∀ fuel', fuel ≤ fuel' →
       resolve_domain fuel' domain N st = Some (false, parse_dns_error e, st'))
    ∧ selections st' = selections st ++ new
    ∧ length new = S N
    ∧ chain (blacklist st) new
    ∧ blacklist st' = list_to_set (take N new.*1) ∪ blacklist st
    ∧ (∃ ns, resolve (length (selections st) + N) ns domain = inl e).
Proof.
  intros Hfair Hfail. induction N as [|n IH]; intros st Hsz.
  - destruct (select_server_fair (blacklist st) (draws st) Hfair) as (f0 & s & p' & Hsel);
      [lia|].
    destruct (select_server_sound _ _ _ _ _ (Hsel f0 (le_n _))) as (Hp & Hn & _).
    destruct (Hfail (length (selections st)) s) as [e He].
    exists f0, e. eexists. exists [(s, blacklist st)].
    split; [|split; [|split; [|split; [|split]]]].
    + intros fuel' Hle. simpl. rewrite (Hsel fuel' Hle), He. reflexivity.
    + reflexivity.
    + reflexivity.
    + simpl. done.
    + simpl. by rewrite (left_id_L ∅ (∪)).
    + exists s. by rewrite Nat.add_0_r.
  - destruct (select_server_fair (blacklist st) (draws st) Hfair) as (f0 & s & p' & Hsel);
      [lia|].
    destruct (select_server_sound _ _ _ _ _ (Hsel f0 (le_n _))) as (Hp & Hn & _).
    destruct (Hfail (length (selections st)) s) as [e0 He0].
    destruct (IH (mk_dns_state ({[s]} ∪ blacklist st) p'
                    (selections st ++ [(s, blacklist st)])))
      as (f1 & e & st' & new & Hrun & Hlog & Hlen & Hch & Hbl & ns & Hns).
    { simpl. rewrite size_union by (by apply disjoint_singleton_l).
      rewrite size_singleton. lia. }
    simpl in *.
    exists (f0 `max` f1), e, st', ((s, blacklist st) :: new).
    split; [|split; [|split; [|split; [|split]]]].
    + intros fuel' Hle. simpl. rewrite (Hsel fuel') by lia. rewrite He0.
      apply Hrun. lia.
    + by rewrite Hlog, <- app_assoc.
    + simpl. by rewrite Hlen.
    + simpl. done.
    + rewrite Hbl. simpl. apply union_shift.
    + exists ns. rewrite length_app in Hns. simpl in Hns.
      by replace (length (selections st) + S n) with (length (selections st) + 1 + n) by lia.
Qed.

(** A run in which every lookup fails returns only if the pool can supply
    one fresh server per attempt. *)
Lemma resolve_domain_returns_bound (domain : option string) :
  always_fails domain →
  ∀ N fuel st r,
    blacklist st ⊆ pool_set →
    resolve_domain fuel domain N st = Some r →
    size (blacklist st) + N < 7.
Proof.
  intros Hfail. induction N as [|n IH]; intros fuel st r Hsub Hrun; simpl in Hrun.
  - destruct (select_server fuel (blacklist st) (draws st)) as [[s p']|] eqn:Hsel;
      [|discriminate].
    apply select_server_sound in Hsel as (Hp & Hn & _).
    assert (blacklist st ⊂ pool_set) as Hstrict.
    { split; [done|]. intros Hsup. apply Hn, Hsup. by apply elem_of_pool_set. }
    apply subset_size in Hstrict. rewrite size_pool_set in Hstrict. lia.
  - destruct (select_server fuel (blacklist st) (draws st)) as [[s p']|] eqn:Hsel;
      [|discriminate].
    apply select_server_sound in Hsel as (Hp & Hn & _).
    destruct (Hfail (length (selections st)) s) as [e He]. rewrite He in Hrun.
    apply IH in Hrun; simpl in *.
    + rewrite size_union, size_singleton in Hrun by (by apply disjoint_singleton_l).
      lia.
    + apply union_subseteq. split; [|done].
      apply singleton_subseteq_l. by apply elem_of_pool_set.
Qed.

(** Only servers of the pool are ever blacklisted. *)
Lemma resolve_domain_blacklist_in_pool (domain : option string) :
  ∀ N fuel st r,
    blacklist st ⊆ pool_set →
    resolve_domain fuel domain N st = Some r →
    blacklist r.2 ⊆ pool_set.
Proof.
  induction N as [|n IH]; intros fuel st r Hsub Hrun; simpl in Hrun;
    destruct (select_server fuel (blacklist st) (draws st)) as [[s p']|] eqn:Hsel;
    try discriminate;
    apply select_server_sound in Hsel as (Hp & Hn & _);
    destruct (resolve (length (selections st)) s domain) as [e|ip].
  - by injection Hrun as <-.
  - by injection Hrun as <-.
  - apply IH in Hrun; [done|]. cbn [blacklist].
    apply union_subseteq. split; [|done].
    apply singleton_subseteq_l. by apply elem_of_pool_set.
  - by injection Hrun as <-.
Qed.

(** C3, as amended: for a domain whose every lookup fails, a generator that
    keeps offering every server, and a retry budget [N] smaller than the
    pool (N + 1 <= 7), a call that starts from an empty blacklist returns
    [ok = false] with the normalized text of the last error, after exactly
    [N + 1] selections, each followed by one lookup; the selected servers
    are pairwise distinct members of the pool, and the blacklist at the
    [i]-th selection is exactly the set of the [i] servers that failed
    before, so it grows by one server per attempt. *)
Theorem resolve_domain_exhausts_budget (domain : option string) (N drawn : nat) :
  fair → always_fails domain → N < length PUBLIC_DNS_SERVERS →
  ∃ fuel e st',
    (∀ fuel', fuel ≤ fuel' →
       resolve_domain fuel' domain N (mk_dns_state ∅ drawn [])
       = Some (false, parse_dns_error e, st'))
    ∧ length (selections st') = N + 1
    ∧ NoDup (selections st').*1
    ∧ (∀ i s b, selections st' !! i = Some (s, b) →
         (s ∈ PUBLIC_DNS_SERVERS) ∧ (s ∉ b)
         ∧ (b = list_to_set (take i (selections st').*1)))
    ∧ blacklist st' = list_to_set (take N (selections st').*1)
    ∧ (∃ ns, resolve N ns domain = inl e).
Proof.
  intros Hfair Hfail HN. change (length PUBLIC_DNS_SERVERS) with 7 in HN.
  destruct (resolve_domain_fail_run domain Hfair Hfail N (mk_dns_state ∅ drawn []))
    as (fuel & e & st' & new & Hrun & Hlog & Hlen & Hch & Hbl & Hlast).
  { cbn [blacklist]. rewrite size_empty. lia. }
  cbn [blacklist selections app] in *. subst new. exists fuel, e, st'.
  split; [exact Hrun|]. split; [lia|].
  split; [by apply (chain_NoDup ∅)|].
  split; [|split; [by rewrite Hbl, (right_id_L ∅ (∪)) | exact Hlast]].
  intros i s b Hi. destruct (chain_snapshot ∅ _ Hch i s b Hi) as (? & ? & ->).
  split; [done|]. split; [done|]. by rewrite (right_id_L ∅ (∪)).
Qed.

End Resolve.

(** A generator that walks round the pool offers every server. *)
Lemma round_robin_fair : fair (λ i, i).
Proof.
  intros p i Hi. change (length PUBLIC_DNS_SERVERS) with 7 in *.
  exists (i + p * 7). split; [lia|].
  rewrite Nat.Div0.mod_add. by apply Nat.mod_small.
Qed.

Lemma resolve_domain_exhausts_budget_witness :
  ∃ fuel e st',
    (∀ fuel', fuel ≤ fuel' →
       resolve_domain (λ i, i) (λ _ _ _, inl "timeout"%string) fuel'
         (Some "nowhere.invalid"%string) 2 (mk_dns_state ∅ 0 [])
       = Some (false, parse_dns_error e, st'))
    ∧ length (selections st') = 2 + 1.
Proof.
  destruct (resolve_domain_exhausts_budget (λ i, i) (λ _ _ _, inl "timeout"%string)
              (Some "nowhere.invalid"%string) 2 0)
    as (fuel & e & st' & Hrun & Hlen & _).
  - exact round_robin_fair.
  - intros i ns. by eexists.
  - simpl. lia.
  - exists fuel, e, st'. by split.
Defined.

(** C3, as stated, fails for a budget of 7, the size of the pool: the domain
    fails everywhere, the generator offers every server, and the call never
    returns, whatever the fuel.  After seven failures the blacklist holds
    the whole pool and the selection loop has nothing left to accept. *)
Lemma resolve_domain_budget_beyond_pool :
  always_fails (λ _ _ _, inl "timeout"%string) (Some "nowhere.invalid"%string)
  ∧ fair (λ i, i)
  ∧ ∀ fuel,
      resolve_domain (λ i, i) (λ _ _ _, inl "timeout"%string) fuel
        (Some "nowhere.invalid"%string) 7 (mk_dns_state ∅ 0 [])
      = None.
Proof.
  split; [intros i ns; by eexists|]. split; [exact round_robin_fair|].
  intros fuel.
  destruct (resolve_domain _ _ fuel _ 7 _) as [r|] eqn:Hrun; [|done].
  apply resolve_domain_returns_bound in Hrun.
  - cbn [blacklist] in Hrun. rewrite size_empty in Hrun. lia.
  - intros i ns. by eexists.
  - cbn [blacklist]. apply empty_subseteq.
Qed.

(** Once the default blacklist covers the pool, no call returns. *)
Lemma select_server_exhausted rand fuel (bl : gset string) : ∀ p,
  pool_set ⊆ bl → select_server rand fuel bl p = None.
Proof.
  induction fuel as [|f IH]; intros p Hsub; simpl; [done|].
  rewrite decide_True; [by apply IH|].
  apply Hsub, elem_of_pool_set, random_choice_in_pool.
Qed.

Lemma poisoned_pool_hangs rand resolve fuel domain num_retries process :
  pool_set ⊆ blacklist process →
  resolve_domain_default rand resolve fuel domain num_retries process = None.
Proof.
  intros Hsub. unfold resolve_domain_default.
  destruct num_retries; simpl; by rewrite select_server_exhausted.
Qed.

(** C2 fails on the code: after a first call whose retry chain blacklisted
    8.8.8.8, the blacklist of the process still holds 8.8.8.8; the second
    top-level call is made against that blacklist, rejects 8.8.8.8 and goes
    to 9.9.9.9, where a call that started from an empty blacklist selects
    8.8.8.8. *)
Lemma default_blacklist_is_shared :
  let p1 :=
    mk_dns_state {[ "8.8.8.8"%string ]} 2
      [ ("8.8.8.8"%string, ∅); ("8.8.4.4"%string, {[ "8.8.8.8"%string ]}) ] in
  resolve_domain_default rand_ex resolve_ex 2 (Some "bad.invalid"%string) 1
    fresh_process
  = Some (false, "The DNS query name does not exist."%string, p1)
  ∧ blacklist p1 ≠ ∅
  ∧ resolve_domain_default rand_ex resolve_ex 2 (Some "good.example"%string) 0 p1
    = Some (true, "93.184.216.34"%string,
            mk_dns_state {[ "8.8.8.8"%string ]} 4
              (selections p1 ++ [ ("9.9.9.9"%string, {[ "8.8.8.8"%string ]}) ]))
  ∧ resolve_domain_fresh_blacklist rand_ex resolve_ex 2
      (Some "good.example"%string) 0 p1
    = Some (true, "93.184.216.34"%string,
            mk_dns_state {[ "8.8.8.8"%string ]} 3
              (selections p1 ++ [ ("8.8.8.8"%string, ∅) ])).
Proof.
  intros p1. split; [by vm_compute|]. split; [|split; by vm_compute].
  subst p1. cbn [blacklist]. apply non_empty_singleton_L.
Qed.

(** With a budget of six retries, one failing call leaves six servers on the
    default blacklist, and the next call for a failing domain blacklists the
    seventh and never returns; after that no call returns. *)
Lemma default_blacklist_exhausts_pool :
  ∃ p1,
    resolve_domain_default (λ i, i) (λ _ _ _, inl "timeout"%string) 1
      (Some "bad.invalid"%string) 6 fresh_process
    = Some (false, "timeout"%string, p1)
    ∧ size (blacklist p1) = 6
    ∧ ∀ fuel,
        resolve_domain_default (λ i, i) (λ _ _ _, inl "timeout"%string) fuel
          (Some "other.invalid"%string) 6 p1
        = None.
Proof.
  assert (∃ p1,
    resolve_domain_default (λ i, i) (λ _ _ _, inl "timeout"%string) 1
      (Some "bad.invalid"%string) 6 fresh_process
    = Some (false, "timeout"%string, p1)
    ∧ size (blacklist p1) = 6) as (p1 & H1 & Hsz)
    by (eexists; split; by vm_compute).
  exists p1. split; [done|]. split; [done|].
  intros fuel. unfold resolve_domain_default in *.
  destruct (resolve_domain _ _ fuel _ 6 p1) as [r2|] eqn:Hrun; [|done].
  apply resolve_domain_returns_bound in Hrun.
  - rewrite Hsz in Hrun. lia.
  - intros i ns. by eexists.
  - apply resolve_domain_blacklist_in_pool in H1; [done|].
    cbn [fresh_process blacklist]. apply empty_subseteq.
Qed.

Example parse_dns_error_ex1 :
  parse_dns_error "The DNS query name does not exist: nowhere.invalid."
  = "The DNS query name does not exist."%string.
Proof. reflexivity. Qed.

Example parse_dns_error_ex2 :
  parse_dns_error "The resolution lifetime expired" = "The resolution lifetime expired"%string.
Proof. reflexivity. Qed.

Example resolve_domain_ex :
  resolve_domain (λ i, i) (λ _ _ _, inl "timeout"%string) 1
    (Some "nowhere.invalid"%string) 2 (mk_dns_state ∅ 0 [])
  = Some (false, "timeout"%string,
          mk_dns_state {[ "8.8.8.8"%string; "8.8.4.4"%string ]} 3
            [ ("8.8.8.8"%string, ∅);
              ("8.8.4.4"%string, {[ "8.8.8.8"%string ]});
              ("1.1.1.1"%string, {[ "8.8.4.4"%string; "8.8.8.8"%string ]}) ]).
Proof. by vm_compute. Qed.

End Dns.

(** ** One download attempt: [download_image] *)

Module Fetch.

Definition bytes : Type := list Byte.byte.

(** The resolver object handed to the workers: what [resolver.resolve]
    answers on the [i]-th lookup through a nameserver, and what its cache
    reports when the shard is over (the number of entries, the hits, the
    misses), or the exception raised while reading them. *)
Record Resolver : Type := mk_resolver {
  lookup : nat -> string -> option string -> string + string;
  cache_figures : string + (Z * Z * Z)
}.

(** [urllib.request.Request(url, data=None, headers=...)]; a header value is
    whatever Python object was passed, [None] included. *)
Record request : Type := mk_request {
  full_url : string;
  headers : list (string * option string)
}.

Record response : Type := mk_response {
  resp_headers : list (string * string);
  body : string + bytes            (* [r.read()], or the exception it raises *)
}.

(** The process as a download attempt sees it: the state of the resolution
    code (with the default blacklist) and the requests handed to urllib. *)
Record world : Type := mk_world {
  dns : Dns.dns_state;
  requests : list request
}.

(** (key, img_stream, error_message) *)
Definition outcome : Type := Z * option bytes * option string.

Definition unbound_local (name : string) : string :=
  ("cannot access local variable '" ++ name
   ++ "' where it is not associated with a value")%string.

(** [str(x)] inside an f-string, for a value that is a string or [None]. *)
Definition py_str (o : option string) : string :=
  match o with Some s => s | None => "None"%string end.

Definition non_empty (s : string) : bool :=
  match s with EmptyString => false | _ => true end.

(** [s.replace(old, new)]: every occurrence, left to right, without overlap;
    [skip] counts the characters of a match still to be dropped. *)
Fixpoint replace_from (old new s : string) (skip : nat) : string :=
  match s with
  | EmptyString => if non_empty old then EmptyString else new
  | String c rest =>
      match skip with
      | S k => replace_from old new rest k
      | O =>
          if String.prefix old s then
            if non_empty old
            then (new ++ replace_from old new rest (String.length old - 1))%string
            else (new ++ String c (replace_from old new rest 0))%string
          else String c (replace_from old new rest 0)
      end
  end.

Definition str_replace (old new s : string) : string := replace_from old new s 0.

Definition user_agent (user_agent_token : option string) : string :=
  let user_agent_string :=
    "Mozilla/5.0 (X11; Ubuntu; Linux x86_64; rv:72.0) Gecko/20100101 Firefox/72.0"%string in
  match user_agent_token with
  | Some token =>
      if non_empty token
      then (user_agent_string ++ " (compatible; " ++ token
            ++ "; +https://github.com/rom1504/img2dataset)")%string
      else user_agent_string
  | None => user_agent_string
  end.

(** A resolver that answers every lookup with one address. *)
Definition resolver_ex (ip : string) : Resolver :=
  mk_resolver (λ _ _ _, inr ip) (inr (0, 0, 0)%Z).

Section Network.
(** [urllib.parse.urlparse(url).hostname]: the exception text, or the
    hostname, which is [None] when the URL has none. *)
Variable urlparse_hostname : string -> string + option string.
(** Building the request and [urllib.request.urlopen(request, timeout)]. *)
Variable urlopen : request -> Z -> string + response.
(** [is_disallowed(headers, user_agent_token, disallowed_header_directives)] *)
Variable is_disallowed :
  list (string * string) -> option string -> gset string -> bool.

Definition robots_disallow (r : response) (user_agent_token : option string)
    (disallowed_header_directives : option (gset string)) : bool :=
  match disallowed_header_directives with
  | Some directives =>
      negb (bool_decide (directives = ∅))
      && is_disallowed (resp_headers r) user_agent_token directives
  | None => false
  end.

(** [download_image(row, timeout, user_agent_token,
    disallowed_header_directives, resolver, dns_num_retries)].  [None]: the
    server selection loop of [resolve_domain] is still running after [fuel]
    draws. *)
Definition download_image (rand : nat -> nat) (fuel : nat) (row : Z * string)
    (timeout : Z) (user_agent_token : option string)
    (disallowed_header_directives : option (gset string))
    (resolver : option Resolver) (dns_num_retries : nat) (w : world)
    : option (outcome * world) :=
  let '(key, url) := row in
  let user_agent_string := user_agent user_agent_token in
  (* try: *)
  let original_url := url in
  (* if resolver is not None: ... -- either an early return, or the local
     [domain] (bound only in this branch) and the rewritten [url] *)
  let resolved
      : option ((outcome + option (option string) * string) * world) :=
    match resolver with
    | None => Some (inr (None, url), w)
    | Some r =>
        match urlparse_hostname url with
        | inl err => Some (inl (key, None, Some err), w)
        | inr domain =>
            match Dns.resolve_domain_default rand (lookup r) fuel domain
                    dns_num_retries (dns w) with
            | None => None
            | Some (success, ip_or_err, dns') =>
                let w' := mk_world dns' (requests w) in
                if negb success then
                  Some (inl (key, None,
                             Some ("DNS resolution failed: " ++ ip_or_err
                                   ++ " for " ++ py_str domain)%string), w')
                else
                  let ip := ip_or_err in
                  if non_empty ip then
                    match domain with
                    | Some d => Some (inr (Some domain, str_replace d ip url), w')
                    | None =>
                        Some (inl (key, None,
                                   Some "replace() argument 1 must be str, not None"%string),
                              w')
                    end
                  else Some (inr (Some domain, url), w')
            end
        end
    end in
  match resolved with
  | None => None
  | Some (inl returned, w1) => Some (returned, w1)
  | Some (inr (domain_binding, url), w1) =>
      (* request = Request(original_url, headers={..., "Host": domain}) *)
      match domain_binding with
      | None => Some ((key, None, Some (unbound_local "domain")), w1)
      | Some domain =>
          let request :=
            mk_request original_url
              [("User-Agent"%string, Some user_agent_string);
               ("Host"%string, domain)] in
          let w2 := mk_world (dns w1) (requests w1 ++ [request]) in
          match urlopen request timeout with
          | inl err => Some ((key, None, Some err), w2)
          | inr r =>
              if robots_disallow r user_agent_token disallowed_header_directives
              then Some ((key, None,
                          Some "Use of image disallowed by X-Robots-Tag directive"%string),
                         w2)
              else
                match body r with
                | inl err => Some ((key, None, Some err), w2)
                | inr data => Some ((key, Some data, None), w2)
                end
          end
      end
  end.

(** The loop of [download_image_with_retry]: [last] is what the previous
    attempt bound to [key, img_stream, err], if there was one. *)
Fixpoint retry_loop (rand : nat -> nat) (fuel : nat) (attempts : nat)
    (last : option outcome) (row : Z * string) (timeout : Z)
    (user_agent_token : option string)
    (disallowed_header_directives : option (gset string))
    (resolver : option Resolver) (dns_num_retries : nat) (w : world)
    : option ((string + outcome) * world) :=
  match attempts with
  | O =>
      match last with
      | Some (key, _, err) => Some (inr (key, None, err), w)
      | None => Some (inl (unbound_local "key"), w)
      end
  | S attempts' =>
      match download_image rand fuel row timeout user_agent_token
              disallowed_header_directives resolver dns_num_retries w with
      | None => None
      | Some ((key, img_stream, err), w') =>
          match img_stream with
          | Some _ => Some (inr (key, img_stream, err), w')
          | None =>
              retry_loop rand fuel attempts' (Some (key, img_stream, err)) row
                timeout user_agent_token disallowed_header_directives resolver
                dns_num_retries w'
          end
      end
  end.

(** [download_image_with_retry]: [range(retries + 1)] attempts. *)
Definition download_image_with_retry (rand : nat -> nat) (fuel : nat)
    (row : Z * string) (timeout : Z) (retries : Z)
    (user_agent_token : option string)
    (disallowed_header_directives : option (gset string))
    (resolver : option Resolver) (dns_num_retries : nat) (w : world)
    : option ((string + outcome) * world) :=
  retry_loop rand fuel (Z.to_nat (retries + 1)) None row timeout user_agent_token
    disallowed_header_directives resolver dns_num_retries w.

(** *** Without a resolver *)

Lemma download_image_no_resolver rand fuel key url timeout user_agent_token
    disallowed_header_directives dns_num_retries w :
  download_image rand fuel (key, url) timeout user_agent_token
    disallowed_header_directives None dns_num_retries w
  = Some ((key, None, Some (unbound_local "domain")), w).
Proof. reflexivity. Qed.

Lemma retry_loop_no_resolver rand fuel key url timeout user_agent_token
    disallowed_header_directives dns_num_retries w :
  ∀ attempts last,
    retry_loop rand fuel (S attempts) last (key, url) timeout user_agent_token
      disallowed_header_directives None dns_num_retries w
    = Some (inr (key, None, Some (unbound_local "domain")), w).
Proof.
  induction attempts as [|n IH]; intros last.
  - reflexivity.
  - change (retry_loop rand fuel (S (S n)) last (key, url) timeout user_agent_token
              disallowed_header_directives None dns_num_retries w)
      with (retry_loop rand fuel (S n)
              (Some (key, None, Some (unbound_local "domain"))) (key, url) timeout
              user_agent_token disallowed_header_directives None dns_num_retries w).
    apply IH.
Qed.

Lemma download_image_with_retry_no_resolver rand fuel key url timeout retries
    user_agent_token disallowed_header_directives dns_num_retries w :
  (0 <= retries)%Z →
  download_image_with_retry rand fuel (key, url) timeout retries user_agent_token
    disallowed_header_directives None dns_num_retries w
  = Some (inr (key, None, Some (unbound_local "domain")), w).
Proof.
  intros Hr. unfold download_image_with_retry.
  replace (Z.to_nat (retries + 1)) with (S (Z.to_nat retries)) by lia.
  apply retry_loop_no_resolver.
Qed.

(** C10: for a row whose URL has a hostname, two attempts whose resolutions
    both succeed hand urllib the same request, for the original URL with the
    hostname in the [Host] header, and return the same outcome, whatever the
    two resolved addresses, generators, retry chains and earlier states
    are: the address that was resolved is read nowhere after the test that
    the resolution succeeded. *)
Theorem resolved_ip_is_unused
    (rand1 rand2 : nat -> nat) (fuel1 fuel2 : nat) (key : Z) (url : string)
    (timeout : Z) (user_agent_token : option string)
    (disallowed_header_directives : option (gset string))
    (r1 r2 : Resolver) (n1 n2 : nat) (w1 w2 : world)
    (domain ip1 ip2 : string) (d1 d2 : Dns.dns_state) :
  urlparse_hostname url = inr (Some domain) →
  Dns.resolve_domain_default rand1 (lookup r1) fuel1 (Some domain) n1 (dns w1)
    = Some (true, ip1, d1) →
  Dns.resolve_domain_default rand2 (lookup r2) fuel2 (Some domain) n2 (dns w2)
    = Some (true, ip2, d2) →
  let request :=
    mk_request url [("User-Agent"%string, Some (user_agent user_agent_token));
                    ("Host"%string, Some domain)] in
  ∃ out,
    download_image rand1 fuel1 (key, url) timeout user_agent_token
      disallowed_header_directives (Some r1) n1 w1
    = Some (out, mk_world d1 (requests w1 ++ [request]))
    ∧ download_image rand2 fuel2 (key, url) timeout user_agent_token
        disallowed_header_directives (Some r2) n2 w2
      = Some (out, mk_world d2 (requests w2 ++ [request])).
Proof.
  intros Hhost Hres1 Hres2 request. unfold download_image.
  rewrite Hhost, Hres1, Hres2. cbn [negb].
  destruct (non_empty ip1), (non_empty ip2); cbn [dns requests]; fold request;
    (destruct (urlopen request timeout) as [err|r];
     [by eexists
     |destruct (robots_disallow r user_agent_token disallowed_header_directives);
      [by eexists | destruct (body r); by eexists]]).
Qed.

End Network.

Lemma resolved_ip_is_unused_witness :
  ∃ out,
    download_image (λ _, inr (Some "good.example"%string))
      (λ _ _, inr (mk_response [] (inr [Byte.x89])))
      (λ _ _ _, false) (λ i, i) 1 (7%Z, "http://good.example/a.png"%string) 10%Z
      None None (Some (resolver_ex "93.184.216.34")) 0
      (mk_world Dns.fresh_process [])
    = Some (out,
            mk_world (Dns.mk_dns_state ∅ 1 [("8.8.8.8"%string, ∅)])
              [mk_request "http://good.example/a.png"
                 [("User-Agent"%string, Some (user_agent None));
                  ("Host"%string, Some "good.example"%string)]])
    ∧ download_image (λ _, inr (Some "good.example"%string))
        (λ _ _, inr (mk_response [] (inr [Byte.x89])))
        (λ _ _ _, false) (λ i, i) 1 (7%Z, "http://good.example/a.png"%string) 10%Z
        None None (Some (resolver_ex "10.0.0.1")) 0
        (mk_world Dns.fresh_process [])
      = Some (out,
              mk_world (Dns.mk_dns_state ∅ 1 [("8.8.8.8"%string, ∅)])
                [mk_request "http://good.example/a.png"
                   [("User-Agent"%string, Some (user_agent None));
                    ("Host"%string, Some "good.example"%string)]]).
Proof.
  apply (resolved_ip_is_unused (λ _, inr (Some "good.example"%string))
           (λ _ _, inr (mk_response [] (inr [Byte.x89]))) (λ _ _ _, false)
           (λ i, i) (λ i, i) 1 1 7%Z "http://good.example/a.png" 10%Z None None
           (resolver_ex "93.184.216.34") (resolver_ex "10.0.0.1") 0 0
           (mk_world Dns.fresh_process []) (mk_world Dns.fresh_process [])
           "good.example" "93.184.216.34" "10.0.0.1");
    reflexivity.
Defined.

Example str_replace_ex :
  str_replace "a.example" "10.0.0.1" "http://a.example/x?u=a.example"
  = "http://10.0.0.1/x?u=10.0.0.1"%string.
Proof. reflexivity. Qed.

End Fetch.

(** ** The per-shard engine: [Downloader] *)

Module Shard.
Import Exc.
Local Open Scope exc_scope.

Definition bytes : Type := Fetch.bytes.

(** A value of a column, or of a field of the metadata record. *)
Inductive pyval : Type :=
| PNone
| PStr (s : string)
| PInt (z : Z).

Global Instance pyval_eq_dec : EqDecision pyval.
Proof. solve_decision. Defined.

(** What the post-processing of the items does to the outside, in order. *)
Inductive event : Type :=
| EIncrement (label : string)                       (* status_dict.increment *)
| EWrite (img : option bytes) (str_key : string)
         (caption : pyval) (meta : gmap string pyval) (* sample_writer.write *)
| ERelease                                          (* semaphore.release() *)
| EPrint (text : string).

Record loop_state : Type := mk_loop {
  trace : list event;
  successes : Z;
  failed_to_download : Z;
  failed_to_resize : Z
}.

(** What the collaborators answer while one item is post-processed; [Some e]
    and [inl e] stand for a call that raises [e]. *)
Record item_oracle : Type := mk_oracle {
  increment_fault : option string;
  write_fault : option string;
  digest : string + string;        (* hexdigest under [verify_hash_type] *)
  resized : string + (bytes * Z * Z * Z * Z * option string);
  exif : string + string;
  computed_hash : string + string  (* hexdigest under [compute_hash] *)
}.

Record Downloader : Type := mk_downloader {
  thread_count : nat;
  extract_exif : bool;
  column_list : list string;
  oom_shard_count : nat;
  compute_hash : option string;
  verify_hash_type : option string;
  blurring_bbox_col : option string;
  use_public_dns : bool;
  resolver : option Fetch.Resolver
}.

(** The column positions computed before the loop. *)
Record indices : Type := mk_indices {
  url_indice : nat;
  caption_indice : option nat;
  hash_indice : option nat;
  bbox_indice : option nat
}.

Inductive control : Type := Fallthrough | Continue.

Definition emit (e : event) : M loop_state unit :=
  modify (fun st =>
    mk_loop (trace st ++ [e]) (successes st) (failed_to_download st)
      (failed_to_resize st)).

Definition release : M loop_state unit := emit ERelease.

Definition increment (o : item_oracle) (label : string) : M loop_state unit :=
  match increment_fault o with
  | Some e => raise e
  | None => emit (EIncrement label)
  end.

Definition write (o : item_oracle) (img : option bytes) (str_key : string)
    (caption : pyval) (meta : gmap string pyval) : M loop_state unit :=
  match write_fault o with
  | Some e => raise e
  | None => emit (EWrite img str_key caption meta)
  end.

Definition lift {S A} (r : string + A) : M S A :=
  match r with inl e => raise e | inr a => ret a end.

(** [l[i]] for a Python integer: negative positions count from the end. *)
Definition py_index {S A} (l : list A) (i : Z) : M S A :=
  let j := if (i <? 0)%Z then (i + Z.of_nat (length l))%Z else i in
  if (j <? 0)%Z then raise "list index out of range"
  else match l !! Z.to_nat j with
       | Some x => ret x
       | None => raise "list index out of range"
       end.

Definition item_at {S} (sample_data : list pyval) (i : nat) : M S pyval :=
  py_index sample_data (Z.of_nat i).

(** [sample_data[caption_indice] if caption_indice is not None else None] *)
Definition caption_of {S} (idx : indices) (sample_data : list pyval)
    : M S pyval :=
  match caption_indice idx with
  | Some i => item_at sample_data i
  | None => ret PNone
  end.

(** [dict] with the pairs of [l] inserted from left to right. *)
Definition dict_of (l : list (string * pyval)) : gmap string pyval :=
  fold_left (fun m kv => <[kv.1 := kv.2]> m) l ∅.

Definition opt_str (o : option string) : pyval :=
  match o with Some s => PStr s | None => PNone end.

(** The metadata record as first built; a row has one value per column. *)
Definition init_meta (self : Downloader) (idx : indices)
    (sample_data : list pyval) (str_key : string)
    (error_message : option string) : gmap string pyval :=
  let columns :=
    dict_of
      (omap (fun '(i, kv) =>
               if bool_decide (hash_indice idx = Some i) then None else Some kv)
            (imap (fun i kv => (i, kv)) (zip (column_list self) sample_data))) in
  let meta :=
    <["original_height"%string := PNone]>
      (<["original_width"%string := PNone]>
         (<["height"%string := PNone]>
            (<["width"%string := PNone]>
               (<["error_message"%string := opt_str error_message]>
                  (<["status"%string := PNone]>
                     (<["key"%string := PStr str_key]> columns)))))) in
  let meta := if extract_exif self then <["exif"%string := PNone]> meta else meta in
  match compute_hash self with
  | Some name => <[name := PNone]> meta
  | None => meta
  end.

Definition add_successes : M loop_state unit :=
  modify (fun st => mk_loop (trace st) (successes st + 1) (failed_to_download st)
                      (failed_to_resize st)).
Definition add_failed_to_download : M loop_state unit :=
  modify (fun st => mk_loop (trace st) (successes st) (failed_to_download st + 1)
                      (failed_to_resize st)).
Definition add_failed_to_resize : M loop_state unit :=
  modify (fun st => mk_loop (trace st) (successes st) (failed_to_download st)
                      (failed_to_resize st + 1)).

(** The body of the [try] of the main loop, for one result of the pool. *)
Definition try_body (self : Downloader) (shard_id : Z)
    (oom_sample_per_shard : nat) (shard_to_dl : list (list pyval))
    (idx : indices) (o : item_oracle) (result : Fetch.outcome)
    : M loop_state control :=
  let '(key, img_stream, error_message) := result in
  sample_data <- py_index shard_to_dl key ;;
  let str_key :=
    Key.compute_key key shard_id oom_sample_per_shard (oom_shard_count self) in
  let meta := init_meta self idx sample_data str_key error_message in
  match error_message with
  | Some msg =>
      add_failed_to_download ;;
      increment o msg ;;
      let meta := <["status"%string := PStr "failed_to_download"]> meta in
      caption <- caption_of idx sample_data ;;
      write o None str_key caption meta ;;
      release ;;
      ret Continue
  | None =>
      (* img_stream.seek(0): an absent stream has no such method *)
      _ <- match img_stream with
           | Some data => ret data
           | None => raise "'NoneType' object has no attribute 'seek'"
           end ;;
      mismatch <-
        match hash_indice idx with
        | Some h =>
            test_hash <- lift (digest o) ;;
            expected <- item_at sample_data h ;;
            ret (bool_decide (PStr test_hash ≠ expected))
        | None => ret false
        end ;;
      if mismatch : bool then
        add_failed_to_download ;;
        increment o "hash mismatch" ;;
        let meta :=
          <["error_message"%string := PStr "hash mismatch"]>
            (<["status"%string := PStr "failed_to_download"]> meta) in
        caption <- caption_of idx sample_data ;;
        write o None str_key caption meta ;;
        release ;;
        ret Continue
      else
        _ <- match bbox_indice idx with
             | Some b => item_at sample_data b
             | None => ret PNone
             end ;;
        res <- lift (resized o) ;;
        let '(img, width, height, original_width, original_height, error_message) := res in
        match error_message with
        | Some msg =>
            add_failed_to_resize ;;
            increment o msg ;;
            let meta :=
              <["error_message"%string := PStr msg]>
                (<["status"%string := PStr "failed_to_resize"]> meta) in
            caption <- caption_of idx sample_data ;;
            write o None str_key caption meta ;;
            release ;;
            ret Continue
        | None =>
            add_successes ;;
            increment o "success" ;;
            let meta :=
              if extract_exif self then
                <["exif"%string :=
                    match exif o with inr s => PStr s | inl _ => PNone end]> meta
              else meta in
            meta <- match compute_hash self with
                    | Some name =>
                        h <- lift (computed_hash o) ;;
                        ret (<[name := PStr h]> meta)
                    | None => ret meta
                    end ;;
            let meta :=
              <["original_height"%string := PInt original_height]>
                (<["original_width"%string := PInt original_width]>
                   (<["height"%string := PInt height]>
                      (<["width"%string := PInt width]>
                         (<["status"%string := PStr "success"]> meta)))) in
            caption <- caption_of idx sample_data ;;
            write o (Some img) str_key caption meta ;;
            ret Fallthrough
        end
  end.

(** One turn of the main loop: the [try], its [except Exception], and the
    [semaphore.release()] that follows them and that [continue] skips. *)
Definition iteration (self : Downloader) (shard_id : Z)
    (oom_sample_per_shard : nat) (shard_to_dl : list (list pyval))
    (idx : indices) (o : item_oracle) (result : Fetch.outcome)
    : M loop_state unit :=
  c <- try_except
         (try_body self shard_id oom_sample_per_shard shard_to_dl idx o result)
         (fun err =>
            emit (EPrint ("Sample " ++ Key.str_int result.1.1
                          ++ " failed to download: " ++ err)%string) ;;
            ret Fallthrough) ;;
  match c with
  | Continue => ret tt
  | Fallthrough => release
  end.

Definition is_release (e : event) : bool :=
  match e with ERelease => true | _ => false end.

Definition count_release (l : list event) : nat :=
  length (filter (fun e => is_release e = true) l).

(** *** The semaphore, the generator and the pool

    [semaphore = Semaphore(self.thread_count * 2)]; the generator acquires a
    unit, then yields the next row; the pool hands the rows to the workers
    and their results come back in any order; each result goes through one
    turn of the main loop. *)

Record pipeline : Type := mk_pipeline {
  permits : nat;                  (* the value of the semaphore *)
  todo : list (Z * pyval);        (* rows the generator has not yielded *)
  holding : bool;                 (* a unit is acquired, the row not yet yielded *)
  in_flight : list (Z * pyval);   (* yielded, not yet through its loop turn *)
  p_loop : loop_state
}.

Inductive action : Type :=
| Acquire                         (* semaphore.acquire() returns *)
| Yield                           (* yield e *)
| Finish (i : nat) (o : item_oracle)
         (img_stream : option bytes) (error_message : option string).
                                  (* the [i]-th row in flight comes out of the
                                     pool and goes through the loop body *)

Section Pipeline.
Variable self : Downloader.
Variable shard_id : Z.
Variable oom_sample_per_shard : nat.
Variable shard_to_dl : list (list pyval).
Variable idx : indices.

(** [None]: the action cannot happen in this state (the generator is
    blocked in [acquire], or there is nothing to yield or to finish). *)
Definition step (a : action) (p : pipeline) : option pipeline :=
  match a with
  | Acquire =>
      if holding p then None
      else match todo p, permits p with
           | _ :: _, S n =>
               Some (mk_pipeline n (todo p) true (in_flight p) (p_loop p))
           | _, _ => None
           end
  | Yield =>
      if holding p then
        match todo p with
        | e :: rest =>
            Some (mk_pipeline (permits p) rest false (in_flight p ++ [e]) (p_loop p))
        | [] => None
        end
      else None
  | Finish i o img_stream error_message =>
      match in_flight p !! i with
      | Some e =>
          let loop' :=
            (iteration self shard_id oom_sample_per_shard shard_to_dl idx o
               (e.1, img_stream, error_message) (p_loop p)).2 in
          let released :=
            count_release (trace loop') - count_release (trace (p_loop p)) in
          Some (mk_pipeline (permits p + released) (todo p) (holding p)
                  (delete i (in_flight p)) loop')
      | None => None
      end
  end.

Fixpoint run (schedule : list action) (p : pipeline) : option pipeline :=
  match schedule with
  | [] => Some p
  | a :: schedule' =>
      match step a p with
      | Some p' => run schedule' p'
      | None => None
      end
  end.

Definition start (key_url_list : list (Z * pyval)) : pipeline :=
  mk_pipeline (thread_count self * 2) key_url_list false [] (mk_loop [] 0 0 0).

(** The units of the semaphore are either free, or held by the generator,
    or attached to a row in flight. *)
Definition balanced (p : pipeline) : Prop :=
  permits p + (if holding p then 1 else 0) + length (in_flight p)
  = thread_count self * 2.

End Pipeline.

(** *** The shard as a whole: [download_shard] and [__call__] *)

(** The arguments of [write_stats], the two clock readings apart. *)
Record stats : Type := mk_stats {
  s_shard_id : Z;
  s_count : Z;
  s_successes : Z;
  s_failed_to_download : Z;
  s_failed_to_resize : Z;
  s_oom_shard_count : nat;
  dns_cache_hits : Z;
  dns_cache_misses : Z;
  dns_cache_size : Z
}.

(** What one call of [download_shard] can leave behind. *)
Record shard_state : Type := mk_shard {
  loop : loop_state;
  closed : bool;              (* sample_writer.close() returned *)
  report : option stats;      (* write_stats was called with these *)
  removed : bool              (* fs.rm(shard_path) returned *)
}.

(** What the collaborators answer during one shard. *)
Record shard_env : Type := mk_env {
  (* opening and reading the shard file, down to [shard_to_dl] *)
  read_shard : string -> string + list (list pyval);
  writer_fault : option string;        (* building the sample writer *)
  (* [math.ceil(math.log10(self.number_sample_per_shard))], a floating
     point computation, taken as given *)
  oom_per_shard : string + nat;
  setup_resolver : Fetch.Resolver;     (* what [_setup_dns_resolver] builds *)
  (* what [imap_unordered] yields, in the order the downloads finish: the
     result of the worker, or the exception it raised, and the answers of
     the collaborators during its loop turn *)
  arrivals : list ((string + Fetch.outcome) * item_oracle);
  close_fault : option string;
  stats_fault : option string;
  rm_fault : option string
}.

Fixpoint list_index (x : string) (l : list string) : option nat :=
  match l with
  | [] => None
  | y :: l' => if decide (y = x) then Some 0 else S <$> list_index x l'
  end.

(** [l.index(x)] *)
Definition index_of {S} (x : string) (l : list string) : M S nat :=
  match list_index x l with
  | Some i => ret i
  | None => raise ("'" ++ x ++ "' is not in list")%string
  end.

Definition fault {S} (f : option string) : M S unit :=
  match f with Some e => raise e | None => ret tt end.

Definition on_loop {A} (m : M loop_state A) : M shard_state A :=
  zoom loop (fun l st => mk_shard l (closed st) (report st) (removed st)) m.

(** The [for] statement over the results of the pool: an exception raised
    by a worker comes out of the iterator, outside the [try].  Here it goes
    on to the caller; when leaving the pool lets it do so is the matter of
    [Pool] below. *)
Fixpoint main_loop (self : Downloader) (shard_id : Z)
    (oom_sample_per_shard : nat) (shard_to_dl : list (list pyval))
    (idx : indices) (results : list ((string + Fetch.outcome) * item_oracle))
    : M loop_state unit :=
  match results with
  | [] => ret tt
  | (inl e, _) :: _ => raise e
  | (inr result, o) :: rest =>
      iteration self shard_id oom_sample_per_shard shard_to_dl idx o result ;;
      main_loop self shard_id oom_sample_per_shard shard_to_dl idx rest
  end.

(** [self.resolver] once the pool is up. *)
Definition resolver_in_use (self : Downloader) (env : shard_env)
    : option Fetch.Resolver :=
  match resolver self with
  | Some r => Some r
  | None => if use_public_dns self then Some (setup_resolver env) else None
  end.

Definition download_shard (self : Downloader) (env : shard_env)
    (row : Z * string) : M shard_state unit :=
  let '(shard_id, shard_file) := row in
  shard_to_dl <- lift (read_shard env shard_file) ;;
  let count := Z.of_nat (length shard_to_dl) in
  url_indice <- index_of "url" (column_list self) ;;
  let caption_indice := list_index "caption" (column_list self) in
  let hash_indice :=
    match verify_hash_type self with
    | Some h => list_index h (column_list self)
    | None => None
    end in
  bbox_indice <-
    match blurring_bbox_col self with
    | Some c => i <- index_of c (column_list self) ;; ret (Some i)
    | None => ret None
    end ;;
  let idx := mk_indices url_indice caption_indice hash_indice bbox_indice in
  fault (writer_fault env) ;;
  oom_sample_per_shard <- lift (oom_per_shard env) ;;
  (* with ThreadPool(self.thread_count) *)
  (if decide (thread_count self = 0)
   then raise "Number of processes must be at least 1" else ret tt) ;;
  on_loop (main_loop self shard_id oom_sample_per_shard shard_to_dl idx
             (arrivals env)) ;;
  fault (close_fault env) ;;
  modify (fun st => mk_shard (loop st) true (report st) (removed st)) ;;
  (* dns_cache_misses = count; dns_cache_hits = 0; dns_cache_size = 0 *)
  figures <-
    match resolver_in_use self env with
    | Some r =>
        cache_stats <- lift (Fetch.cache_figures r) ;;
        let '(size, hits, misses) := cache_stats in
        ret (hits, misses, size)
    | None => ret (0%Z, count, 0%Z)
    end ;;
  let '(hits, misses, size) := figures in
  fault (stats_fault env) ;;
  modify (fun st =>
    mk_shard (loop st) (closed st)
      (Some (mk_stats shard_id count (successes (loop st))
               (failed_to_download (loop st)) (failed_to_resize (loop st))
               (oom_shard_count self) hits misses size))
      (removed st)) ;;
  fault (rm_fault env) ;;
  modify (fun st => mk_shard (loop st) (closed st) (report st) true).

(** [Downloader.__call__] *)
Definition Downloader_call (self : Downloader) (env : shard_env)
    (row : Z * string) (st : shard_state) : (bool * (Z * string)) * shard_state :=
  match download_shard self env row st with
  | (inr _, st') => ((true, row), st')
  | (inl err, st') =>
      ((false, row),
       (on_loop (emit (EPrint ("shard " ++ Key.str_int row.1
                               ++ " failed with error " ++ err)%string)) st').2)
  end.

Definition fresh_shard : shard_state :=
  mk_shard (mk_loop [] 0 0 0) false None false.

(** *** A small shard to run the definitions on *)

(** A shard of three rows on one thread. *)
Definition self_ex : Downloader :=
  mk_downloader 1 false ["url"%string] 5 None None None false None.

Definition idx_ex : indices := mk_indices 0 None None None.

Definition rows_ex : list (list pyval) :=
  [ [PStr "http://a.invalid/0.png"]; [PStr "http://a.invalid/1.png"];
    [PStr "http://a.invalid/2.png"] ].

Definition key_url_list_ex : list (Z * pyval) :=
  [ (0%Z, PStr "http://a.invalid/0.png"); (1%Z, PStr "http://a.invalid/1.png");
    (2%Z, PStr "http://a.invalid/2.png") ].

(** The writer refuses every record. *)
Definition oracle_ex : item_oracle :=
  mk_oracle None (Some "disk full"%string) (inr EmptyString)
    (inl "cannot identify image file"%string) (inl EmptyString) (inr EmptyString).


Definition env_ex : shard_env :=
  mk_env (λ _, inr rows_ex) None (inr 4) (Fetch.resolver_ex "0.0.0.0") 
    [ (inr (1%Z, None, Some "timed out"%string), oracle_ex);
      (inr (0%Z, Some [Byte.x89], None), oracle_ex);
      (inr (2%Z, None, Some "timed out"%string), oracle_ex) ]
    None None None.

(** *** Every turn of the loop gives its unit back, once *)

Lemma count_release_snoc (l : list event) (e : event) :
  count_release (l ++ [e])
  = count_release l + (if is_release e then 1 else 0).
Proof.
  unfold count_release. rewrite filter_app, length_app.
  destruct e; reflexivity.
Qed.

(** A computation that leaves the number of released units as it is. *)
Definition quiet {A} (m : M loop_state A) : Prop :=
  ∀ st, count_release (trace (m st).2) = count_release (trace st).

(** A [try] body: it releases one unit exactly when it ends in [continue]. *)
Definition body_ok (m : M loop_state control) : Prop :=
  ∀ st,
    count_release (trace (m st).2)
    = count_release (trace st)
      + match (m st).1 with inr Continue => 1 | _ => 0 end.

Lemma quiet_ret {A} (a : A) : quiet (ret a).
Proof. intros st. reflexivity. Qed.

Lemma quiet_raise {A} (e : string) : quiet (raise (A := A) e).
Proof. intros st. reflexivity. Qed.

Lemma quiet_lift {A} (r : string + A) : quiet (lift r).
Proof. destruct r; [apply quiet_raise | apply quiet_ret]. Qed.

Lemma quiet_emit (e : event) : is_release e = false → quiet (emit e).
Proof.
  intros He st. unfold emit, modify. cbn [snd trace].
  rewrite count_release_snoc, He. lia.
Qed.

Lemma quiet_increment o label : quiet (increment o label).
Proof.
  unfold increment. destruct (increment_fault o);
    [apply quiet_raise | by apply quiet_emit].
Qed.

Lemma quiet_write o img str_key caption meta :
  quiet (write o img str_key caption meta).
Proof.
  unfold write. destruct (write_fault o);
    [apply quiet_raise | by apply quiet_emit].
Qed.

Lemma quiet_py_index {A} (l : list A) i : quiet (py_index l i).
Proof.
  unfold py_index. destruct (_ <? 0)%Z; [apply quiet_raise|].
  destruct (l !! _); [apply quiet_ret | apply quiet_raise].
Qed.

Lemma quiet_item_at sample_data i : quiet (item_at sample_data i).
Proof. apply quiet_py_index. Qed.

Lemma quiet_caption_of idx sample_data : quiet (caption_of idx sample_data).
Proof.
  unfold caption_of. destruct (caption_indice idx);
    [apply quiet_item_at | apply quiet_ret].
Qed.

Lemma quiet_add_successes : quiet add_successes.
Proof. intros st. reflexivity. Qed.

Lemma quiet_add_failed_to_download : quiet add_failed_to_download.
Proof. intros st. reflexivity. Qed.

Lemma quiet_add_failed_to_resize : quiet add_failed_to_resize.
Proof. intros st. reflexivity. Qed.

Lemma quiet_bind {A B} (m : M loop_state A) (k : A → M loop_state B) :
  quiet m → (∀ a, quiet (k a)) → quiet (bind m k).
Proof.
  intros Hm Hk st. unfold bind. specialize (Hm st).
  destruct (m st) as [[e|a] st1]; cbn [snd] in *; [done|].
  by rewrite Hk.
Qed.

Lemma body_ok_bind {A} (m : M loop_state A) (k : A → M loop_state control) :
  quiet m → (∀ a, body_ok (k a)) → body_ok (bind m k).
Proof.
  intros Hm Hk st. unfold bind. specialize (Hm st).
  destruct (m st) as [[e|a] st1]; cbn [fst snd] in *; [lia|].
  by rewrite Hk, Hm.
Qed.

Lemma body_ok_release_continue : body_ok (release ;; ret Continue).
Proof.
  intros st. unfold release, emit, modify, bind, ret. cbn [fst snd trace].
  by rewrite count_release_snoc.
Qed.

Lemma body_ok_fallthrough : body_ok (ret Fallthrough).
Proof. intros st. cbn. lia. Qed.

Create HintDb quiet.
#[local] Hint Resolve quiet_ret quiet_raise quiet_lift quiet_increment quiet_write
  quiet_py_index quiet_item_at quiet_caption_of quiet_add_successes
  quiet_add_failed_to_download quiet_add_failed_to_resize : quiet.

(** Walk down a chain of binds, leaving the branches of the body. *)
Ltac body_step :=
  first
    [ apply body_ok_release_continue
    | apply body_ok_fallthrough
    | apply body_ok_bind;
      [ repeat first [ progress eauto with quiet
                     | apply quiet_bind; [|intros]
                     | case_match ]
      | intros ] ].

(** Split on the value a branch of the body looks at. *)
Ltac body_case :=
  match goal with
  | |- body_ok (match ?x with _ => _ end) => destruct x
  end.

Lemma try_body_ok (self : Downloader) (shard_id : Z)
    (oom_sample_per_shard : nat) (shard_to_dl : list (list pyval))
    (idx : indices) (o : item_oracle) (result : Fetch.outcome) :
  body_ok (try_body self shard_id oom_sample_per_shard shard_to_dl idx o result).
Proof.
  destruct result as [[key img_stream] error_message]. unfold try_body.
  repeat first [body_step | body_case].
Qed.

Lemma iteration_releases_once (self : Downloader) (shard_id : Z)
    (oom_sample_per_shard : nat) (shard_to_dl : list (list pyval))
    (idx : indices) (o : item_oracle) (result : Fetch.outcome)
    (st : loop_state) :
  ∃ st',
    iteration self shard_id oom_sample_per_shard shard_to_dl idx o result st
    = (inr tt, st')
    ∧ count_release (trace st') = S (count_release (trace st)).
Proof.
  pose proof (try_body_ok self shard_id oom_sample_per_shard shard_to_dl idx o
                result st) as Hbody.
  unfold iteration, try_except, bind.
  destruct (try_body _ _ _ _ _ _ _ st) as [[e|[|]] st1]; cbn [fst snd] in Hbody.
  - eexists. split; [reflexivity|]. cbn [trace].
    rewrite !count_release_snoc. cbn [is_release]. lia.
  - eexists. split; [reflexivity|]. cbn [trace].
    rewrite count_release_snoc. cbn [is_release]. lia.
  - eexists. split; [reflexivity|]. lia.
Qed.

(** *** Backpressure *)

Section PipelineFacts.
Variable self : Downloader.
Variable shard_id : Z.
Variable oom_sample_per_shard : nat.
Variable shard_to_dl : list (list pyval).
Variable idx : indices.

#[local] Abbreviation step :=
  (step self shard_id oom_sample_per_shard shard_to_dl idx).
#[local] Abbreviation run :=
  (run self shard_id oom_sample_per_shard shard_to_dl idx).

Lemma step_finish (p p' : pipeline) i o img_stream error_message :
  step (Finish i o img_stream error_message) p = Some p' →
  permits p' = S (permits p)
  ∧ S (length (in_flight p')) = length (in_flight p)
  ∧ holding p' = holding p ∧ todo p' = todo p.
Proof.
  unfold Shard.step. destruct (in_flight p !! i) as [e|] eqn:Hi; [|done].
  intros [= <-]. cbn [permits in_flight holding todo].
  destruct (iteration_releases_once self shard_id oom_sample_per_shard shard_to_dl
              idx o (e.1, img_stream, error_message) (p_loop p))
    as (st' & -> & Hcount).
  cbn [snd]. rewrite Hcount.
  apply lookup_lt_Some in Hi. rewrite length_delete by eauto using lookup_lt_is_Some_2.
  repeat split; lia.
Qed.

Lemma step_balanced (a : action) (p p' : pipeline) :
  balanced self p → step a p = Some p' → balanced self p'.
Proof.
  unfold balanced. intros Hb Hs. destruct a as [| |i o img_stream error_message].
  - unfold Shard.step in Hs. destruct (holding p) eqn:Hh; [done|].
    destruct (todo p) as [|e rest]; [done|].
    destruct (permits p) as [|n] eqn:Hp; [done|].
    injection Hs as <-. cbn [permits in_flight holding]. lia.
  - unfold Shard.step in Hs. destruct (holding p) eqn:Hh; [|done].
    destruct (todo p) as [|e rest]; [done|].
    injection Hs as <-. cbn [permits in_flight holding].
    rewrite length_app. simpl. lia.
  - apply step_finish in Hs as (Hp & Hl & Hh & _). rewrite Hh, Hp. lia.
Qed.

Lemma run_balanced (schedule : list action) : ∀ p p',
  balanced self p → run schedule p = Some p' → balanced self p'.
Proof.
  induction schedule as [|a schedule IH]; intros p p' Hb Hr; simpl in Hr.
  - by injection Hr as <-.
  - destruct (step a p) as [p1|] eqn:Hs; [|done].
    eapply IH; [|exact Hr]. by eapply step_balanced.
Qed.


End PipelineFacts.


(** *** Exceptions stop at the loop turn, or at the call *)

Lemma main_loop_completes (self : Downloader) (shard_id : Z)
    (oom_sample_per_shard : nat) (shard_to_dl : list (list pyval))
    (idx : indices) (results : list ((string + Fetch.outcome) * item_oracle)) :
  Forall (λ a, ∃ r, a.1 = inr r) results →
  ∀ st, ∃ st',
    main_loop self shard_id oom_sample_per_shard shard_to_dl idx results st
    = (inr tt, st')
    ∧ count_release (trace st') = count_release (trace st) + length results.
Proof.
  induction 1 as [|[w o] results [r Hr] _ IH]; intros st.
  - exists st. split; [reflexivity | simpl; lia].
  - simpl in Hr. subst w. cbn [main_loop]. unfold bind.
    destruct (iteration_releases_once self shard_id oom_sample_per_shard
                shard_to_dl idx o r st) as (st1 & -> & H1).
    destruct (IH st1) as (st' & -> & H').
    exists st'. split; [reflexivity|]. rewrite H', H1. simpl. lia.
Qed.

(** A shard that cannot be read: the call reports [False]. *)
Example call_on_unreadable_shard :
  (Downloader_call self_ex
     (mk_env (λ _, inl "No such file"%string) None (inr 4)
        (Fetch.resolver_ex "0.0.0.0") [] None None None)
     (3%Z, "shard_3.feather"%string) fresh_shard).1
  = (false, (3%Z, "shard_3.feather"%string)).
Proof. reflexivity. Qed.

(** A shard whose writer refuses every record: each item is dropped in its
    own loop turn and the call reports [True]. *)
Example call_on_failing_items :
  (Downloader_call self_ex env_ex (3%Z, "shard_3.feather"%string) fresh_shard).1
  = (true, (3%Z, "shard_3.feather"%string)).
Proof. by vm_compute. Qed.

(** *** The figures handed to the stats collaborator *)

(** C8, as amended: with no resolver on the downloader and public DNS
    switched off, the figures handed to [write_stats] are 0 hits, a cache
    size of 0, and as many misses as the shard has rows; they are handed
    over whenever [download_shard] runs to its end. *)
Theorem dns_figures_without_resolver (self : Downloader) (env : shard_env)
    (row : Z * string) (res : string + unit) (st' : shard_state) :
  resolver self = None → use_public_dns self = false →
  download_shard self env row fresh_shard = (res, st') →
  (res = inr tt → is_Some (report st'))
  ∧ ∀ r, report st' = Some r →
      dns_cache_hits r = 0%Z ∧ dns_cache_size r = 0%Z
      ∧ dns_cache_misses r = s_count r
      ∧ ∃ shard_to_dl, read_shard env row.2 = inr shard_to_dl
                       ∧ s_count r = Z.of_nat (length shard_to_dl).
Proof.
  intros Hres Hdns. destruct row as [shard_id shard_file].
  unfold download_shard, resolver_in_use. rewrite Hres, Hdns.
  unfold bind, lift, index_of, fault, on_loop, zoom, modify, ret, raise.
  cbn [snd].
  destruct (read_shard env shard_file) as [e|shard_to_dl];
    [intros [= <- <-]; split; [done | by intros r [=]]|].
  repeat (case_match; simplify_eq); intros [= <- <-];
    cbn [report fresh_shard];
    (split; [first [done | by eexists]
            | intros r ?; simplify_eq; cbn; repeat split; by eauto]).
Qed.

Lemma dns_figures_without_resolver_witness :
  ∃ st', download_shard self_ex env_ex (3%Z, "shard_3.feather"%string) fresh_shard
         = (inr tt, st')
  ∧ ∀ r, report st' = Some r →
      dns_cache_hits r = 0%Z ∧ dns_cache_size r = 0%Z ∧ dns_cache_misses r = s_count r.
Proof.
  destruct (download_shard self_ex env_ex (3%Z, "shard_3.feather"%string) fresh_shard)
    as [res st'] eqn:Hd.
  assert (res = inr tt) as ->.
  { apply (f_equal fst) in Hd. vm_compute in Hd. by subst res. }
  exists st'. split; [reflexivity|]. intros r Hr.
  destruct (dns_figures_without_resolver self_ex env_ex _ _ _ eq_refl eq_refl Hd)
    as [_ H].
  destruct (H r Hr) as (? & ? & ? & _). done.
Defined.

(** C8, as stated, fails on a shard of three rows processed without a
    resolver: the stats collaborator is handed 3 misses, not zero. *)
Lemma dns_misses_without_resolver :
  resolver self_ex = None ∧ use_public_dns self_ex = false
  ∧ ∃ r,
      report (download_shard self_ex env_ex (3%Z, "shard_3.feather"%string)
                fresh_shard).2 = Some r
      ∧ dns_cache_hits r = 0%Z
      ∧ dns_cache_misses r = 3%Z
      ∧ dns_cache_misses r ≠ 0%Z.
Proof.
  split; [reflexivity|]. split; [reflexivity|].
  eexists. split; [by vm_compute|]. by cbn.
Qed.

(** *** Without a resolver nothing is downloaded *)

(** C9: with [resolver = None] an attempt returns no payload and the error
    text of the unbound local [domain], without handing any request to
    urllib, for every row; so does [download_image_with_retry] for any
    non-negative number of retries; and the loop turn of a result that
    carries an error message adds no success and writes, if it writes, a
    record without image and with status [failed_to_download]. *)
Theorem no_download_without_resolver :
  (∀ urlparse_hostname urlopen is_disallowed rand fuel key url timeout
     user_agent_token disallowed_header_directives dns_num_retries w,
     Fetch.download_image urlparse_hostname urlopen is_disallowed rand fuel
       (key, url) timeout user_agent_token disallowed_header_directives None
       dns_num_retries w
     = Some ((key, None, Some (Fetch.unbound_local "domain")), w))
  ∧ (∀ urlparse_hostname urlopen is_disallowed rand fuel key url timeout retries
       user_agent_token disallowed_header_directives dns_num_retries w,
       (0 <= retries)%Z →
       Fetch.download_image_with_retry urlparse_hostname urlopen is_disallowed
         rand fuel (key, url) timeout retries user_agent_token
         disallowed_header_directives None dns_num_retries w
       = Some (inr (key, None, Some (Fetch.unbound_local "domain")), w))
  ∧ (∀ self shard_id oom_sample_per_shard shard_to_dl idx o key img_stream msg st,
       let st' :=
         (iteration self shard_id oom_sample_per_shard shard_to_dl idx o
            (key, img_stream, Some msg) st).2 in
       successes st' = successes st
       ∧ ∀ image str_key caption meta,
           EWrite image str_key caption meta ∈ trace st' →
           EWrite image str_key caption meta ∈ trace st
           ∨ (image = None
              ∧ meta !! "status"%string = Some (PStr "failed_to_download"))).
Proof.
  split; [|split].
  - intros. apply Fetch.download_image_no_resolver.
  - intros. by apply Fetch.download_image_with_retry_no_resolver.
  - intros self shard_id oom shard_to_dl idx o key img_stream msg st.
    unfold iteration, try_except, try_body, bind, py_index, increment, write,
      caption_of, item_at, py_index, release, emit, add_failed_to_download,
      modify, ret, raise.
    repeat (case_match; simplify_eq); cbn [snd trace successes];
      (split; [reflexivity|]);
      intros image str_key caption meta Hin;
      rewrite ?elem_of_app, ?list_elem_of_singleton in Hin;
      destruct_or?; simplify_eq;
      first [by left | right; split; [reflexivity | apply lookup_insert_eq]].
Qed.

End Shard.

(** ** More on the keys: order and width *)

Module KeyOrder.
Import Key.
Local Open Scope Z_scope.

(** Python compares strings code point by code point, the shorter one first
    when it is a prefix of the other: [String.compare]. *)
Definition key_compare (s t : string) : comparison := String.compare s t.

Lemma ascii_compare_digit_val (c c' : ascii) :
  Ascii.compare c c' = (digit_val c ?= digit_val c').
Proof.
  unfold Ascii.compare, digit_val, nat_of_ascii. rewrite !N_nat_Z.
  unfold Z.sub. rewrite !(Z.add_comm _ (- (48))), Z.add_compare_mono_l.
  symmetry. apply N2Z.inj_compare.
Qed.

Lemma is_digit_val (c : ascii) : is_digit c = true -> 0 <= digit_val c < 10.
Proof.
  unfold is_digit, digit_val. intros H.
  apply andb_true_iff in H as [H1 H2].
  apply Z.leb_le in H1, H2. lia.
Qed.

Lemma value_bound (s : string) :
  all_digits s = true -> 0 <= value s < 10 ^ Z.of_nat (String.length s).
Proof.
  induction s as [|c s IH]; intros H; cbn [value String.length all_digits] in *.
  - simpl. lia.
  - apply andb_true_iff in H as [Hc Hs]. specialize (IH Hs).
    apply is_digit_val in Hc.
    rewrite Nat2Z.inj_succ, Z.pow_succ_r by lia. nia.
Qed.

(** On digit strings of one length the order of the strings is the order of
    the numbers. *)
Lemma compare_digits (s : string) : forall t,
  String.length s = String.length t ->
  all_digits s = true -> all_digits t = true ->
  String.compare s t = (value s ?= value t).
Proof.
  induction s as [|c s IH]; intros [|c' t] Hlen Hs Ht;
    cbn [String.length] in Hlen; try discriminate.
  - reflexivity.
  - injection Hlen as Hlen.
    cbn [all_digits] in Hs, Ht.
    apply andb_true_iff in Hs as [Hc Hs]. apply andb_true_iff in Ht as [Hc' Ht].
    pose proof (value_bound s Hs) as Bs. pose proof (value_bound t Ht) as Bt.
    pose proof (is_digit_val c Hc) as Bc. pose proof (is_digit_val c' Hc') as Bc'.
    cbn [String.compare value]. rewrite ascii_compare_digit_val, <- Hlen in *.
    set (P := 10 ^ Z.of_nat (String.length s)) in *.
    destruct (Z.compare_spec (digit_val c) (digit_val c')) as [E|L|G].
    + rewrite E, (IH t Hlen Hs Ht). symmetry. apply Z.add_compare_mono_l.
    + symmetry. apply Z.compare_lt_iff. nia.
    + symmetry. apply Z.compare_gt_iff. nia.
Qed.

Lemma length_format_0d_ge (w : nat) (n : Z) :
  (w <= String.length (format_0d w n))%nat.
Proof.
  unfold format_0d. rewrite !length_app_string, length_zeros. lia.
Qed.

(** A number of more than [k] digits. *)
Lemma length_decimal_aux_gt fuel : forall n acc (k : nat),
  0 <= n < 2 ^ Z.of_nat fuel -> 10 ^ Z.of_nat k <= n ->
  (k + String.length acc < String.length (decimal_aux fuel n acc))%nat.
Proof.
  induction fuel as [|f IH]; intros n acc k Hn Hk.
  - simpl in Hn. assert (0 < 10 ^ Z.of_nat k) by (apply Z.pow_pos_nonneg; lia). lia.
  - cbn [decimal_aux]. destruct (Z.ltb_spec n 10) as [Hlt|Hge].
    + destruct k as [|k]; [cbn [String.length]; lia|].
      rewrite Nat2Z.inj_succ, Z.pow_succ_r in Hk by lia.
      assert (0 < 10 ^ Z.of_nat k) by (apply Z.pow_pos_nonneg; lia). lia.
    + assert (Hfuel : 0 <= n / 10 < 2 ^ Z.of_nat f).
      { rewrite Nat2Z.inj_succ, Z.pow_succ_r in Hn by lia.
        split; [apply Z.div_pos; lia | apply Z.div_lt_upper_bound; lia]. }
      destruct k as [|k].
      * specialize (IH (n / 10) (String (digit_char (n mod 10)) acc) 0%nat Hfuel).
        cbn [String.length] in IH.
        assert (10 ^ Z.of_nat 0 <= n / 10).
        { simpl. apply Z.div_le_lower_bound; lia. }
        specialize (IH H). lia.
      * specialize (IH (n / 10) (String (digit_char (n mod 10)) acc) k Hfuel).
        cbn [String.length] in IH.
        assert (10 ^ Z.of_nat k <= n / 10).
        { rewrite Nat2Z.inj_succ, Z.pow_succ_r in Hk by lia.
          apply Z.div_le_lower_bound; lia. }
        specialize (IH H). lia.
Qed.

Lemma length_decimal_gt (n : Z) (k : nat) :
  10 ^ Z.of_nat k <= n -> (k < String.length (decimal n))%nat.
Proof.
  intros Hk. assert (0 < 10 ^ Z.of_nat k) by (apply Z.pow_pos_nonneg; lia).
  unfold decimal.
  pose proof (length_decimal_aux_gt (S (Z.to_nat (Z.log2 n))) n EmptyString k) as H1.
  cbn [String.length] in H1. rewrite Nat.add_0_r in H1. apply H1; [|assumption].
  split; [lia|]. rewrite Nat2Z.inj_succ, Z2Nat.id by apply Z.log2_nonneg.
  apply Z.log2_spec. lia.
Qed.

(** X1: for fixed digit counts (at least one digit in total), the order of
    two keys as strings is the order of the numbers
    [shardId * 10 ^ digitsPerShard + ordinal] they encode, on the domain of
    [compute_key]; so the keys of a shard all come before the keys of the
    next shard, and inside a shard they follow the ordinals. *)
Theorem compute_key_order key shard_id key' shard_id' (d c : nat) :
  0 <= key < 10 ^ Z.of_nat d -> 0 <= shard_id < 10 ^ Z.of_nat c ->
  0 <= key' < 10 ^ Z.of_nat d -> 0 <= shard_id' < 10 ^ Z.of_nat c ->
  (1 <= d + c)%nat ->
  key_compare (compute_key key shard_id d c) (compute_key key' shard_id' d c)
  = (shard_id * 10 ^ Z.of_nat d + key ?= shard_id' * 10 ^ Z.of_nat d + key')
  /\ (shard_id < shard_id' ->
      key_compare (compute_key key shard_id d c) (compute_key key' shard_id' d c) = Lt)
  /\ (shard_id = shard_id' -> key < key' ->
      key_compare (compute_key key shard_id d c) (compute_key key' shard_id' d c) = Lt).
Proof.
  intros Hk Hs Hk' Hs' Hw.
  pose proof (true_key_bound key shard_id d c Hk Hs) as Hb.
  pose proof (true_key_bound key' shard_id' d c Hk' Hs') as Hb'.
  assert (L : String.length (compute_key key shard_id d c) = (d + c)%nat)
    by (unfold compute_key; now apply length_format_0d).
  assert (L' : String.length (compute_key key' shard_id' d c) = (d + c)%nat)
    by (unfold compute_key; now apply length_format_0d).
  assert (D : all_digits (compute_key key shard_id d c) = true)
    by (unfold compute_key; now apply all_digits_format_0d).
  assert (D' : all_digits (compute_key key' shard_id' d c) = true)
    by (unfold compute_key; now apply all_digits_format_0d).
  pose proof (value_compute_key key shard_id d c Hk Hs) as V.
  pose proof (value_compute_key key' shard_id' d c Hk' Hs') as V'.
  assert (E : key_compare (compute_key key shard_id d c) (compute_key key' shard_id' d c)
              = (shard_id * 10 ^ Z.of_nat d + key ?= shard_id' * 10 ^ Z.of_nat d + key')).
  { unfold key_compare. rewrite compare_digits by congruence. now rewrite V, V'. }
  split; [exact E|]. rewrite E.
  assert (0 < 10 ^ Z.of_nat d) by (apply Z.pow_pos_nonneg; lia).
  split.
  - intros Hlt. apply Z.compare_lt_iff. nia.
  - intros -> Hlt. apply Z.compare_lt_iff. lia.
Qed.

Lemma compute_key_order_witness :
  key_compare (compute_key 9999 6 4 5) (compute_key 0 7 4 5) = Lt.
Proof.
  refine (proj1 (proj2 (compute_key_order 9999 6 0 7 4 5 _ _ _ _ _)) _);
    first [ vm_compute; split; [discriminate | reflexivity] | lia ].
Defined.

(** X2: the width is a minimum, never a truncation: for non-negative
    arguments, in or out of the domain, a key has at least
    [digitsPerShard + digitsShardCount] characters, and strictly more as
    soon as [shardId * 10 ^ digitsPerShard + ordinal] reaches
    [10 ^ (digitsPerShard + digitsShardCount)], where it is written in full. *)
Theorem compute_key_never_truncates key shard_id (d c : nat) :
  0 <= key -> 0 <= shard_id ->
  (d + c <= String.length (compute_key key shard_id d c))%nat
  /\ value (compute_key key shard_id d c) = shard_id * 10 ^ Z.of_nat d + key
  /\ (10 ^ Z.of_nat (d + c) <= shard_id * 10 ^ Z.of_nat d + key ->
      (d + c < String.length (compute_key key shard_id d c))%nat
      /\ compute_key key shard_id d c = decimal (shard_id * 10 ^ Z.of_nat d + key)).
Proof.
  intros Hk Hs. unfold compute_key.
  assert (0 <= 10 ^ Z.of_nat d) by (apply Z.pow_nonneg; lia).
  assert (Hn : 0 <= 10 ^ Z.of_nat d * shard_id + key) by nia.
  split; [apply length_format_0d_ge|].
  split; [rewrite value_format_0d by assumption; ring|].
  intros Hbig. rewrite (Z.mul_comm shard_id) in Hbig.
  pose proof (length_decimal_gt _ _ Hbig) as Hlen.
  rewrite format_0d_nonneg by assumption.
  replace (d + c - String.length (decimal (10 ^ Z.of_nat d * shard_id + key)))%nat
    with 0%nat by lia.
  cbn [zeros]. change (EmptyString ++ ?s)%string with s.
  split; [assumption|]. f_equal. ring.
Qed.

Lemma compute_key_never_truncates_witness :
  (2 + 1 < String.length (compute_key 1234 5 2 1))%nat
  /\ compute_key 1234 5 2 1 = decimal (5 * 10 ^ Z.of_nat 2 + 1234).
Proof.
  refine (proj2 (proj2 (compute_key_never_truncates 1234 5 2 1 _ _)) _);
    vm_compute; discriminate.
Defined.

End KeyOrder.

(** ** More on the merge cache: how merges and drains compose *)

Module MergeFacts.
Import MergeCache.

Section Facts.
Context {Answer : Type}.
Implicit Types data local shared a b : gmap CacheKey Answer.

(** A worker's local cache is drained, and what it held is merged into the
    shared cache. *)
Definition drain_into (local shared : gmap CacheKey Answer)
    : gmap CacheKey Answer * gmap CacheKey Answer :=
  let '(dumped_data, local') := simple_dump local in
  (local', merge shared dumped_data).

Lemma merge_union data a : merge data a = data ∪ a.
Proof.
  apply map_eq. intros k. rewrite merge_lookup, lookup_union.
  destruct (data !! k), (a !! k); reflexivity.
Qed.

(** X3: [merge] computes the union of the two dictionaries in which the
    cache's own bindings win; hence merging two batches one after the other
    is merging their own merge, merging the same batch again changes
    nothing, and an empty batch or an empty cache is neutral. *)
Theorem merge_composes data a b :
  merge data a = data ∪ a
  ∧ merge (merge data a) b = merge data (merge a b)
  ∧ merge (merge data a) a = merge data a
  ∧ merge data ∅ = data
  ∧ merge ∅ a = a.
Proof.
  rewrite !merge_union. repeat split.
  - by rewrite (assoc_L (∪)).
  - rewrite <- (assoc_L (∪)). by rewrite (idemp_L (∪) a).
  - apply (right_id_L ∅ (∪)).
  - apply (left_id_L ∅ (∪)).
Qed.

(** X4: draining a local cache into the shared one leaves the local cache
    empty; afterwards the shared cache answers a key the local cache held
    with the answer it already had, if it had one, and with the local
    answer otherwise, and the last local [put] of a key is the one that
    counts. *)
Theorem drain_into_shared local shared key v1 v2 :
  let local2 := simple_put key v2 (simple_put key v1 local) in
  (drain_into local2 shared).1 = ∅
  ∧ get key (drain_into local2 shared).2
    = Some (default v2 (shared !! key))
  ∧ ∀ k, get k (drain_into local2 shared).2
         = match shared !! k with
           | Some g => Some g
           | None => local2 !! k
           end.
Proof.
  intros local2. unfold drain_into, simple_dump, get. cbn [fst snd].
  split; [reflexivity|]. split.
  - rewrite merge_lookup. unfold local2, simple_put.
    rewrite lookup_insert_eq. by destruct (shared !! key).
  - intros k. apply merge_lookup.
Qed.

End Facts.
End MergeFacts.

(** ** More on the remote LRU cache *)

Module RedisFacts.
Import Exc RedisLRU.
Local Open Scope exc_scope.

(** *** The cache key determines the DNS key *)

Lemma all_digits_no_colon (s : string) :
  Key.all_digits s = true → has_colon s = false.
Proof.
  induction s as [|c s IH]; [done|]. cbn [Key.all_digits has_colon].
  intros [Hc Hs]%andb_true_iff. rewrite (IH Hs), orb_false_r.
  destruct (Ascii.eqb_spec c ":") as [->|]; [|done]. by vm_compute in Hc.
Qed.

Lemma str_int_no_colon (n : Z) : has_colon (Key.str_int n) = false.
Proof.
  unfold Key.str_int. destruct (n <? 0)%Z.
  - change ("-" ++ ?s)%string with (String "-"%char s). cbn [has_colon].
    rewrite all_digits_no_colon by apply Key.all_digits_decimal. reflexivity.
  - apply all_digits_no_colon, Key.all_digits_decimal.
Qed.

Lemma str_int_inj (n m : Z) : Key.str_int n = Key.str_int m → n = m.
Proof.
  unfold Key.str_int.
  destruct (Z.ltb_spec n 0), (Z.ltb_spec m 0).
  - change ("-" ++ ?s)%string with (String "-"%char s). intros [= E].
    apply (f_equal Key.value) in E. rewrite !Key.value_decimal in E by lia. lia.
  - change ("-" ++ ?s)%string with (String "-"%char s). intros E.
    pose proof (Key.all_digits_decimal m) as D. rewrite <- E in D. discriminate D.
  - change ("-" ++ ?s)%string with (String "-"%char s). intros E.
    pose proof (Key.all_digits_decimal n) as D. rewrite E in D. discriminate D.
  - intros E. apply (f_equal Key.value) in E.
    by rewrite !Key.value_decimal in E by lia.
Qed.

(** The text after the last colon and the text before it. *)
Lemma split_last_colon (x : string) : ∀ x' B B',
  has_colon B = false → has_colon B' = false →
  (x ++ ":" ++ B)%string = (x' ++ ":" ++ B')%string → x = x' ∧ B = B'.
Proof.
  induction x as [|c x IH]; intros [|c' x'] B B' HB HB' E.
  - change (":" ++ B)%string with (String ":"%char B) in E.
    change (EmptyString ++ ?s)%string with s in E. by injection E as ->.
  - change (EmptyString ++ ":" ++ B)%string with (String ":"%char B) in E.
    change (String c' x' ++ ?s)%string with (String c' (x' ++ s)%string) in E.
    injection E as _ ->. by rewrite has_colon_app in HB.
  - change (EmptyString ++ ":" ++ B')%string with (String ":"%char B') in E.
    change (String c x ++ ?s)%string with (String c (x ++ s)%string) in E.
    injection E as _ <-. by rewrite has_colon_app in HB'.
  - change (String c x ++ ?s)%string with (String c (x ++ s)%string) in E.
    change (String c' x' ++ ?s)%string with (String c' (x' ++ s)%string) in E.
    injection E as -> E. destruct (IH _ _ _ HB HB' E) as [-> ->]. done.
Qed.

Lemma app_assoc_string (a b c : string) :
  (a ++ b ++ c)%string = ((a ++ b) ++ c)%string.
Proof.
  induction a as [|x a IH]; [reflexivity|].
  change (String x a ++ ?s)%string with (String x (a ++ s)%string).
  by rewrite IH.
Qed.

Lemma generate_cache_key_inj (key key' : CacheKey) :
  _generate_cache_key key = _generate_cache_key key' → key = key'.
Proof.
  destruct key as [[name t] c], key' as [[name' t'] c'].
  unfold _generate_cache_key. intros E.
  rewrite (app_assoc_string name), (app_assoc_string name') in E.
  rewrite (app_assoc_string (name ++ ":")), (app_assoc_string (name' ++ ":")) in E.
  apply split_last_colon in E as [E Ec]; [|apply str_int_no_colon..].
  rewrite <- !app_assoc_string in E.
  apply split_last_colon in E as [-> Et]; [|apply str_int_no_colon..].
  by rewrite (str_int_inj _ _ Ec), (str_int_inj _ _ Et).
Qed.

(** X5: two DNS keys with the same cache key are the same key, whatever
    characters the name holds, colons included: the two codes are read
    back from the end of the string. *)
Theorem cache_key_injective (key key' : CacheKey) :
  _generate_cache_key key = _generate_cache_key key' → key = key'.
Proof. apply generate_cache_key_inj. Qed.

Lemma cache_key_injective_witness :
  ("a.example."%string, 1%Z, 1%Z) = ("a.example."%string, 1%Z, 1%Z).
Proof. exact (cache_key_injective _ _ eq_refl). Defined.

(** *** Sequences of operations *)

Section Sequences.
Context {Answer : Type}.
Variable pickle_dumps : Answer -> bytes.
Variable pickle_loads : bytes -> option Answer.

Inductive op : Type :=
| Put (key : CacheKey) (value : Answer)
| Get (key : CacheKey)
| Flush (key : option CacheKey).

(** The cache after one call, whether it returned or raised. *)
Definition run_op (o : op) (c : cache) : cache :=
  match o with
  | Put key value => (put pickle_dumps key value c).2
  | Get key => (get pickle_loads key c).2
  | Flush key => (flush key c).2
  end.

Definition run_ops (ops : list op) (c : cache) : cache :=
  fold_left (fun c o => run_op o c) ops c.

Definition empty_cache : cache := mk_cache ∅ 0 0.

(** The recency list names each stored answer once, names nothing else, and
    does not stay in the keyspace when it is empty. *)
Definition synced (d : gmap string rvalue) : Prop :=
  NoDup (lru_list d)
  ∧ (∀ k, k ∈ lru_list d ↔ ∃ b, d !! k = Some (RString b))
  ∧ d !! "lru_list"%string ≠ Some (RList []).

Lemma synced_touched (d : gmap string rvalue) (ck : string) (b : bytes) :
  d !! ck = Some (RString b) →
  (∀ b', d !! "lru_list"%string ≠ Some (RString b')) →
  NoDup (lru_list d) →
  (∀ k, k ≠ ck → (k ∈ lru_list d ↔ ∃ b', d !! k = Some (RString b'))) →
  synced (touched d ck).
Proof.
  intros Hck Hlru Hnd Hiff.
  assert (ck ≠ "lru_list"%string) as Hne by (intros ->; by destruct (Hlru b)).
  split; [|split].
  - rewrite lru_list_touched. constructor; [|by apply NoDup_filter].
    by intros [? _]%list_elem_of_filter.
  - intros k. rewrite lru_list_touched, elem_of_cons, list_elem_of_filter.
    unfold touched. destruct (decide (k = ck)) as [->|Hk].
    + rewrite lookup_insert_ne by done. split; [eauto | by left].
    + destruct (decide (k = "lru_list"%string)) as [->|Hk'].
      * rewrite lookup_insert_eq. split.
        -- intros [?|[_ Hin]]; [done|]. apply Hiff in Hin as [b' Hb']; [|done].
           by destruct (Hlru b').
        -- by intros [? [=]].
      * rewrite lookup_insert_ne by done. rewrite <- (Hiff k Hk).
        split; [by intros [?|[_ ?]] | by right].
  - unfold touched. rewrite lookup_insert_eq. by intros [=].
Qed.

Lemma filter_ne_idem (x : string) (l : list string) :
  filter (λ y, y ≠ x) (filter (λ y, y ≠ x) l) = filter (λ y, y ≠ x) l.
Proof.
  induction l as [|y l IH]; [done|].
  destruct (decide (y = x)) as [->|Hy].
  - by rewrite filter_cons_False by (by intros ?).
  - rewrite (filter_cons_True _ y l) by done.
    rewrite filter_cons_True by done. by rewrite IH.
Qed.

Lemma lru_list_insert_other (d : gmap string rvalue) (k : string) (x : rvalue) :
  k ≠ "lru_list"%string → lru_list (<[k := x]> d) = lru_list d.
Proof. intros Hk. unfold lru_list. by rewrite lookup_insert_ne. Qed.

(** [flush] of one key, with what it leaves untouched. *)
Lemma flush_key_frame (c : cache) (key : CacheKey) :
  store_ok pickle_dumps (conn c) →
  synced (conn c) →
  let ck := _generate_cache_key key in
  let d' := conn (flush (Some key) c).2 in
  store_ok pickle_dumps d' ∧ synced d'
  ∧ d' !! ck = None
  ∧ ∀ k, k ≠ ck → k ≠ "lru_list"%string → d' !! k = conn c !! k.
Proof.
  intros Hok (Hnd & Hiff & Hnil) ck d'.
  assert (Hne : ck ≠ "lru_list"%string) by apply cache_key_not_lru.
  assert (Hframe : d' !! ck = None
                   ∧ (∀ k, k ≠ ck → k ≠ "lru_list"%string → d' !! k = conn c !! k)
                   ∧ lru_list d' = filter (λ y, y ≠ ck) (lru_list (conn c))
                   ∧ d' !! "lru_list"%string ≠ Some (RList [])
                   ∧ ∀ b, d' !! "lru_list"%string ≠ Some (RString b)).
  { subst d'. unfold flush. fold ck.
    unfold bind, on_conn, zoom, redis_delete, redis_lrem, ret. cbn [fst snd conn].
    unfold lru_list. rewrite lookup_delete_ne by done.
    destruct (conn c !! "lru_list"%string) as [[b|l]|] eqn:Hl.
    - by destruct (store_ok_lru pickle_dumps _ Hok b).
    - change (lrem_list 0 ck l) with (filter (λ y, y ≠ ck) l).
      destruct (filter (λ y, y ≠ ck) l) as [|y l'] eqn:Hf; cbn [snd conn].
      + rewrite lookup_delete_ne, lookup_delete_eq, lookup_delete_eq by done.
        repeat split; try done.
        intros k Hk Hk'. by rewrite !lookup_delete_ne.
      + rewrite lookup_insert_ne, lookup_delete_eq, lookup_insert_eq by done.
        repeat split; try done.
        intros k Hk Hk'. by rewrite lookup_insert_ne, lookup_delete_ne.
    - cbn [snd conn]. rewrite lookup_delete_eq, lookup_delete_ne, Hl by done.
      repeat split; try done.
      intros k Hk Hk'. by rewrite lookup_delete_ne. }
  destruct Hframe as (Hck & Hother & Hlist & Hnil' & Hstr).
  split; [by apply (store_ok_flush pickle_dumps c (Some key))|].
  split; [|split; [exact Hck | exact Hother]].
  split; [|split; [|exact Hnil']].
  - rewrite Hlist. by apply NoDup_filter.
  - intros k. rewrite Hlist, list_elem_of_filter.
    destruct (decide (k = ck)) as [->|Hk].
    + rewrite Hck. split; [by intros [? _] | by intros [? [=]]].
    + destruct (decide (k = "lru_list"%string)) as [->|Hk'].
      * split.
        -- intros [_ Hin]. apply Hiff in Hin as [b Hb].
           by destruct (store_ok_lru pickle_dumps _ Hok b).
        -- intros [b Hb]. by destruct (Hstr b).
      * rewrite (Hother k Hk Hk'), <- Hiff. split; [by intros [_ ?] | done].
Qed.

Lemma synced_empty : synced ∅.
Proof.
  split; [constructor|]. split; [|by rewrite lookup_empty].
  intros k. unfold lru_list. rewrite lookup_empty. split.
  - by intros ?%elem_of_nil.
  - intros [b Hb]. by rewrite lookup_empty in Hb.
Qed.

Lemma run_op_invariant (o : op) (c : cache) :
  store_ok pickle_dumps (conn c) → synced (conn c) →
  store_ok pickle_dumps (conn (run_op o c)) ∧ synced (conn (run_op o c)).
Proof.
  intros Hok Hsync. pose proof Hsync as (Hnd & Hiff & Hnil).
  destruct o as [key v|key|[key|]]; cbn [run_op].
  - split; [by apply store_ok_put|].
    rewrite put_spec by done. cbn [snd conn].
    assert (Hne := cache_key_not_lru key).
    eapply synced_touched.
    + apply lookup_insert_eq.
    + intros b'. rewrite lookup_insert_ne by done.
      by apply (store_ok_lru pickle_dumps).
    + by rewrite lru_list_insert_other.
    + intros k Hk. rewrite lru_list_insert_other, lookup_insert_ne by done.
      apply Hiff.
  - split; [by apply store_ok_get|].
    destruct (conn c !! _generate_cache_key key) as [[b|l]|] eqn:Hk.
    + destruct (pickle_loads b) as [a|] eqn:Hl.
      * rewrite (get_hit_spec pickle_dumps pickle_loads c key b a Hok Hk Hl).
        cbn [snd conn].
        eapply synced_touched;
          [exact Hk | by apply (store_ok_lru pickle_dumps) | done
          | intros k _; apply Hiff].
      * unfold get, bind, on_conn, zoom, redis_get, loads, raise.
        rewrite Hk, Hl. by destruct c.
    + unfold get, bind, on_conn, zoom, redis_get. rewrite Hk. by destruct c.
    + by rewrite get_miss_spec.
  - destruct (flush_key_frame c key Hok Hsync) as (? & ? & _). done.
  - cbn. split; [apply store_ok_empty | apply synced_empty].
Qed.

Lemma run_ops_invariant (ops : list op) : ∀ c,
  store_ok pickle_dumps (conn c) → synced (conn c) →
  store_ok pickle_dumps (conn (run_ops ops c)) ∧ synced (conn (run_ops ops c)).
Proof.
  induction ops as [|o ops IH]; intros c Hok Hsync; [done|].
  cbn [run_ops fold_left]. destruct (run_op_invariant o c Hok Hsync).
  by apply IH.
Qed.

(** X6: after any sequence of [put], [get] and [flush] calls on a store that
    starts empty, returned or raised, the recency list has no duplicate and
    names exactly the keys under which the store holds an answer. *)
Theorem recency_list_tracks_store (ops : list op) :
  let d := conn (run_ops ops empty_cache) in
  NoDup (lru_list d)
  ∧ ∀ k, k ∈ lru_list d ↔ ∃ b, d !! k = Some (RString b).
Proof.
  destruct (run_ops_invariant ops empty_cache) as [_ (Hnd & Hiff & _)];
    [apply store_ok_empty | apply synced_empty |].
  by split.
Qed.

(** What [DBSIZE] counts on such a store. *)
Lemma size_synced (d : gmap string rvalue) :
  store_ok pickle_dumps d → synced d →
  size d = match lru_list d with [] => 0 | l => S (length l) end.
Proof.
  intros Hok (Hnd & Hiff & Hnil).
  destruct (lru_list d) as [|k0 l0] eqn:Hl.
  - assert (d = ∅) as ->; [|apply map_size_empty].
    apply map_empty. intros k. destruct (d !! k) as [[b|l]|] eqn:Hk; [| |done].
    + assert (k ∈ []) as Hin by (apply Hiff; eauto). by apply elem_of_nil in Hin.
    + pose proof (Hok _ _ Hk) as Hk'. simpl in Hk'. subst k.
      unfold lru_list in Hl. rewrite Hk in Hl. by subst l.
  - assert (d !! "lru_list"%string = Some (RList (k0 :: l0))) as Hlru.
    { unfold lru_list in Hl. by destruct (d !! "lru_list"%string) as [[?|?]|]; simplify_eq. }
    rewrite <- (insert_delete_id d "lru_list"%string (RList (k0 :: l0)) Hlru).
    rewrite map_size_insert_None by apply lookup_delete_eq. f_equal.
    rewrite <- size_dom, <- (size_list_to_set (C := gset string) (k0 :: l0)) by done.
    f_equal. apply set_eq. intros k.
    rewrite elem_of_dom, elem_of_list_to_set, Hiff, lookup_delete.
    case_decide as Hk.
    + subst k. rewrite Hlru. split; [by intros [? ?] | by intros [? [=]]].
    + split.
      * intros [[b|l] Hx]; [eauto|]. pose proof (Hok _ _ Hx) as Hk'. done.
      * intros [b Hb]. eauto.
Qed.

(** X7: [get_size] returns the number of keys of the keyspace, and the
    recency list is one of them: after any sequence of calls on a store that
    starts empty, it returns 0 when no answer is cached and the number of
    cached answers plus one otherwise. *)
Theorem get_size_counts_recency_list (ops : list op) :
  let c := run_ops ops empty_cache in
  get_size c
  = (inr (match lru_list (conn c) with
          | [] => 0%Z
          | l => Z.of_nat (S (length l))
          end), c).
Proof.
  intros c. subst c.
  destruct (run_ops_invariant ops empty_cache) as [Hok Hsync];
    [apply store_ok_empty | apply synced_empty |].
  revert Hok Hsync. generalize (run_ops ops empty_cache). intros c Hok Hsync.
  unfold get_size, on_conn, zoom, redis_dbsize, gets.
  rewrite (size_synced (conn c) Hok Hsync).
  destruct c as [d h m]. cbn [conn hits misses].
  by destruct (lru_list d).
Qed.

(** X8: a second [put] under the same key overwrites the first: the cache is
    left exactly as if only the second [put] had happened, and [get] then
    returns the second value when [loads] undoes [dumps]. *)
Theorem put_overwrites (c : cache) (key : CacheKey) (v1 v2 : Answer) :
  store_ok pickle_dumps (conn c) →
  (∀ v, pickle_loads (pickle_dumps v) = Some v) →
  put pickle_dumps key v2 (put pickle_dumps key v1 c).2 = put pickle_dumps key v2 c
  ∧ (get pickle_loads key (put pickle_dumps key v2 (put pickle_dumps key v1 c).2).2).1
    = inr (Some v2).
Proof.
  intros Hok Hrt. assert (Hne := cache_key_not_lru key).
  assert (Hok1 : store_ok pickle_dumps (conn (put pickle_dumps key v1 c).2))
    by by apply store_ok_put.
  assert (E : put pickle_dumps key v2 (put pickle_dumps key v1 c).2
              = put pickle_dumps key v2 c).
  { rewrite (put_spec pickle_dumps _ key v2 Hok1), (put_spec pickle_dumps c key v2 Hok).
    rewrite (put_spec pickle_dumps c key v1 Hok). cbn [snd conn hits misses].
    f_equal. f_equal. apply map_eq. intros k. unfold touched at 1 3.
    rewrite !lru_list_insert_other, lru_list_touched, lru_list_insert_other by done.
    rewrite filter_cons_False by (by intros ?).
    rewrite filter_ne_idem.
    destruct (decide (k = "lru_list"%string)) as [->|Hk].
    - by rewrite !lookup_insert_eq.
    - rewrite !(lookup_insert_ne _ "lru_list"%string k) by done.
      destruct (decide (k = _generate_cache_key key)) as [->|Hk'].
      + by rewrite !lookup_insert_eq.
      + rewrite !(lookup_insert_ne _ (_generate_cache_key key) k) by done.
        unfold touched. by rewrite !lookup_insert_ne. }
  split; [exact E|]. rewrite E.
  rewrite (put_spec pickle_dumps c key v2 Hok). cbn [snd].
  rewrite (get_hit_spec pickle_dumps pickle_loads _ key (pickle_dumps v2) v2);
    [done | | | apply Hrt].
  - cbn [conn]. by apply store_ok_touched, store_ok_set.
  - cbn [conn]. unfold touched.
    rewrite lookup_insert_ne by (symmetry; apply cache_key_not_lru).
    by rewrite lookup_insert_eq.
Qed.

(** X9: a [put] under one key does not change what [get] returns for another
    key. *)
Theorem put_leaves_other_keys (c : cache) (key key' : CacheKey) (v : Answer) :
  store_ok pickle_dumps (conn c) →
  key ≠ key' →
  (get pickle_loads key' (put pickle_dumps key v c).2).1
  = (get pickle_loads key' c).1.
Proof.
  intros Hok Hkeys.
  assert (Hck : _generate_cache_key key ≠ _generate_cache_key key')
    by (intros E; by apply generate_cache_key_inj in E).
  assert (Hne := cache_key_not_lru key'). assert (Hne1 := cache_key_not_lru key).
  assert (Hok1 : store_ok pickle_dumps (conn (put pickle_dumps key v c).2))
    by by apply store_ok_put.
  assert (Hlook : conn (put pickle_dumps key v c).2 !! _generate_cache_key key'
                  = conn c !! _generate_cache_key key').
  { rewrite put_spec by done. cbn [snd conn]. unfold touched.
    by rewrite !lookup_insert_ne. }
  destruct (conn c !! _generate_cache_key key') as [[b|l]|] eqn:Hk.
  - destruct (pickle_loads b) as [a|] eqn:Hl.
    + by rewrite (get_hit_spec pickle_dumps pickle_loads _ key' b a Hok1 Hlook Hl),
        (get_hit_spec pickle_dumps pickle_loads c key' b a Hok Hk Hl).
    + unfold get, bind, on_conn, zoom, redis_get, loads, raise.
      by rewrite Hlook, Hk, Hl.
  - by destruct (Hok _ _ Hk).
  - by rewrite (get_miss_spec pickle_loads _ key' Hlook),
      (get_miss_spec pickle_loads c key' Hk).
Qed.

End Sequences.

Lemma put_overwrites_witness :
  (get (Answer := bytes) Some ("a.example."%string, 1%Z, 1%Z)
     (put (λ b, b) ("a.example."%string, 1%Z, 1%Z) [Byte.x02]
        (put (λ b, b) ("a.example."%string, 1%Z, 1%Z) [Byte.x01] empty_cache).2).2).1
  = inr (Some [Byte.x02]).
Proof.
  exact (proj2 (put_overwrites (λ b, b) Some empty_cache
                  ("a.example."%string, 1%Z, 1%Z) [Byte.x01] [Byte.x02]
                  (store_ok_empty (λ b, b)) (λ v, eq_refl))).
Defined.

Lemma put_leaves_other_keys_witness :
  (get (Answer := bytes) Some ("b.example."%string, 1%Z, 1%Z)
     (put (λ b, b) ("a.example."%string, 1%Z, 1%Z) [Byte.x01] empty_cache).2).1
  = (get (Answer := bytes) Some ("b.example."%string, 1%Z, 1%Z) empty_cache).1.
Proof.
  apply (put_leaves_other_keys (λ b, b) Some empty_cache
           ("a.example."%string, 1%Z, 1%Z) ("b.example."%string, 1%Z, 1%Z)
           [Byte.x01] (store_ok_empty (λ b, b))).
  discriminate.
Defined.

End RedisFacts.

(** ** More on domain resolution *)

Module DnsFacts.
Import Dns.

(** *** Normalizing error texts *)

Lemma prefix_app (n post : string) : String.prefix n (n ++ post) = true.
Proof.
  induction n as [|c n IH]; [by destruct post|].
  change (String c n ++ post)%string with (String c (n ++ post)%string).
  cbn [String.prefix]. destruct (ascii_dec c c); [exact IH | done].
Qed.

Lemma contains_app (n pre post : string) :
  contains n (pre ++ n ++ post) = true.
Proof.
  induction pre as [|c pre IH].
  - change (EmptyString ++ ?s)%string with s.
    destruct (n ++ post)%string eqn:E; cbn [contains];
      rewrite <- E, prefix_app; reflexivity.
  - change (String c pre ++ ?s)%string with (String c (pre ++ s)%string).
    cbn [contains]. rewrite IH. apply orb_true_r.
Qed.

(** X10: an error text that holds the phrase "The DNS query name does not
    exist" anywhere, whatever comes before and after it (the domain name
    for one), is normalized to that phrase with a full stop; and
    normalizing a normalized text changes nothing. *)
Theorem parse_dns_error_normalizes :
  (∀ pre post,
     parse_dns_error (pre ++ "The DNS query name does not exist" ++ post)
     = "The DNS query name does not exist."%string)
  ∧ (∀ error, parse_dns_error (parse_dns_error error) = parse_dns_error error).
Proof.
  split.
  - intros pre post. unfold parse_dns_error. by rewrite contains_app.
  - intros error.
    destruct (contains "The DNS query name does not exist" error) eqn:E1.
    { assert (parse_dns_error error = "The DNS query name does not exist."%string)
        as -> by (unfold parse_dns_error; by rewrite E1).
      reflexivity. }
    destruct (contains "The DNS response does not contain an answer to the question"
                error) eqn:E2.
    { assert (parse_dns_error error
              = "The DNS response does not contain an answer to the question."%string)
        as -> by (unfold parse_dns_error; by rewrite E1, E2).
      reflexivity. }
    destruct (contains "All nameservers failed to answer the query data.whicdn.com. IN A"
                error) eqn:E3.
    { assert (parse_dns_error error
              = "All nameservers failed to answer the query data.whicdn.com. IN A."%string)
        as -> by (unfold parse_dns_error; by rewrite E1, E2, E3).
      reflexivity. }
    assert (parse_dns_error error = error) as Hid
      by (unfold parse_dns_error; by rewrite E1, E2, E3).
    by rewrite !Hid.
Qed.

(** *** Any run that returns *)

Section Runs.
Variable rand : nat -> nat.
Variable resolve : nat -> string -> option string -> string + string.

Lemma resolve_domain_run (domain : option string) : ∀ N fuel st ok text st',
  resolve_domain rand resolve fuel domain N st = Some (ok, text, st') →
  ∃ new,
    selections st' = selections st ++ new
    ∧ (1 ≤ length new ≤ S N)
    ∧ chain (blacklist st) new
    ∧ blacklist st' = list_to_set (take (length new - 1) new.*1) ∪ blacklist st
    ∧ (draws st < draws st')
    ∧ (ok = false → length new = S N)
    ∧ (ok = true →
       ∃ s b, last new = Some (s, b)
              ∧ resolve (length (selections st) + length new - 1) s domain
                = inr text).
Proof.
  induction N as [|n IH]; intros fuel st ok text st' Hrun; simpl in Hrun;
    destruct (select_server rand fuel (blacklist st) (draws st)) as [[s p']|] eqn:Hsel;
    try discriminate;
    apply select_server_sound in Hsel as (Hp & Hn & Hd);
    destruct (resolve (length (selections st)) s domain) as [e|ip] eqn:Hres.
  - injection Hrun as <- <- <-. exists [(s, blacklist st)].
    split; [done|]. split; [simpl; lia|]. split; [done|].
    split; [simpl; by rewrite (left_id_L ∅ (∪))|].
    split; [done|]. split; [done | done].
  - injection Hrun as <- <- <-. exists [(s, blacklist st)].
    split; [done|]. split; [simpl; lia|]. split; [done|].
    split; [simpl; by rewrite (left_id_L ∅ (∪))|].
    split; [done|]. split; [done|].
    intros _. exists s, (blacklist st). split; [done|]. cbn [length].
    by replace (length (selections st) + 1 - 1) with (length (selections st)) by lia.
  - apply IH in Hrun as (new & Hlog & Hlen & Hch & Hbl & Hdr & Hf & Ht).
    cbn [selections blacklist draws] in *.
    exists ((s, blacklist st) :: new).
    split; [by rewrite Hlog, <- app_assoc|].
    split; [cbn [length]; lia|].
    split; [done|].
    split.
    { rewrite Hbl. cbn [length].
      replace (S (length new) - 1) with (S (length new - 1)) by lia.
      cbn [fmap list_fmap take list_to_set fst]. apply union_shift. }
    split; [lia|].
    split; [intros Hok; cbn [length]; by rewrite (Hf Hok)|].
    intros Hok. destruct (Ht Hok) as (s' & b' & Hlast & Hres').
    exists s', b'. split.
    + destruct new as [|x new']; [simpl in Hlen; lia|]. exact Hlast.
    + rewrite length_app in Hres'. cbn [length] in *.
      by replace (length (selections st) + S (length new) - 1)
        with (length (selections st) + 1 + length new - 1) by lia.
  - injection Hrun as <- <- <-. exists [(s, blacklist st)].
    split; [done|]. split; [simpl; lia|]. split; [done|].
    split; [simpl; by rewrite (left_id_L ∅ (∪))|].
    split; [done|]. split; [done|].
    intros _. exists s, (blacklist st). split; [done|]. cbn [length].
    by replace (length (selections st) + 1 - 1) with (length (selections st)) by lia.
Qed.

(** X11: whatever the lookups answer, a call with retry budget [N] that
    returns has selected between 1 and [N + 1] servers, each followed by one
    lookup; no selected server was on the blacklist at that time, so they
    are pairwise distinct; the blacklist has grown by exactly the servers
    that failed before the last lookup; a call that returns [ok = false] has
    used all [N + 1] attempts, and one that returns [ok = true] returns the
    answer of its last lookup. *)
Theorem resolve_domain_attempts (domain : option string) (N fuel : nat)
    (st st' : dns_state) (ok : bool) (text : string) :
  resolve_domain rand resolve fuel domain N st = Some (ok, text, st') →
  ∃ new,
    selections st' = selections st ++ new
    ∧ (1 ≤ length new ≤ N + 1)
    ∧ NoDup new.*1
    ∧ (∀ s, s ∈ new.*1 → (s ∈ PUBLIC_DNS_SERVERS) ∧ (s ∉ blacklist st))
    ∧ blacklist st' = list_to_set (take (length new - 1) new.*1) ∪ blacklist st
    ∧ (ok = false → length new = N + 1)
    ∧ (ok = true →
       ∃ s b, last new = Some (s, b)
              ∧ resolve (length (selections st) + length new - 1) s domain
                = inr text).
Proof.
  intros Hrun.
  destruct (resolve_domain_run domain N fuel st ok text st' Hrun)
    as (new & Hlog & Hlen & Hch & Hbl & _ & Hf & Ht).
  exists new. split; [done|]. split; [lia|].
  split; [by eapply chain_NoDup|]. split; [by apply chain_fresh|].
  split; [done|]. split; [intros H; rewrite (Hf H); lia | done].
Qed.

(** X12: with a generator that keeps offering every server, the selection
    loop ends exactly when some server of the pool is off the blacklist;
    when the blacklist covers the pool, [resolve_domain] never returns,
    whatever the domain, the budget and the fuel. *)
Theorem selection_ends_iff_pool_not_exhausted (bl : gset string) (p : nat) :
  fair rand →
  ((∃ fuel r, select_server rand fuel bl p = Some r) ↔ ¬ pool_set ⊆ bl)
  ∧ (pool_set ⊆ bl →
     ∀ fuel domain N drawn log,
       resolve_domain rand resolve fuel domain N (mk_dns_state bl drawn log) = None).
Proof.
  intros Hfair. split; [split|].
  - intros (fuel & [s p'] & Hsel) Hsub.
    apply select_server_sound in Hsel as (Hp & Hn & _).
    apply Hn, Hsub. by apply elem_of_pool_set.
  - intros Hnot.
    destruct (set_choose_or_empty (pool_set ∖ bl)) as [[s Hs]|Hempty].
    + apply elem_of_difference in Hs as [Hs Hn].
      apply elem_of_pool_set, list_elem_of_In, (In_nth _ _ EmptyString) in Hs
        as (i & Hi & Hnth).
      destruct (Hfair p i Hi) as (q & Hq & Hr).
      destruct (select_server_reaches rand bl (q - p) p) as [r Hsel]; [|by eauto].
      replace (p + (q - p)) with q by lia.
      unfold random_choice. by rewrite Hr, Hnth.
    + exfalso. apply Hnot. intros x Hx.
      destruct (decide (x ∈ bl)) as [|Hout]; [done|].
      assert (x ∈ pool_set ∖ bl) as Hd by (by apply elem_of_difference).
      apply Hempty in Hd. by apply not_elem_of_empty in Hd.
  - intros Hsub fuel domain N drawn log.
    destruct N; simpl; by rewrite select_server_exhausted.
Qed.

End Runs.

Lemma resolve_domain_attempts_witness :
  ∃ new,
    selections
      (mk_dns_state {[ "8.8.8.8"%string ]} 4
         [ ("8.8.8.8"%string, ∅); ("8.8.4.4"%string, {[ "8.8.8.8"%string ]});
           ("9.9.9.9"%string, {[ "8.8.8.8"%string ]}) ])
    = [ ("8.8.8.8"%string, ∅); ("8.8.4.4"%string, {[ "8.8.8.8"%string ]}) ] ++ new
    ∧ (1 ≤ length new ≤ 0 + 1).
Proof.
  destruct (resolve_domain_attempts rand_ex resolve_ex (Some "good.example"%string)
              0 2
              (mk_dns_state {[ "8.8.8.8"%string ]} 2
                 [ ("8.8.8.8"%string, ∅); ("8.8.4.4"%string, {[ "8.8.8.8"%string ]}) ])
              (mk_dns_state {[ "8.8.8.8"%string ]} 4
                 [ ("8.8.8.8"%string, ∅); ("8.8.4.4"%string, {[ "8.8.8.8"%string ]});
                   ("9.9.9.9"%string, {[ "8.8.8.8"%string ]}) ])
              true "93.184.216.34")
    as (new & Hlog & Hlen & _).
  - by vm_compute.
  - exists new. by split.
Defined.

Lemma selection_ends_iff_pool_not_exhausted_witness :
  (∃ fuel r, select_server (λ i, i) fuel ∅ 0 = Some r) ↔ ¬ pool_set ⊆ ∅.
Proof.
  exact (proj1 (selection_ends_iff_pool_not_exhausted (λ i, i)
                  (λ _ _ _, inl EmptyString) ∅ 0 round_robin_fair)).
Defined.

End DnsFacts.

(** ** The X-Robots-Tag check: [is_disallowed] *)

Module Robots.

(** [s.split(sep)] for a separator of one character. *)
Fixpoint split_on (sep : ascii) (s : string) : list string :=
  match s with
  | EmptyString => [EmptyString]
  | String c rest =>
      if Ascii.eqb c sep then EmptyString :: split_on sep rest
      else match split_on sep rest with
           | h :: t => String c h :: t
           | [] => [String c EmptyString]
           end
  end.

(** [s.split(sep, 1)]: cut at the first separator only. *)
Fixpoint split_once (sep : ascii) (s : string) : list string :=
  match s with
  | EmptyString => [EmptyString]
  | String c rest =>
      if Ascii.eqb c sep then [EmptyString; rest]
      else match split_once sep rest with
           | h :: t => String c h :: t
           | [] => [String c EmptyString]
           end
  end.

Section IsDisallowed.
(** [str.strip] and [str.lower], of the Python runtime. *)
Variable py_strip : string -> string.
Variable py_lower : string -> string.
(** [headers.get_all(name, [])] *)
Variable get_all : list (string * string) -> string -> list string.

(** The body of the loop of [is_disallowed] for one header value; none of
    its steps raises on a string. *)
Definition value_disallows (user_agent_token : option string)
    (disallowed_header_directives : gset string) (values : string) : bool :=
  let uatoken_directives := split_once ":" values in
  let directives :=
    map (fun x => py_lower (py_strip x))
        (split_on "," (List.last uatoken_directives EmptyString)) in
  let ua_token :=
    if Nat.eqb (length uatoken_directives) 2
    then Some (py_lower (hd EmptyString uatoken_directives))
    else None in
  match ua_token with
  | None => true
  | Some t => bool_decide (Some t = user_agent_token)
  end
  && existsb (fun x => bool_decide (x ∈ disallowed_header_directives)) directives.

Definition is_disallowed (headers : list (string * string))
    (user_agent_token : option string)
    (disallowed_header_directives : gset string) : bool :=
  existsb (value_disallows user_agent_token disallowed_header_directives)
    (get_all headers "X-Robots-Tag").

(** *** Splitting *)

Lemma split_once_no_colon (s : string) :
  RedisLRU.has_colon s = false → split_once ":" s = [s].
Proof.
  induction s as [|c s IH]; [done|]. cbn [RedisLRU.has_colon split_once].
  intros [Hc Hs]%orb_false_iff. rewrite Hc, (IH Hs). done.
Qed.

Lemma split_once_colon (s : string) :
  RedisLRU.has_colon s = true → length (split_once ":" s) = 2.
Proof.
  induction s as [|c s IH]; [done|]. cbn [RedisLRU.has_colon split_once].
  destruct (Ascii.eqb c ":"); [done|]. cbn [orb]. intros Hs.
  specialize (IH Hs). by destruct (split_once ":" s) as [|h [|h' [|? ?]]].
Qed.

Lemma existsb_false_empty (directives : list string) :
  existsb (fun x => bool_decide (x ∈ (∅ : gset string))) directives = false.
Proof.
  induction directives as [|x l IH]; [done|]. cbn [existsb].
  rewrite IH, orb_false_r. apply bool_decide_eq_false, not_elem_of_empty.
Qed.

(** X13: [is_disallowed] answers [False] when the response carries no
    X-Robots-Tag header, when the set of disallowed directives is empty,
    and, for a caller without user agent token, when every X-Robots-Tag
    value is scoped to a user agent (holds a colon). *)
Theorem is_disallowed_never (headers : list (string * string))
    (user_agent_token : option string)
    (disallowed_header_directives : gset string) :
  (get_all headers "X-Robots-Tag" = [] →
   is_disallowed headers user_agent_token disallowed_header_directives = false)
  ∧ is_disallowed headers user_agent_token ∅ = false
  ∧ (Forall (λ v, RedisLRU.has_colon v = true) (get_all headers "X-Robots-Tag") →
     is_disallowed headers None disallowed_header_directives = false).
Proof.
  unfold is_disallowed. split; [by intros ->|]. split.
  - induction (get_all headers "X-Robots-Tag") as [|v l IH]; [done|].
    cbn [existsb]. rewrite IH, orb_false_r. unfold value_disallows.
    rewrite existsb_false_empty. apply andb_false_r.
  - induction 1 as [|v l Hv _ IH]; [done|].
    cbn [existsb]. rewrite IH, orb_false_r. unfold value_disallows.
    by rewrite (split_once_colon v Hv).
Qed.

(** X14: a header value without user agent scope (no colon) that lists,
    between commas, a directive whose stripped lower-case form is in the
    disallowed set makes [is_disallowed] answer [True], whatever the
    caller's user agent token. *)
Theorem unscoped_directive_disallows (headers : list (string * string))
    (user_agent_token : option string)
    (disallowed_header_directives : gset string) (v d : string) :
  In v (get_all headers "X-Robots-Tag") →
  RedisLRU.has_colon v = false →
  In d (split_on "," v) →
  py_lower (py_strip d) ∈ disallowed_header_directives →
  is_disallowed headers user_agent_token disallowed_header_directives = true.
Proof.
  intros Hv Hcolon Hd Hin. unfold is_disallowed.
  apply existsb_exists. exists v. split; [done|].
  unfold value_disallows. rewrite (split_once_no_colon v Hcolon).
  cbn [length Nat.eqb List.last andb].
  apply existsb_exists. exists (py_lower (py_strip d)).
  split; [|by apply bool_decide_eq_true].
  apply in_map_iff. by exists d.
Qed.

End IsDisallowed.

Example split_on_ex :
  split_on "," "noai, noimageai" = ["noai"; " noimageai"]%string.
Proof. reflexivity. Qed.

Example split_once_ex :
  split_once ":" "otherbot: noai: x" = ["otherbot"; " noai: x"]%string.
Proof. reflexivity. Qed.

Lemma unscoped_directive_disallows_witness :
  is_disallowed (λ s, s) (λ s, s)
    (λ h _, map snd h) [("X-Robots-Tag"%string, "noindex,noai"%string)]
    (Some "img2dataset"%string) {[ "noai"%string ]} = true.
Proof.
  apply (unscoped_directive_disallows (λ s, s) (λ s, s) (λ h _, map snd h)
           [("X-Robots-Tag"%string, "noindex,noai"%string)]
           (Some "img2dataset"%string) {[ "noai"%string ]}
           "noindex,noai" "noai").
  - simpl. by left.
  - reflexivity.
  - simpl. right. by left.
  - by apply elem_of_singleton.
Defined.

End Robots.

(** ** More on download attempts *)

Module FetchFacts.
Import Fetch.

Section Attempts.
Variable urlparse_hostname : string -> string + option string.
Variable urlopen : request -> Z -> string + response.
Variable is_disallowed :
  list (string * string) -> option string -> gset string -> bool.

#[local] Abbreviation download_image :=
  (download_image urlparse_hostname urlopen is_disallowed).
#[local] Abbreviation retry_loop :=
  (retry_loop urlparse_hostname urlopen is_disallowed).
#[local] Abbreviation download_image_with_retry :=
  (download_image_with_retry urlparse_hostname urlopen is_disallowed).

(** The request an attempt makes for a URL, with some [Host] value. *)
Definition request_for (url : string) (user_agent_token : option string)
    (r : request) : Prop :=
  ∃ host,
    r = mk_request url [("User-Agent"%string, Some (user_agent user_agent_token));
                        ("Host"%string, host)].

Lemma download_image_attempt (rand : nat -> nat) (fuel : nat) (key : Z)
    (url : string) (timeout : Z) (user_agent_token : option string)
    (disallowed_header_directives : option (gset string))
    (resolver : option Resolver) (dns_num_retries : nat) (w w' : world)
    (k : Z) (img_stream : option bytes) (err : option string) :
  download_image rand fuel (key, url) timeout user_agent_token
    disallowed_header_directives resolver dns_num_retries w
  = Some ((k, img_stream, err), w') →
  k = key
  ∧ match img_stream with
    | Some _ =>
        err = None
        ∧ ∃ r, request_for url user_agent_token r
               ∧ requests w' = requests w ++ [r]
    | None =>
        is_Some err
        ∧ (requests w' = requests w
           ∨ ∃ r, request_for url user_agent_token r
                  ∧ requests w' = requests w ++ [r])
    end.
Proof.
  unfold Fetch.download_image, request_for.
  intros H. repeat (case_match; simplify_eq); cbn [requests];
    (split; [reflexivity|]); repeat split; eauto.
Qed.

(** X15: whatever the resolver, the network and the headers do, an attempt
    that returns gives back the key of its row and either a payload and no
    error message, or no payload and an error message; it hands urllib at
    most one request, always for the URL of the row as it was given, and
    exactly one when it returns a payload. *)
Theorem download_image_outcome (rand : nat -> nat) (fuel : nat) (key : Z)
    (url : string) (timeout : Z) (user_agent_token : option string)
    (disallowed_header_directives : option (gset string))
    (resolver : option Resolver) (dns_num_retries : nat) (w w' : world)
    (k : Z) (img_stream : option bytes) (err : option string) :
  download_image rand fuel (key, url) timeout user_agent_token
    disallowed_header_directives resolver dns_num_retries w
  = Some ((k, img_stream, err), w') →
  k = key
  ∧ match img_stream with
    | Some _ =>
        err = None
        ∧ ∃ r, request_for url user_agent_token r
               ∧ requests w' = requests w ++ [r]
    | None =>
        is_Some err
        ∧ (requests w' = requests w
           ∨ ∃ r, request_for url user_agent_token r
                  ∧ requests w' = requests w ++ [r])
    end.
Proof. apply download_image_attempt. Qed.

Lemma retry_loop_outcome (rand : nat -> nat) (fuel : nat) (key : Z)
    (url : string) (timeout : Z) (user_agent_token : option string)
    (disallowed_header_directives : option (gset string))
    (resolver : option Resolver) (dns_num_retries : nat) :
  ∀ attempts last w res w',
    (∀ k i e, last = Some (k, i, e) → k = key ∧ is_Some e) →
    retry_loop rand fuel attempts last (key, url) timeout user_agent_token
      disallowed_header_directives resolver dns_num_retries w
    = Some (res, w') →
    match res with
    | inl _ => attempts = 0 ∧ last = None ∧ w' = w
    | inr (k, img_stream, err) =>
        k = key ∧ (img_stream = None → is_Some err)
        ∧ (is_Some img_stream → err = None)
    end
    ∧ length (requests w') ≤ length (requests w) + attempts
    ∧ ∃ more, requests w' = requests w ++ more
              ∧ Forall (request_for url user_agent_token) more.
Proof.
  induction attempts as [|n IH]; intros last w res w' Hlast Hrun.
  - cbn [Fetch.retry_loop] in Hrun. destruct last as [[[k i] e]|].
    + injection Hrun as <- <-. destruct (Hlast k i e eq_refl) as [-> He].
      split; [split; [done|]; split; [done | by intros [? [=]]]|].
      split; [lia|]. exists []. by rewrite app_nil_r.
    + injection Hrun as <- <-.
      split; [done|]. split; [lia|]. exists []. by rewrite app_nil_r.
  - cbn [Fetch.retry_loop] in Hrun.
    destruct (Fetch.download_image _ _ _ rand fuel (key, url) timeout
                user_agent_token disallowed_header_directives resolver
                dns_num_retries w) as [[[[k i] e] w1]|] eqn:Hdl; [|done].
    apply download_image_attempt in Hdl as [-> Hdl].
    destruct i as [data|].
    + injection Hrun as <- <-. destruct Hdl as (-> & r & Hr & Hreq).
      split; [split; [done|]; split; [by intros [=] | done]|].
      rewrite Hreq, length_app. cbn [length]. split; [lia|].
      exists [r]. split; [done|]. by constructor.
    + destruct Hdl as [He Hreq].
      apply IH in Hrun as (Hres & Hlen & more & Hmore & Hall);
        [|by intros ? ? ? [= <- <- <-]].
      split.
      { destruct res as [?|[[? ?] ?]]; [|done].
        by destruct Hres as (_ & [=] & _). }
      destruct Hreq as [Hreq|(r & Hr & Hreq)].
      * rewrite Hreq in *. split; [lia|]. by exists more.
      * rewrite Hreq, length_app in *. cbn [length] in *. split; [lia|].
        exists (r :: more). split; [by rewrite Hmore, <- app_assoc|].
        by constructor.
Qed.

(** *** Enough draws: the calls return *)

(** With a generator that keeps offering every server and a blacklist that
    leaves room for one server per retry, the selection loops of a call all
    end: from some number of draws on, [resolve_domain] returns, and the
    same whatever the number. *)
Lemma resolve_domain_total (rand : nat -> nat)
    (resolve : nat -> string -> option string -> string + string)
    (domain : option string) :
  Dns.fair rand →
  ∀ N st, size (Dns.blacklist st) + N < 7 →
  ∃ fuel r,
    (∀ fuel', fuel ≤ fuel' →
       Dns.resolve_domain rand resolve fuel' domain N st = Some r)
    ∧ size (Dns.blacklist r.2) ≤ size (Dns.blacklist st) + N.
Proof.
  intros Hfair. induction N as [|n IH]; intros st Hsz;
    (destruct (Dns.select_server_fair rand (Dns.blacklist st) (Dns.draws st) Hfair)
       as (f0 & s & p' & Hsel); [lia|]);
    destruct (Dns.select_server_sound _ _ _ _ _ _ (Hsel f0 (le_n _)))
      as (Hp & Hn & _);
    destruct (resolve (length (Dns.selections st)) s domain) as [e|ip] eqn:Hres.
  - exists f0. eexists. split.
    + intros fuel' Hle. cbn [Dns.resolve_domain]. rewrite (Hsel fuel' Hle), Hres.
      reflexivity.
    + cbn. lia.
  - exists f0. eexists. split.
    + intros fuel' Hle. cbn [Dns.resolve_domain]. rewrite (Hsel fuel' Hle), Hres.
      reflexivity.
    + cbn. lia.
  - destruct (IH (Dns.mk_dns_state ({[s]} ∪ Dns.blacklist st) p'
                    (Dns.selections st ++ [(s, Dns.blacklist st)])))
      as (f1 & r & Hrun & Hbound).
    { cbn [Dns.blacklist]. rewrite size_union by (by apply disjoint_singleton_l).
      rewrite size_singleton. lia. }
    exists (f0 `max` f1), r. split.
    + intros fuel' Hle. cbn [Dns.resolve_domain]. rewrite (Hsel fuel') by lia.
      rewrite Hres. apply Hrun. lia.
    + cbn [Dns.blacklist] in Hbound.
      rewrite size_union, size_singleton in Hbound
        by (by apply disjoint_singleton_l).
      lia.
  - exists f0. eexists. split.
    + intros fuel' Hle. cbn [Dns.resolve_domain]. rewrite (Hsel fuel' Hle), Hres.
      reflexivity.
    + cbn. lia.
Qed.

Lemma download_image_total (rand : nat -> nat) (key : Z) (url : string)
    (timeout : Z) (user_agent_token : option string)
    (disallowed_header_directives : option (gset string))
    (resolver : option Resolver) (dns_num_retries : nat) (w : world) :
  Dns.fair rand →
  resolver = None ∨ size (Dns.blacklist (dns w)) + dns_num_retries < 7 →
  ∃ fuel0 out w',
    (∀ fuel, fuel0 ≤ fuel →
       download_image rand fuel (key, url) timeout user_agent_token
         disallowed_header_directives resolver dns_num_retries w
       = Some (out, w'))
    ∧ size (Dns.blacklist (dns w')) ≤ size (Dns.blacklist (dns w)) + dns_num_retries.
Proof.
  intros Hfair Hroom. destruct resolver as [r|].
  - destruct Hroom as [[=]|Hroom].
    destruct (urlparse_hostname url) as [err|domain] eqn:Hhost.
    + exists 0. eexists _, _. split.
      * intros fuel _. unfold Fetch.download_image. rewrite Hhost. reflexivity.
      * lia.
    + destruct (resolve_domain_total rand (lookup r) domain Hfair dns_num_retries
                  (dns w) Hroom) as (f0 & [[ok text] d'] & Hrun & Hbound).
      cbn [snd] in Hbound.
      assert (∀ fuel, f0 ≤ fuel →
                download_image rand fuel (key, url) timeout user_agent_token
                  disallowed_header_directives (Some r) dns_num_retries w
                = download_image rand f0 (key, url) timeout user_agent_token
                    disallowed_header_directives (Some r) dns_num_retries w)
        as Hsame.
      { intros fuel Hle. unfold Fetch.download_image, Dns.resolve_domain_default.
        by rewrite Hhost, (Hrun fuel Hle), (Hrun f0 (le_n _)). }
      destruct (download_image rand f0 (key, url) timeout user_agent_token
                  disallowed_header_directives (Some r) dns_num_retries w)
        as [[out w']|] eqn:E.
      * exists f0, out, w'. split; [exact Hsame|].
        unfold Fetch.download_image, Dns.resolve_domain_default in E.
        rewrite Hhost, (Hrun f0 (le_n _)) in E.
        repeat case_match; simplify_eq; cbn [dns]; lia.
      * unfold Fetch.download_image, Dns.resolve_domain_default in E.
        rewrite Hhost, (Hrun f0 (le_n _)) in E.
        repeat case_match; simplify_eq.
  - exists 0. eexists _, _. split; [intros fuel _; reflexivity | lia].
Qed.

Lemma retry_loop_total (rand : nat -> nat) (key : Z) (url : string)
    (timeout : Z) (user_agent_token : option string)
    (disallowed_header_directives : option (gset string))
    (resolver : option Resolver) (dns_num_retries : nat) :
  Dns.fair rand →
  ∀ attempts last w,
    resolver = None
    ∨ size (Dns.blacklist (dns w)) + attempts * dns_num_retries < 7 →
    ∃ fuel0 res w',
      ∀ fuel, fuel0 ≤ fuel →
        retry_loop rand fuel attempts last (key, url) timeout user_agent_token
          disallowed_header_directives resolver dns_num_retries w
        = Some (res, w').
Proof.
  intros Hfair. induction attempts as [|n IH]; intros last w Hroom.
  - exists 0. destruct last as [[[k i] e]|]; eexists _, _; by intros fuel _.
  - destruct (download_image_total rand key url timeout user_agent_token
                disallowed_header_directives resolver dns_num_retries w Hfair)
      as (f0 & [[k i] e] & w1 & Hdl & Hbound).
    { destruct Hroom as [?|Hroom]; [by left | right; lia]. }
    destruct i as [data|].
    + exists f0. eexists _, _. intros fuel Hle. cbn [Fetch.retry_loop].
      by rewrite (Hdl fuel Hle).
    + destruct (IH (Some (k, None, e)) w1) as (f1 & res & w' & Hrest).
      { destruct Hroom as [?|Hroom]; [by left | right; lia]. }
      exists (f0 `max` f1), res, w'. intros fuel Hle. cbn [Fetch.retry_loop].
      rewrite (Hdl fuel) by lia. apply Hrest. lia.
Qed.

(** X16: for a number of retries that is not negative, a generator that
    keeps offering every server and, when a resolver is in use, a blacklist
    with room for the servers that [retries + 1] attempts of
    [dns_num_retries] retries each can add to it,
    [download_image_with_retry] returns a result and does not raise, as
    soon as the draws are not cut short; the result carries the key of the
    row and either a payload and no error message, or no payload and an
    error message; urllib was handed at most [retries + 1] requests, all for
    the URL of the row. *)
Theorem download_image_with_retry_outcome (rand : nat -> nat)
    (key : Z) (url : string) (timeout retries : Z)
    (user_agent_token : option string)
    (disallowed_header_directives : option (gset string))
    (resolver : option Resolver) (dns_num_retries : nat) (w : world) :
  (0 <= retries)%Z →
  Dns.fair rand →
  resolver = None
  ∨ size (Dns.blacklist (dns w)) + Z.to_nat (retries + 1) * dns_num_retries < 7 →
  ∃ fuel0 img_stream err w',
    (∀ fuel, fuel0 ≤ fuel →
       download_image_with_retry rand fuel (key, url) timeout retries
         user_agent_token disallowed_header_directives resolver dns_num_retries w
       = Some (inr (key, img_stream, err), w'))
    ∧ (img_stream = None ↔ is_Some err)
    ∧ (Z.of_nat (length (requests w'))
       <= Z.of_nat (length (requests w)) + retries + 1)%Z
    ∧ ∃ more, requests w' = requests w ++ more
              ∧ Forall (request_for url user_agent_token) more.
Proof.
  intros Hr Hfair Hroom.
  destruct (retry_loop_total rand key url timeout user_agent_token
              disallowed_header_directives resolver dns_num_retries Hfair
              (Z.to_nat (retries + 1)) None w Hroom) as (f0 & res & w' & Hrun).
  pose proof (Hrun f0 (le_n _)) as Hrun0.
  destruct (Z.to_nat (retries + 1)) as [|n] eqn:Hn; [lia|].
  apply retry_loop_outcome in Hrun0 as (Hres & Hlen & Hmore);
    [|by intros ? ? ? [=]].
  destruct res as [?|[[k i] e]]; [by destruct Hres as [[=] _]|].
  destruct Hres as (-> & Hnone & Hsome).
  exists f0, i, e, w'. split.
  { intros fuel Hle. unfold Fetch.download_image_with_retry. rewrite Hn.
    by apply Hrun. }
  split; [|split; [lia | done]].
  split; [done|]. intros He. destruct i as [data|]; [|done].
  rewrite Hsome in He by eauto. by destruct He.
Qed.

(** X17: a call with a negative number of retries makes no attempt and
    raises, the local [key] being unbound at the final [return]; the world
    is left as it was. *)
Theorem download_image_with_retry_negative (rand : nat -> nat) (fuel : nat)
    (row : Z * string) (timeout retries : Z)
    (user_agent_token : option string)
    (disallowed_header_directives : option (gset string))
    (resolver : option Resolver) (dns_num_retries : nat) (w : world) :
  (retries < 0)%Z →
  download_image_with_retry rand fuel row timeout retries user_agent_token
    disallowed_header_directives resolver dns_num_retries w
  = Some (inl (unbound_local "key"), w).
Proof.
  intros Hr. unfold Fetch.download_image_with_retry.
  by replace (Z.to_nat (retries + 1)) with 0 by lia.
Qed.

End Attempts.

(** X18: when no set of disallowed directives is configured, or an empty
    one, the headers of the response are never looked at: the attempt
    returns the same, and leaves the same world, whatever [is_disallowed]
    would answer. *)
Theorem robots_check_only_when_configured
    (urlparse_hostname : string -> string + option string)
    (urlopen : request -> Z -> string + response)
    (is_disallowed1 is_disallowed2 :
       list (string * string) -> option string -> gset string -> bool)
    (rand : nat -> nat) (fuel : nat) (row : Z * string) (timeout : Z)
    (user_agent_token : option string)
    (disallowed_header_directives : option (gset string))
    (resolver : option Resolver) (dns_num_retries : nat) (w : world) :
  disallowed_header_directives = None ∨ disallowed_header_directives = Some ∅ →
  Fetch.download_image urlparse_hostname urlopen is_disallowed1 rand fuel row
    timeout user_agent_token disallowed_header_directives resolver
    dns_num_retries w
  = Fetch.download_image urlparse_hostname urlopen is_disallowed2 rand fuel row
      timeout user_agent_token disallowed_header_directives resolver
      dns_num_retries w.
Proof.
  intros Hd. unfold Fetch.download_image. destruct row as [key url].
  assert (∀ isd r, robots_disallow isd r user_agent_token
                     disallowed_header_directives = false) as Hrob.
  { intros isd r. unfold robots_disallow. destruct Hd as [->| ->]; [done|].
    by rewrite bool_decide_eq_true_2. }
  repeat case_match; simplify_eq; try done; by rewrite !Hrob in *.
Qed.

Definition network_ex : request -> Z -> string + response :=
  λ _ _, inr (mk_response [("X-Robots-Tag"%string, "noai"%string)]
                (inr [Byte.x89])).

Lemma download_image_outcome_witness :
  ∃ r, request_for "http://good.example/a.png" None r
       ∧ requests
           (mk_world (Dns.mk_dns_state ∅ 1 [("8.8.8.8"%string, ∅)])
              [mk_request "http://good.example/a.png"
                 [("User-Agent"%string, Some (user_agent None));
                  ("Host"%string, Some "good.example"%string)]])
         = requests (mk_world Dns.fresh_process []) ++ [r].
Proof.
  destruct (download_image_outcome (λ _, inr (Some "good.example"%string))
              network_ex (λ _ _ _, true) (λ i, i) 1 7%Z
              "http://good.example/a.png" 10%Z None None
              (Some (resolver_ex "93.184.216.34")) 0
              (mk_world Dns.fresh_process []) _ _ (Some [Byte.x89]) None eq_refl)
    as (_ & _ & H).
  exact H.
Defined.

Lemma download_image_with_retry_outcome_witness :
  ∃ fuel0 img_stream err w',
    (∀ fuel, fuel0 ≤ fuel →
       Fetch.download_image_with_retry (λ _, inr (Some "bad.invalid"%string))
         network_ex (λ _ _ _, true) (λ i, i) fuel
         (7%Z, "http://bad.invalid/a.png"%string) 10%Z 2%Z None None
         (Some (mk_resolver (λ _ _ _, inl "timeout"%string) (inr (0, 0, 0)%Z))) 1
         (mk_world Dns.fresh_process [])
       = Some (inr (7%Z, img_stream, err), w'))
    ∧ (img_stream = None ↔ is_Some err).
Proof.
  destruct (download_image_with_retry_outcome (λ _, inr (Some "bad.invalid"%string))
              network_ex (λ _ _ _, true) (λ i, i) 7%Z "http://bad.invalid/a.png"
              10%Z 2%Z None None
              (Some (mk_resolver (λ _ _ _, inl "timeout"%string) (inr (0, 0, 0)%Z)))
              1 (mk_world Dns.fresh_process []))
    as (fuel0 & img_stream & err & w' & Hrun & Hshape & _).
  - lia.
  - apply Dns.round_robin_fair.
  - right. vm_compute. lia.
  - by exists fuel0, img_stream, err, w'.
Defined.

Lemma download_image_with_retry_negative_witness :
  Fetch.download_image_with_retry (λ _, inr None) network_ex (λ _ _ _, true)
    (λ i, i) 1 (7%Z, "http://good.example/a.png"%string) 10%Z (-1)%Z None None None
    0 (mk_world Dns.fresh_process [])
  = Some (inl (unbound_local "key"), mk_world Dns.fresh_process []).
Proof.
  apply download_image_with_retry_negative. lia.
Defined.

Lemma robots_check_only_when_configured_witness :
  Fetch.download_image (λ _, inr (Some "good.example"%string)) network_ex
    (λ _ _ _, true) (λ i, i) 1 (7%Z, "http://good.example/a.png"%string) 10%Z None
    (Some ∅) (Some (resolver_ex "93.184.216.34")) 0 (mk_world Dns.fresh_process [])
  = Fetch.download_image (λ _, inr (Some "good.example"%string)) network_ex
      (λ _ _ _, false) (λ i, i) 1 (7%Z, "http://good.example/a.png"%string) 10%Z None
      (Some ∅) (Some (resolver_ex "93.184.216.34")) 0 (mk_world Dns.fresh_process []).
Proof.
  apply robots_check_only_when_configured. by right.
Defined.

End FetchFacts.

(** ** More on the loop turn: records and tallies *)

Module TurnFacts.
Import Exc Shard.
Local Open Scope exc_scope.
Local Open Scope Z_scope.

Definition is_write (e : event) : bool :=
  match e with EWrite _ _ _ _ => true | _ => false end.

(** The number of records handed to the writer so far. *)
Definition writes (st : loop_state) : Z :=
  Z.of_nat (length (filter (fun e => is_write e = true) (trace st))).

(** The three tallies together. *)
Definition tally (st : loop_state) : Z :=
  successes st + failed_to_download st + failed_to_resize st.

(** The status a record carries, against the image it comes with. *)
Definition status_fits (e : event) : Prop :=
  match e with
  | EWrite (Some _) _ _ meta => meta !! "status"%string = Some (PStr "success")
  | EWrite None _ _ meta =>
      meta !! "status"%string = Some (PStr "failed_to_download")
      ∨ meta !! "status"%string = Some (PStr "failed_to_resize")
  | _ => True
  end.

(** *** A quantity that a computation raises by at most [n] *)

Section Measure.
Variable W : loop_state -> Z.
(** What a call of the writer and a step of a tally add to it. *)
Variables cw ca : Z.
Hypothesis cw_nonneg : 0 <= cw.
Hypothesis ca_nonneg : 0 <= ca.
Hypothesis W_emit : ∀ e st,
  W (emit e st).2 = W st + (if is_write e then cw else 0).
Hypothesis W_add_successes : ∀ st,
  W st <= W (add_successes st).2 <= W st + ca.
Hypothesis W_add_failed_to_download : ∀ st,
  W st <= W (add_failed_to_download st).2 <= W st + ca.
Hypothesis W_add_failed_to_resize : ∀ st,
  W st <= W (add_failed_to_resize st).2 <= W st + ca.

Definition adds {A} (n : Z) (m : M loop_state A) : Prop :=
  ∀ st, W st <= W (m st).2 <= W st + n.

Lemma adds_ret {A} (a : A) : adds 0 (ret a).
Proof. intros st. cbn. lia. Qed.

Lemma adds_raise {A} (e : string) : adds 0 (raise (A := A) e).
Proof. intros st. cbn. lia. Qed.

Lemma adds_lift {A} (r : string + A) : adds 0 (lift r).
Proof. destruct r; [apply adds_raise | apply adds_ret]. Qed.

Lemma adds_py_index {A} (l : list A) i : adds 0 (py_index l i).
Proof.
  unfold py_index. destruct (_ <? 0); [apply adds_raise|].
  destruct (l !! _); [apply adds_ret | apply adds_raise].
Qed.

Lemma adds_caption_of idx sample_data : adds 0 (caption_of idx sample_data).
Proof.
  unfold caption_of, item_at. destruct (caption_indice idx);
    [apply adds_py_index | apply adds_ret].
Qed.

Lemma adds_emit_quiet (e : event) : is_write e = false → adds 0 (emit e).
Proof. intros He st. rewrite W_emit, He. lia. Qed.

Lemma adds_increment o label : adds 0 (increment o label).
Proof.
  unfold increment. destruct (increment_fault o);
    [apply adds_raise | by apply adds_emit_quiet].
Qed.

Lemma adds_release : adds 0 release.
Proof. by apply adds_emit_quiet. Qed.

Lemma adds_write o img str_key caption meta :
  adds cw (write o img str_key caption meta).
Proof.
  unfold write. destruct (write_fault o).
  - intros st. cbn. lia.
  - intros st. rewrite W_emit. cbn. lia.
Qed.

Lemma adds_add_successes : adds ca add_successes.
Proof. exact W_add_successes. Qed.

Lemma adds_add_failed_to_download : adds ca add_failed_to_download.
Proof. exact W_add_failed_to_download. Qed.

Lemma adds_add_failed_to_resize : adds ca add_failed_to_resize.
Proof. exact W_add_failed_to_resize. Qed.

Lemma adds_weaken {A} (a b : Z) (m : M loop_state A) :
  adds a m → a <= b → adds b m.
Proof. intros Hm Hab st. specialize (Hm st). lia. Qed.

Lemma adds_bind {A B} (a b n : Z) (m : M loop_state A) (k : A → M loop_state B) :
  adds a m → (∀ x, adds b (k x)) → 0 <= b → n = a + b → adds n (bind m k).
Proof.
  intros Hm Hk Hb -> st. unfold bind. specialize (Hm st).
  destruct (m st) as [[e|x] st1]; cbn [snd] in *.
  - lia.
  - specialize (Hk x st1). lia.
Qed.

Lemma adds_try_except {A} (a b n : Z) (body : M loop_state A)
    (handler : string → M loop_state A) :
  adds a body → (∀ e, adds b (handler e)) → 0 <= b → n = a + b →
  adds n (try_except body handler).
Proof.
  intros Hm Hk Hb -> st. unfold try_except. specialize (Hm st).
  destruct (body st) as [[e|x] st1]; cbn [snd] in *.
  - specialize (Hk e st1). lia.
  - lia.
Qed.

(** Steps that add nothing. *)
Ltac adds_zero :=
  repeat first
    [ apply adds_ret | apply adds_raise | apply adds_lift | apply adds_py_index
    | apply adds_caption_of | apply adds_increment | apply adds_release
    | apply adds_py_index
    | (apply (adds_bind 0 0 0); [ | intros | lia | lia ])
    | match goal with
      | |- adds _ (item_at _ _) => apply adds_py_index
      | |- adds _ (match ?x with _ => _ end) => destruct x
      end ].

(** After the writer was called, or was not: nothing more is added. *)
Ltac adds_after_tally :=
  repeat first
    [ (apply (adds_bind 0 cw cw); [ solve [adds_zero] | intros | lia | lia ])
    | (apply (adds_bind cw 0 cw); [ apply adds_write | intros; solve [adds_zero]
                                  | lia | lia ])
    | (apply (adds_weaken 0 cw); [ solve [adds_zero] | lia ])
    | match goal with
      | |- adds _ (match ?x with _ => _ end) => destruct x
      end ].

Ltac adds_body :=
  repeat first
    [ (apply (adds_bind 0 (ca + cw) (ca + cw)); [ solve [adds_zero] | intros | lia | lia ])
    | (apply (adds_bind ca cw (ca + cw));
       [ first [ apply adds_add_successes | apply adds_add_failed_to_download
               | apply adds_add_failed_to_resize ]
       | intros; solve [adds_after_tally] | lia | lia ])
    | match goal with
      | |- adds _ (match ?x with _ => _ end) => destruct x
      end ].

Lemma try_body_adds (self : Downloader) (shard_id : Z)
    (oom_sample_per_shard : nat) (shard_to_dl : list (list pyval))
    (idx : indices) (o : item_oracle) (result : Fetch.outcome) :
  adds (ca + cw)
    (try_body self shard_id oom_sample_per_shard shard_to_dl idx o result).
Proof.
  destruct result as [[key img_stream] error_message]. unfold try_body.
  adds_body.
Qed.

Lemma iteration_adds (self : Downloader) (shard_id : Z)
    (oom_sample_per_shard : nat) (shard_to_dl : list (list pyval))
    (idx : indices) (o : item_oracle) (result : Fetch.outcome) :
  adds (ca + cw)
    (iteration self shard_id oom_sample_per_shard shard_to_dl idx o result).
Proof.
  unfold iteration.
  apply (adds_bind (ca + cw) 0 (ca + cw)); [|intros [|]|lia|lia].
  - apply (adds_try_except (ca + cw) 0 (ca + cw)); [apply try_body_adds| |lia|lia].
    intros e. apply (adds_bind 0 0 0); [by apply adds_emit_quiet| |lia|lia].
    intros _. apply adds_ret.
  - apply adds_release.
  - apply adds_ret.
Qed.

End Measure.

Lemma writes_emit (e : event) (st : loop_state) :
  writes (emit e st).2 = writes st + (if is_write e then 1 else 0).
Proof.
  unfold writes, emit, modify. cbn [snd trace].
  rewrite filter_app, length_app, Nat2Z.inj_add. by destruct e.
Qed.

(** X19: one turn of the main loop, whatever its collaborators answer or
    raise, hands the writer at most one record and adds at most one to the
    three tallies taken together; and none of the four numbers ever goes
    down: the records written, [successes], [failed_to_download] and
    [failed_to_resize] each stay or go up by one. *)
Theorem iteration_one_record_one_tally (self : Downloader) (shard_id : Z)
    (oom_sample_per_shard : nat) (shard_to_dl : list (list pyval))
    (idx : indices) (o : item_oracle) (result : Fetch.outcome)
    (st : loop_state) :
  let st' :=
    (iteration self shard_id oom_sample_per_shard shard_to_dl idx o result st).2 in
  (writes st <= writes st' <= writes st + 1)
  ∧ (successes st <= successes st' <= successes st + 1)
  ∧ (failed_to_download st <= failed_to_download st'
     <= failed_to_download st + 1)
  ∧ (failed_to_resize st <= failed_to_resize st' <= failed_to_resize st + 1)
  ∧ (tally st <= tally st' <= tally st + 1).
Proof.
  split; [|split; [|split; [|split]]].
  - apply (iteration_adds writes 1 0);
      [lia | lia | apply writes_emit
      | intros st0; unfold writes; cbn; lia ..].
  - apply (iteration_adds successes 0 1);
      [lia | lia | intros e st0; cbn; destruct (is_write e); lia
      | intros st0; cbn; lia ..].
  - apply (iteration_adds failed_to_download 0 1);
      [lia | lia | intros e st0; cbn; destruct (is_write e); lia
      | intros st0; cbn; lia ..].
  - apply (iteration_adds failed_to_resize 0 1);
      [lia | lia | intros e st0; cbn; destruct (is_write e); lia
      | intros st0; cbn; lia ..].
  - apply (iteration_adds tally 0 1);
      [lia | lia
      | intros e st0; unfold tally; cbn; destruct (is_write e); lia
      | intros st0; unfold tally; cbn; lia ..].
Qed.

(** *** A property of every event a computation emits *)

Section Keeps.
Variable G : event -> Prop.

Definition keeps {A} (m : M loop_state A) : Prop :=
  ∀ st, Forall G (trace st) → Forall G (trace (m st).2).

Lemma keeps_same {A} (m : M loop_state A) :
  (∀ st, trace (m st).2 = trace st) → keeps m.
Proof. intros H st. by rewrite H. Qed.

Lemma keeps_ret {A} (a : A) : keeps (ret a).
Proof. by apply keeps_same. Qed.

Lemma keeps_raise {A} (e : string) : keeps (raise (A := A) e).
Proof. by apply keeps_same. Qed.

Lemma keeps_lift {A} (r : string + A) : keeps (lift r).
Proof. destruct r; [apply keeps_raise | apply keeps_ret]. Qed.

Lemma keeps_py_index {A} (l : list A) i : keeps (py_index l i).
Proof.
  unfold py_index. destruct (_ <? 0); [apply keeps_raise|].
  destruct (l !! _); [apply keeps_ret | apply keeps_raise].
Qed.

Lemma keeps_caption_of idx sample_data : keeps (caption_of idx sample_data).
Proof.
  unfold caption_of, item_at. destruct (caption_indice idx);
    [apply keeps_py_index | apply keeps_ret].
Qed.

Lemma keeps_emit (e : event) : G e → keeps (emit e).
Proof.
  intros He st Hst. unfold emit, modify. cbn [snd trace].
  apply Forall_app. split; [done|]. by constructor.
Qed.

Lemma keeps_write o img str_key caption meta :
  G (EWrite img str_key caption meta) → keeps (write o img str_key caption meta).
Proof.
  intros He. unfold write. destruct (write_fault o);
    [apply keeps_raise | by apply keeps_emit].
Qed.

Lemma keeps_bind {A B} (m : M loop_state A) (k : A → M loop_state B) :
  keeps m → (∀ x, keeps (k x)) → keeps (bind m k).
Proof.
  intros Hm Hk st Hst. unfold bind. specialize (Hm st Hst).
  destruct (m st) as [[e|x] st1]; cbn [snd] in *; [done|]. by apply Hk.
Qed.

Lemma keeps_try_except {A} (body : M loop_state A)
    (handler : string → M loop_state A) :
  keeps body → (∀ e, keeps (handler e)) → keeps (try_except body handler).
Proof.
  intros Hm Hk st Hst. unfold try_except. specialize (Hm st Hst).
  destruct (body st) as [[e|x] st1]; cbn [snd] in *; [by apply Hk | done].
Qed.

End Keeps.

Ltac status_lookup :=
  cbn [status_fits];
  first [ by rewrite ?lookup_insert_ne, lookup_insert_eq by done
        | left; by rewrite ?lookup_insert_ne, lookup_insert_eq by done
        | right; by rewrite ?lookup_insert_ne, lookup_insert_eq by done ].

Ltac keeps_step :=
  first
    [ apply keeps_ret | apply keeps_raise | apply keeps_lift
    | apply keeps_py_index | apply keeps_caption_of
    | (apply keeps_same; intros ?; reflexivity)
    | (apply keeps_emit; intros; by right)
    | (apply keeps_write; right; status_lookup)
    | (apply keeps_try_except; [|intros])
    | (apply keeps_bind; [|intros])
    | match goal with
      | |- keeps _ (item_at _ _) => apply keeps_py_index
      | |- keeps _ (increment ?o _) =>
          unfold increment; destruct (increment_fault o)
      | |- keeps _ release => unfold release
      | |- keeps _ (match ?x with _ => _ end) => destruct x
      end ].

(** X20: a record that a loop turn hands to the writer carries an image
    exactly when its status is [success]: with an image the status field is
    "success", without one it is "failed_to_download" or
    "failed_to_resize". *)
Theorem written_status_fits_image (self : Downloader) (shard_id : Z)
    (oom_sample_per_shard : nat) (shard_to_dl : list (list pyval))
    (idx : indices) (o : item_oracle) (result : Fetch.outcome)
    (st : loop_state) (img : option bytes) (str_key : string)
    (caption : pyval) (meta : gmap string pyval) :
  let st' :=
    (iteration self shard_id oom_sample_per_shard shard_to_dl idx o result st).2 in
  EWrite img str_key caption meta ∈ trace st' →
  EWrite img str_key caption meta ∈ trace st
  ∨ match img with
    | Some _ => meta !! "status"%string = Some (PStr "success")
    | None =>
        meta !! "status"%string = Some (PStr "failed_to_download")
        ∨ meta !! "status"%string = Some (PStr "failed_to_resize")
    end.
Proof.
  intros st' Hin.
  assert (keeps (λ e, e ∈ trace st ∨ status_fits e)
            (iteration self shard_id oom_sample_per_shard shard_to_dl idx o result))
    as Hkeeps.
  { destruct result as [[key img_stream] error_message].
    unfold iteration, try_body. repeat keeps_step. }
  assert (Forall (λ e, e ∈ trace st ∨ status_fits e) (trace st')) as Hall.
  { apply Hkeeps. apply Forall_forall. intros e He. by left. }
  rewrite Forall_forall in Hall. destruct (Hall _ Hin) as [?|Hfit]; [by left|].
  right. by destruct img.
Qed.

(** A writer and a tally that work. *)
Definition oracle_ok : item_oracle :=
  mk_oracle None None (inr EmptyString) (inl "cannot identify image file"%string)
    (inl EmptyString) (inr EmptyString).

Lemma written_status_fits_image_witness :
  let meta :=
    <["status"%string := PStr "failed_to_download"]>
      (init_meta self_ex idx_ex [PStr "http://a.invalid/2.png"]
         (Key.compute_key 2 3 4 5) (Some "timed out"%string)) in
  EWrite None (Key.compute_key 2 3 4 5) PNone meta ∈ trace (mk_loop [] 0 0 0)
  ∨ (meta !! "status"%string = Some (PStr "failed_to_download")
     ∨ meta !! "status"%string = Some (PStr "failed_to_resize")).
Proof.
  intros meta.
  apply (written_status_fits_image self_ex 3 4 rows_ex idx_ex oracle_ok
           (2, None, Some "timed out"%string) (mk_loop [] 0 0 0) None).
  apply list_elem_of_In. vm_compute. right. left. reflexivity.
Defined.

End TurnFacts.

(** ** More on the shard: paths of a loop turn, the end of a shard, progress *)

Module ShardFacts.
Import Exc Shard.
Local Open Scope exc_scope.

(** *** Two paths of the loop turn *)

Lemma py_index_ok {S A} (l : list A) (i : Z) (x : A) (st : S) :
  (0 <= i)%Z → l !! Z.to_nat i = Some x → py_index l i st = (inr x, st).
Proof.
  intros Hi Hx. unfold py_index.
  destruct (Z.ltb_spec i 0) as [|_]; [lia|].
  destruct (Z.ltb_spec i 0) as [|_]; [lia|]. by rewrite Hx.
Qed.

Lemma item_at_ok {S} (sample_data : list pyval) (i : nat) (x : pyval) (st : S) :
  sample_data !! i = Some x → item_at sample_data i st = (inr x, st).
Proof.
  intros Hx. unfold item_at. apply py_index_ok; [lia|]. by rewrite Nat2Z.id.
Qed.

(** The caption handed to the writer for a row. *)
Definition caption_is (idx : indices) (sample_data : list pyval) (cap : pyval)
    : Prop :=
  match caption_indice idx with
  | Some ci => sample_data !! ci = Some cap
  | None => cap = PNone
  end.

Lemma caption_of_ok {S} idx sample_data cap (st : S) :
  caption_is idx sample_data cap → caption_of idx sample_data st = (inr cap, st).
Proof.
  unfold caption_is, caption_of. destruct (caption_indice idx) as [ci|].
  - apply item_at_ok.
  - by intros ->.
Qed.

(** X21: when a verification hash column is configured and the digest of
    the payload differs from the value in the row, and the tally and the
    writer work, the loop turn counts one [failed_to_download], labels the
    tally "hash mismatch", writes one record without image whose status is
    "failed_to_download" and whose error message is "hash mismatch", and
    releases its unit; the resizer is not consulted. *)
Theorem hash_mismatch_turn (self : Downloader) (shard_id : Z)
    (oom_sample_per_shard : nat) (shard_to_dl : list (list pyval))
    (idx : indices) (o : item_oracle) (key : Z) (data : bytes)
    (st : loop_state) (sample_data : list pyval) (h : nat)
    (expected cap : pyval) (test_hash : string) :
  (0 <= key)%Z →
  shard_to_dl !! Z.to_nat key = Some sample_data →
  hash_indice idx = Some h →
  sample_data !! h = Some expected →
  digest o = inr test_hash →
  PStr test_hash ≠ expected →
  increment_fault o = None →
  write_fault o = None →
  caption_is idx sample_data cap →
  ∃ meta,
    iteration self shard_id oom_sample_per_shard shard_to_dl idx o
      (key, Some data, None) st
    = (inr tt,
       mk_loop
         (trace st
          ++ [ EIncrement "hash mismatch";
               EWrite None
                 (Key.compute_key key shard_id oom_sample_per_shard
                    (oom_shard_count self)) cap meta;
               ERelease ])
         (successes st) (failed_to_download st + 1) (failed_to_resize st))
    ∧ meta !! "status"%string = Some (PStr "failed_to_download")
    ∧ meta !! "error_message"%string = Some (PStr "hash mismatch").
Proof.
  intros Hkey Hrow Hh Hexp Hdig Hne Hinc Hwr Hcap.
  eexists. split.
  - unfold iteration, try_except, try_body.
    unfold bind at 1. unfold bind at 1.
    rewrite (py_index_ok shard_to_dl key sample_data st Hkey Hrow).
    unfold bind at 1. cbn [ret]. unfold bind at 1. rewrite Hh.
    unfold bind at 1. rewrite Hdig. cbn [lift ret].
    unfold bind at 1. rewrite (item_at_ok sample_data h expected st Hexp).
    cbn [ret]. rewrite bool_decide_eq_true_2 by done.
    unfold bind, add_failed_to_download, increment, write, release, emit, modify, ret.
    rewrite Hinc, Hwr. cbn [fst snd trace successes failed_to_download failed_to_resize].
    rewrite (caption_of_ok idx sample_data cap _ Hcap).
    cbn [fst snd trace successes failed_to_download failed_to_resize].
    rewrite <- !app_assoc. reflexivity.
  - split.
    + by rewrite lookup_insert_ne, lookup_insert_eq.
    + by rewrite lookup_insert_eq.
Qed.

(** X22: the tallies move before the writer is called: when the download
    failed and the writer raises, the loop turn has counted one
    [failed_to_download] and labelled the tally, no record was written, the
    failure is printed and the unit is released. *)
Theorem failed_write_is_still_counted (self : Downloader) (shard_id : Z)
    (oom_sample_per_shard : nat) (shard_to_dl : list (list pyval))
    (idx : indices) (o : item_oracle) (key : Z) (img_stream : option bytes)
    (msg err : string) (st : loop_state) (sample_data : list pyval)
    (cap : pyval) :
  (0 <= key)%Z →
  shard_to_dl !! Z.to_nat key = Some sample_data →
  increment_fault o = None →
  write_fault o = Some err →
  caption_is idx sample_data cap →
  iteration self shard_id oom_sample_per_shard shard_to_dl idx o
    (key, img_stream, Some msg) st
  = (inr tt,
     mk_loop
       (trace st
        ++ [ EIncrement msg;
             EPrint ("Sample " ++ Key.str_int key ++ " failed to download: " ++ err);
             ERelease ])
       (successes st) (failed_to_download st + 1) (failed_to_resize st)).
Proof.
  intros Hkey Hrow Hinc Hwr Hcap.
  unfold iteration, try_except, try_body.
  unfold bind at 1. unfold bind at 1.
  rewrite (py_index_ok shard_to_dl key sample_data st Hkey Hrow).
  unfold bind, add_failed_to_download, increment, write, release, emit, modify,
    ret, raise.
  rewrite Hinc, Hwr. cbn [fst snd trace successes failed_to_download failed_to_resize].
  rewrite (caption_of_ok idx sample_data cap _ Hcap).
  cbn [fst snd trace successes failed_to_download failed_to_resize].
  rewrite <- !app_assoc. reflexivity.
Qed.

Definition idx_hash_ex : indices := mk_indices 0 None (Some 1) None.

Definition rows_hash_ex : list (list pyval) :=
  [ [PStr "http://a.example/0.png"; PStr "0cc175b9c0f1b6a831c399e269772661"] ].

Definition oracle_hash_ex : item_oracle :=
  mk_oracle None None (inr "92eb5ffee6ae2fec3ad71c777531578f"%string)
    (inl "the resizer is not called"%string) (inl EmptyString) (inr EmptyString).

Lemma hash_mismatch_turn_witness :
  ∃ meta,
    iteration self_ex 3 4 rows_hash_ex idx_hash_ex oracle_hash_ex
      (0%Z, Some [Byte.x89], None) (mk_loop [] 0 0 0)
    = (inr tt,
       mk_loop
         ([] ++ [ EIncrement "hash mismatch";
                  EWrite None (Key.compute_key 0 3 4 (oom_shard_count self_ex))
                    PNone meta;
                  ERelease ])
         0 (0 + 1) 0)
    ∧ meta !! "status"%string = Some (PStr "failed_to_download")
    ∧ meta !! "error_message"%string = Some (PStr "hash mismatch").
Proof.
  apply (hash_mismatch_turn self_ex 3 4 rows_hash_ex idx_hash_ex oracle_hash_ex
           0%Z [Byte.x89] (mk_loop [] 0 0 0)
           [PStr "http://a.example/0.png"; PStr "0cc175b9c0f1b6a831c399e269772661"]
           1 (PStr "0cc175b9c0f1b6a831c399e269772661") PNone
           "92eb5ffee6ae2fec3ad71c777531578f");
    first [ reflexivity | lia | discriminate ].
Defined.

Lemma failed_write_is_still_counted_witness :
  iteration self_ex 3 4 rows_ex idx_ex oracle_ex
    (2%Z, None, Some "timed out"%string) (mk_loop [] 0 0 0)
  = (inr tt,
     mk_loop
       ([] ++ [ EIncrement "timed out";
                EPrint ("Sample " ++ Key.str_int 2 ++ " failed to download: "
                        ++ "disk full");
                ERelease ])
       0 (0 + 1) 0).
Proof.
  apply (failed_write_is_still_counted self_ex 3 4 rows_ex idx_ex oracle_ex 2%Z
           None "timed out" "disk full" (mk_loop [] 0 0 0)
           [PStr "http://a.invalid/2.png"] PNone);
    first [ reflexivity | lia ].
Defined.

(** *** The end of a shard *)

Lemma list_index_None (x : string) (l : list string) :
  list_index x l = None ↔ x ∉ l.
Proof.
  induction l as [|y l IH]; cbn [list_index].
  - split; [intros _; apply not_elem_of_nil | done].
  - rewrite not_elem_of_cons. case_decide as Hy.
    + subst y. split; [done | by intros [? _]].
    + rewrite fmap_None, IH. split; [by intros ? | by intros [_ ?]].
Qed.

(** [l.index(x)] answers the first position that holds [x]. *)
Lemma list_index_Some (x : string) (l : list string) : ∀ i,
  list_index x l = Some i → l !! i = Some x ∧ ∀ j, j < i → l !! j ≠ Some x.
Proof.
  induction l as [|y l IH]; intros i; cbn [list_index]; [done|].
  case_decide as Hy.
  - intros [= <-]. subst y. split; [done | intros j Hj; lia].
  - destruct (list_index x l) as [i'|]; [|done]. intros [= <-].
    destruct (IH i' eq_refl) as [Hi Hfirst]. split; [done|].
    intros [|j] Hj; cbn; [by intros [=] | apply Hfirst; lia].
Qed.

Ltac run_shard :=
  unfold Downloader_call, download_shard, bind, lift, index_of, fault, on_loop,
         zoom, emit, modify, ret, raise;
  cbn [fst snd];
  repeat (case_match; simplify_eq);
  cbn [fst snd loop closed report removed fresh_shard].

(** X23: the input file of a shard is removed exactly when the call reports
    [True]; by then the writer has been closed and the statistics written;
    and statistics are never written before the writer is closed. *)
Theorem shard_removed_only_when_done (self : Downloader) (env : shard_env)
    (row : Z * string) :
  let r := Downloader_call self env row fresh_shard in
  (removed r.2 = true ↔ r.1.1 = true)
  ∧ (removed r.2 = true → closed r.2 = true ∧ is_Some (report r.2))
  ∧ (is_Some (report r.2) → closed r.2 = true)
  ∧ r.1.2 = row.
Proof.
  destruct row as [shard_id shard_file]. intros r. subst r.
  run_shard; repeat split; try done; try (by intros [? [=]]); eauto.
Qed.

(** X24: when the column list has no "url" column, the call on a shard
    reports [False] and nothing else has happened but a printed line: no
    record written, no unit released, the writer not closed, no
    statistics, the input file kept. *)
Theorem shard_without_url_column (self : Downloader) (env : shard_env)
    (row : Z * string) :
  "url"%string ∉ column_list self →
  let r := Downloader_call self env row fresh_shard in
  r.1 = (false, row)
  ∧ closed r.2 = false ∧ report r.2 = None ∧ removed r.2 = false
  ∧ ∃ text, trace (loop r.2) = [EPrint text].
Proof.
  intros Hurl%list_index_None. destruct row as [shard_id shard_file].
  intros r. subst r.
  unfold Downloader_call, download_shard, bind, lift, index_of, on_loop, zoom,
    emit, modify, ret, raise.
  rewrite Hurl. cbn [fst snd].
  destruct (read_shard env shard_file) as [e|shard_to_dl];
    cbn [fst snd loop closed report removed fresh_shard trace];
    repeat split; eauto.
Qed.

Lemma shard_without_url_column_witness :
  (Downloader_call (mk_downloader 1 false ["URL"%string] 5 None None None false None)
     env_ex (3%Z, "shard_3.feather"%string) fresh_shard).1
  = (false, (3%Z, "shard_3.feather"%string)).
Proof.
  refine (proj1 (shard_without_url_column
                   (mk_downloader 1 false ["URL"%string] 5 None None None false None)
                   env_ex (3%Z, "shard_3.feather"%string) _)).
  apply list_index_None. reflexivity.
Defined.

Lemma main_loop_returned (self : Downloader) (shard_id : Z)
    (oom_sample_per_shard : nat) (shard_to_dl : list (list pyval))
    (idx : indices) (results : list ((string + Fetch.outcome) * item_oracle)) :
  ∀ st st',
    main_loop self shard_id oom_sample_per_shard shard_to_dl idx results st
    = (inr tt, st') →
    count_release (trace st') = count_release (trace st) + length results.
Proof.
  induction results as [|[[e|r] o] results IH]; intros st st' Hrun;
    cbn [main_loop] in Hrun.
  - injection Hrun as <-. cbn [length]. lia.
  - discriminate Hrun.
  - unfold bind in Hrun.
    destruct (iteration_releases_once self shard_id oom_sample_per_shard
                shard_to_dl idx o r st) as (st1 & E & H1).
    rewrite E in Hrun. apply IH in Hrun. rewrite Hrun, H1. cbn [length]. lia.
Qed.

(** X25: with a resolver in use, the statistics carry the size, the hits
    and the misses its cache reports; if reading them raises, no statistics
    are written, the input file is kept and [download_shard] does not run
    to its end; and when the writer was closed by then, every result has
    gone through its loop turn, one released unit each, and the exception
    raised is the one of the reading. *)
Theorem dns_figures_with_resolver (self : Downloader) (env : shard_env)
    (row : Z * string) (res : string + unit) (st' : shard_state)
    (r : Fetch.Resolver) :
  resolver_in_use self env = Some r →
  download_shard self env row fresh_shard = (res, st') →
  (∀ rep, report st' = Some rep →
     Fetch.cache_figures r
     = inr (dns_cache_size rep, dns_cache_hits rep, dns_cache_misses rep))
  ∧ (∀ e, Fetch.cache_figures r = inl e →
       report st' = None ∧ removed st' = false ∧ res ≠ inr tt
       ∧ (closed st' = true →
          res = inl e
          ∧ count_release (trace (loop st')) = length (arrivals env))).
Proof.
  intros Hr. destruct row as [shard_id shard_file].
  unfold download_shard. rewrite Hr.
  unfold bind, lift, index_of, fault, on_loop, zoom, modify, ret, raise.
  cbn [fst snd].
  repeat (case_match; simplify_eq); intros [= <- <-];
    cbn [report removed closed loop fresh_shard];
    (split; [intros rep' ?; simplify_eq; try done; by cbn
            | intros err' ?; simplify_eq; try done]).
  all: (split; [done|]); (split; [done|]); (split; [done|]).
  all: cbn; try (by intros [=]).
  all: intros _; split; [done|].
  all: match goal with
       | H : main_loop _ _ _ _ _ _ _ = (inr ?u, _) |- _ =>
           destruct u; apply main_loop_returned in H; rewrite H; reflexivity
       end.
Qed.

Definition resolver_figures_ex : Fetch.Resolver :=
  Fetch.mk_resolver (λ _ _ _, inr "93.184.216.34"%string) (inr (10, 7, 3)%Z).

Definition self_dns_ex : Downloader :=
  mk_downloader 1 false ["url"%string] 5 None None None true None.

Definition env_dns_ex : shard_env :=
  mk_env (λ _, inr rows_ex) None (inr 4) resolver_figures_ex [] None None None.

Lemma dns_figures_with_resolver_witness :
  ∃ rep,
    report (download_shard self_dns_ex env_dns_ex
              (3%Z, "shard_3.feather"%string) fresh_shard).2 = Some rep
    ∧ Fetch.cache_figures resolver_figures_ex
      = inr (dns_cache_size rep, dns_cache_hits rep, dns_cache_misses rep).
Proof.
  destruct (report (download_shard self_dns_ex env_dns_ex
                      (3%Z, "shard_3.feather"%string) fresh_shard).2)
    as [rep|] eqn:Hrep.
  - exists rep. split; [reflexivity|].
    exact (proj1 (dns_figures_with_resolver self_dns_ex env_dns_ex
                    (3%Z, "shard_3.feather"%string) _ _ resolver_figures_ex
                    eq_refl (surjective_pairing _)) rep Hrep).
  - vm_compute in Hrep. discriminate Hrep.
Defined.

(** *** Progress of the pipeline *)

Section Progress.
Variable self : Downloader.
Variable shard_id : Z.
Variable oom_sample_per_shard : nat.
Variable shard_to_dl : list (list pyval).
Variable idx : indices.

#[local] Abbreviation step :=
  (step self shard_id oom_sample_per_shard shard_to_dl idx).
#[local] Abbreviation run :=
  (run self shard_id oom_sample_per_shard shard_to_dl idx).

(** What is left to do: three steps for a row not yet reached (two when its
    unit is already acquired), one for a row in flight. *)
Definition remaining (p : pipeline) : nat :=
  3 * length (todo p) + length (in_flight p) - (if holding p then 1 else 0).

(** The generator holds a unit only for a row it is about to yield. *)
Definition holds_for_a_row (p : pipeline) : Prop :=
  holding p = true → todo p ≠ [].

Lemma step_remaining (a : action) (p p' : pipeline) :
  holds_for_a_row p → step a p = Some p' →
  holds_for_a_row p' ∧ S (remaining p') = remaining p.
Proof.
  unfold holds_for_a_row, remaining. intros Hh Hs.
  destruct a as [| |i o img_stream error_message].
  - unfold Shard.step in Hs. destruct (holding p) eqn:Hhold; [done|].
    destruct (todo p) as [|e rest] eqn:Htodo; [done|].
    destruct (permits p) as [|n]; [done|].
    injection Hs as <-. cbn [holding todo in_flight].
    split; [done|]. cbn [length]. lia.
  - unfold Shard.step in Hs. destruct (holding p) eqn:Hhold; [|done].
    destruct (todo p) as [|e rest] eqn:Htodo; [done|].
    injection Hs as <-. cbn [holding todo in_flight].
    split; [done|]. rewrite length_app. cbn [length]. lia.
  - apply (step_finish self shard_id oom_sample_per_shard shard_to_dl idx) in Hs
      as (_ & Hl & Hhold & Htodo).
    rewrite Hhold, Htodo. split; [done|].
    destruct (holding p) eqn:E; [|lia].
    specialize (Hh eq_refl). destruct (todo p); [done|]. cbn [length]. lia.
Qed.

Lemma run_remaining (schedule : list action) : ∀ p p',
  holds_for_a_row p → run schedule p = Some p' →
  holds_for_a_row p' ∧ length schedule + remaining p' = remaining p.
Proof.
  induction schedule as [|a schedule IH]; intros p p' Hh Hr; cbn [Shard.run] in Hr.
  - injection Hr as <-. by split.
  - destruct (step a p) as [p1|] eqn:Hs; [|done].
    destruct (step_remaining a p p1 Hh Hs) as [Hh1 Hrem].
    destruct (IH p1 p' Hh1 Hr) as [Hh' Hlen]. split; [done|].
    cbn [length]. lia.
Qed.

End Progress.

End ShardFacts.

(** ** Leaving the pool

    [imap_unordered] hands the generator to the task handler thread of the
    pool: that thread runs [semaphore.acquire()] and [yield e], and looks at
    the state of the pool after each row it gets.  The results reach the
    [for] statement in the order the workers finish.  When a worker raises,
    its exception comes out of the iterator at the [for] statement, which is
    outside the [try] of the loop body: the loop is left, and the rows in
    flight keep their units.  Leaving the [with] block calls
    [ThreadPool.__exit__], that is [terminate()], which marks the task
    handler and joins it, without a timeout.  A handler that stands in
    [semaphore.acquire()] with no unit free stays there, since only the loop
    gives units back: the join, and with it the call, never returns. *)

Module Pool.
Import Exc Shard.
Local Open Scope exc_scope.

Inductive fate (A : Type) : Type :=
| Returns (a : A)
| NeverReturns.     (* the main thread stays in [task_handler.join()] *)
Arguments Returns {A} a.
Arguments NeverReturns {A}.

Section Block.
Variable self : Downloader.
Variable shard_id : Z.
Variable oom_sample_per_shard : nat.
Variable shard_to_dl : list (list pyval).
Variable idx : indices.

(** The generator has rows left, holds no unit, and no unit is free: the
    task handler stands in [semaphore.acquire()]. *)
Definition blocked (p : pipeline) : bool :=
  negb (holding p) && negb (bool_decide (todo p = []))
  && bool_decide (permits p = 0).

(** Every row was yielded and went through its loop turn: the iterator is
    at its end. *)
Definition exhausted (p : pipeline) : bool :=
  bool_decide (todo p = []) && negb (holding p)
  && bool_decide (in_flight p = []).

(** The [for] statement: the moves of the generator and of the workers that
    return, each result with its loop turn, up to the end of the iterator
    or, with [raiser = Some (i, err)], up to the result of the [i]-th row in
    flight, whose worker raised [err].  Moves of the task handler between
    that exception and [terminate()] are counted among [moves]: they touch
    nothing the exception does.  After [terminate()] the handler leaves at
    the next row it gets, so it is joined unless it is [blocked].  [None]:
    not a run of the loop (a move that cannot happen, or moves missing; a
    worker that stays in its download for ever is not among the moves). *)
Definition for_loop (moves : list action) (raiser : option (nat * string))
    (p0 : pipeline) : option (fate ((string + unit) * loop_state)) :=
  match run self shard_id oom_sample_per_shard shard_to_dl idx moves p0 with
  | None => None
  | Some p =>
      match raiser with
      | None => if exhausted p then Some (Returns (inr tt, p_loop p)) else None
      | Some (i, err) =>
          match in_flight p !! i with
          | Some _ =>
              Some (if blocked p then NeverReturns
                    else Returns (inl err, p_loop p))
          | None => None
          end
      end
  end.

(** What a move puts on the way to the [for] statement. *)
Definition result_of (a : action) (p : pipeline)
    : list ((string + Fetch.outcome) * item_oracle) :=
  match a with
  | Finish i o img_stream error_message =>
      match in_flight p !! i with
      | Some e => [(inr (e.1, img_stream, error_message), o)]
      | None => []
      end
  | _ => []
  end.

Fixpoint results_of (moves : list action) (p : pipeline)
    : list ((string + Fetch.outcome) * item_oracle) :=
  match moves with
  | [] => []
  | a :: rest =>
      match step self shard_id oom_sample_per_shard shard_to_dl idx a p with
      | Some p' => result_of a p ++ results_of rest p'
      | None => []
      end
  end.

(** What [imap_unordered] yields in a run; the oracle that goes with an
    exception is not looked at. *)
Definition arrivals_of (moves : list action) (raiser : option (nat * string))
    (p : pipeline) : list ((string + Fetch.outcome) * item_oracle) :=
  results_of moves p
  ++ match raiser with
     | Some (_, err) => [(inl err, oracle_ex)]
     | None => []
     end.

End Block.

(** [[(key, x[url_indice]) for key, x in shard_to_dl]], the keys counting
    from [key]. *)
Fixpoint key_url_list_of {S} (url_indice : nat) (rows : list (list pyval))
    (key : Z) : M S (list (Z * pyval)) :=
  match rows with
  | [] => ret []
  | x :: rest =>
      url <- item_at x url_indice ;;
      l <- key_url_list_of url_indice rest (key + 1)%Z ;;
      ret ((key, url) :: l)
  end.

(** [download_shard] down to [with ThreadPool(self.thread_count)]. *)
Definition before_pool (self : Downloader) (env : shard_env)
    (shard_file : string)
    : M shard_state (list (list pyval) * indices * list (Z * pyval) * nat) :=
  shard_to_dl <- lift (read_shard env shard_file) ;;
  url_indice <- index_of "url" (column_list self) ;;
  let caption_indice := list_index "caption" (column_list self) in
  let hash_indice :=
    match verify_hash_type self with
    | Some h => list_index h (column_list self)
    | None => None
    end in
  bbox_indice <-
    match blurring_bbox_col self with
    | Some c => i <- index_of c (column_list self) ;; ret (Some i)
    | None => ret None
    end ;;
  let idx := mk_indices url_indice caption_indice hash_indice bbox_indice in
  key_url_list <- key_url_list_of url_indice shard_to_dl 0 ;;
  fault (writer_fault env) ;;
  oom_sample_per_shard <- lift (oom_per_shard env) ;;
  (if decide (thread_count self = 0)
   then raise "Number of processes must be at least 1" else ret tt) ;;
  ret (shard_to_dl, idx, key_url_list, oom_sample_per_shard).

(** [download_shard] from [sample_writer.close()] on. *)
Definition after_loop (self : Downloader) (env : shard_env) (shard_id : Z)
    (count : Z) : M shard_state unit :=
  fault (close_fault env) ;;
  modify (fun st => mk_shard (loop st) true (report st) (removed st)) ;;
  figures <-
    match resolver_in_use self env with
    | Some r =>
        cache_stats <- lift (Fetch.cache_figures r) ;;
        let '(size, hits, misses) := cache_stats in
        ret (hits, misses, size)
    | None => ret (0%Z, count, 0%Z)
    end ;;
  let '(hits, misses, size) := figures in
  fault (stats_fault env) ;;
  modify (fun st =>
    mk_shard (loop st) (closed st)
      (Some (mk_stats shard_id count (successes (loop st))
               (failed_to_download (loop st)) (failed_to_resize (loop st))
               (oom_shard_count self) hits misses size))
      (removed st)) ;;
  fault (rm_fault env) ;;
  modify (fun st => mk_shard (loop st) (closed st) (report st) true).

(** [download_shard(row)] with the threads of the pool: [moves] and [raiser]
    tell what happens inside the [with] block, as for [for_loop]; they are
    not looked at when the call raises before the pool exists.  The results
    of the workers are those of the moves, not [arrivals env]. *)
Definition download_shard (self : Downloader) (env : shard_env)
    (moves : list action) (raiser : option (nat * string)) (row : Z * string)
    : option (fate ((string + unit) * shard_state)) :=
  let '(shard_id, shard_file) := row in
  match before_pool self env shard_file fresh_shard with
  | (inl e, st) => Some (Returns (inl e, st))
  | (inr (shard_to_dl, idx, key_url_list, oom_sample_per_shard), st) =>
      let with_loop l := mk_shard l (closed st) (report st) (removed st) in
      match for_loop self shard_id oom_sample_per_shard shard_to_dl idx moves
              raiser (start self key_url_list) with
      | None => None
      | Some NeverReturns => Some NeverReturns
      | Some (Returns (inl err, l)) => Some (Returns (inl err, with_loop l))
      | Some (Returns (inr _, l)) =>
          Some (Returns (after_loop self env shard_id
                           (Z.of_nat (length shard_to_dl)) (with_loop l)))
      end
  end.

(** [Downloader.__call__] *)
Definition Downloader_call (self : Downloader) (env : shard_env)
    (moves : list action) (raiser : option (nat * string)) (row : Z * string)
    : option (fate ((bool * (Z * string)) * shard_state)) :=
  match download_shard self env moves raiser row with
  | None => None
  | Some NeverReturns => Some NeverReturns
  | Some (Returns (inr _, st')) => Some (Returns ((true, row), st'))
  | Some (Returns (inl err, st')) =>
      Some (Returns
              ((false, row),
               (on_loop (emit (EPrint ("shard " ++ Key.str_int row.1
                                       ++ " failed with error " ++ err)%string))
                  st').2))
  end.

(** The same collaborators, with other results on the way. *)
Definition with_arrivals (env : shard_env)
    (l : list ((string + Fetch.outcome) * item_oracle)) : shard_env :=
  mk_env (read_shard env) (writer_fault env) (oom_per_shard env)
    (setup_resolver env) l (close_fault env) (stats_fault env) (rm_fault env).

(** A shard of three rows on one thread, every collaborator in order. *)
Definition env_pool_ex : shard_env :=
  mk_env (λ _, inr rows_ex) None (inr 4) (Fetch.resolver_ex "0.0.0.0") []
    None None None.

(** The generator runs ahead of the worker: two rows are in flight, the
    third waits for a unit. *)
Definition ahead_ex : list action := [Acquire; Yield; Acquire; Yield].

(** *** When the call returns *)

Section BlockFacts.
Variable self : Downloader.
Variable shard_id : Z.
Variable oom_sample_per_shard : nat.
Variable shard_to_dl : list (list pyval).
Variable idx : indices.

#[local] Abbreviation step :=
  (step self shard_id oom_sample_per_shard shard_to_dl idx).
#[local] Abbreviation run :=
  (run self shard_id oom_sample_per_shard shard_to_dl idx).
#[local] Abbreviation for_loop :=
  (for_loop self shard_id oom_sample_per_shard shard_to_dl idx).

Lemma for_loop_raise (moves : list action) (i : nat) (err : string)
    (p0 p : pipeline) :
  run moves p0 = Some p → is_Some (in_flight p !! i) →
  for_loop moves (Some (i, err)) p0
  = Some (if blocked p then NeverReturns else Returns (inl err, p_loop p)).
Proof.
  intros Hrun [e He]. unfold Pool.for_loop. by rewrite Hrun, He.
Qed.

(** With the units all accounted for, the handler is blocked exactly when
    rows are left and [2 * thread_count] rows are in flight. *)
Lemma blocked_full (p : pipeline) :
  balanced self p →
  blocked p = true
  ↔ todo p ≠ [] ∧ length (in_flight p) = 2 * thread_count self.
Proof.
  unfold balanced, blocked. intros Hb.
  rewrite !andb_true_iff, !negb_true_iff, bool_decide_eq_false,
    bool_decide_eq_true.
  split.
  - intros [[Hh Ht] Hp]. rewrite Hh, Hp in Hb. split; [done | lia].
  - intros [Ht Hl]. destruct (holding p); [lia|]. repeat split; [done | lia].
Qed.

#[local] Abbreviation main_loop :=
  (main_loop self shard_id oom_sample_per_shard shard_to_dl idx).
#[local] Abbreviation results_of :=
  (results_of self shard_id oom_sample_per_shard shard_to_dl idx).

Lemma main_loop_results (moves : list action) :
  ∀ p p' rest,
    run moves p = Some p' →
    main_loop (results_of moves p ++ rest) (p_loop p)
    = main_loop rest (p_loop p').
Proof.
  induction moves as [|a moves IH]; intros p p' rest Hrun; cbn [Shard.run] in Hrun.
  - by injection Hrun as <-.
  - cbn [results_of]. destruct (step a p) as [p1|] eqn:Hs; [|done].
    rewrite <- app_assoc, <- (IH p1 p' rest Hrun).
    destruct a as [| |i o img_stream error_message]; cbn [result_of].
    + unfold Shard.step in Hs. destruct (holding p); [done|].
      destruct (todo p), (permits p); try done. by injection Hs as <-.
    + unfold Shard.step in Hs. destruct (holding p); [|done].
      destruct (todo p); [done|]. by injection Hs as <-.
    + unfold Shard.step in Hs. destruct (in_flight p !! i) as [e|]; [|done].
      injection Hs as <-. cbn [app Shard.main_loop p_loop]. unfold bind.
      destruct (iteration_releases_once self shard_id oom_sample_per_shard
                  shard_to_dl idx o (e.1, img_stream, error_message) (p_loop p))
        as (st1 & E & _).
      by rewrite E.
Qed.

(** X26: as long as the workers hand back results, and with at least one
    thread, the pipeline never blocks: in every state reached from the
    start either every row has been yielded and has gone through its loop
    turn, or some move can happen (a row in flight finishes, the generator
    yields on the unit it holds, or takes a free unit); every move brings
    the end one step nearer, so a shard of [n] rows is through after exactly
    [3 * n] moves.  A worker that raises is what stops it: the loop is left,
    and leaving the pool never returns exactly when rows are left to yield
    and [2 * thread_count] rows are in flight. *)
Theorem progress_until_a_worker_raises (key_url_list : list (Z * pyval))
    (moves : list action) (p : pipeline) :
  1 ≤ thread_count self →
  run moves (start self key_url_list) = Some p →
  length moves + ShardFacts.remaining p = 3 * length key_url_list
  ∧ ((exhausted p = true ∧ length moves = 3 * length key_url_list)
     ∨ ∃ a p', step a p = Some p')
  ∧ ∀ i err, is_Some (in_flight p !! i) →
      ∃ f, for_loop moves (Some (i, err)) (start self key_url_list) = Some f
        ∧ (f = NeverReturns
           ↔ todo p ≠ [] ∧ length (in_flight p) = 2 * thread_count self).
Proof.
  intros Htc Hrun.
  destruct (ShardFacts.run_remaining self shard_id oom_sample_per_shard
              shard_to_dl idx moves (start self key_url_list) p)
    as [Hh Hlen]; [done | done |].
  assert (ShardFacts.remaining (start self key_url_list)
          = 3 * length key_url_list) as Hstart.
  { unfold ShardFacts.remaining, start. cbn [todo in_flight holding length]. lia. }
  rewrite Hstart in Hlen.
  assert (balanced self p) as Hb.
  { eapply run_balanced; [|exact Hrun]. unfold balanced, start. simpl. lia. }
  split; [exact Hlen|]. split.
  - unfold balanced in Hb. unfold exhausted.
    destruct (in_flight p) as [|e rest] eqn:Hfl.
    + destruct (holding p) eqn:Hhold.
      * right. specialize (Hh Hhold).
        destruct (todo p) as [|e' rest'] eqn:Htodo; [done|].
        exists Yield. eexists. unfold Shard.step. by rewrite Hhold, Htodo.
      * destruct (todo p) as [|e' rest'] eqn:Htodo.
        -- left. split; [done|].
           unfold ShardFacts.remaining in Hlen.
           rewrite Htodo, Hfl, Hhold in Hlen. cbn [length] in Hlen. lia.
        -- right. cbn [length] in Hb.
           destruct (permits p) as [|n] eqn:Hp; [lia|].
           exists Acquire. eexists. unfold Shard.step.
           by rewrite Hhold, Htodo, Hp.
    + right. exists (Finish 0 oracle_ex None None). eexists.
      unfold Shard.step. by rewrite Hfl.
  - intros i err Hi. eexists. split; [by apply for_loop_raise|].
    rewrite <- (blocked_full p Hb). destruct (blocked p); [done|].
    split; [done | intros [=]].
Qed.

End BlockFacts.

Lemma key_url_list_of_state {S} url_indice rows : ∀ key (st : S) r st',
  key_url_list_of url_indice rows key st = (r, st') → st' = st.
Proof.
  induction rows as [|x rows IH]; intros key st r st' H;
    cbn [key_url_list_of] in H.
  - by injection H as _ <-.
  - unfold bind, item_at, py_index, ret, raise in H.
    repeat case_match; simplify_eq; try done.
    all: match goal with
         | E : key_url_list_of _ _ _ _ = _ |- _ => by apply IH in E
         end.
Qed.

(** A run of the call that returns is the run of [Shard.download_shard] over
    the results in the order they arrived. *)
Lemma returning_run_is_sequential (self : Downloader) (env : shard_env)
    (moves : list action) (raiser : option (nat * string)) (shard_id : Z)
    (shard_file : string) (shard_to_dl : list (list pyval)) (idx : indices)
    (key_url_list : list (Z * pyval)) (oom_sample_per_shard : nat)
    (st : shard_state) (res : string + unit) (st' : shard_state) :
  before_pool self env shard_file fresh_shard
  = (inr (shard_to_dl, idx, key_url_list, oom_sample_per_shard), st) →
  Pool.download_shard self env moves raiser (shard_id, shard_file)
  = Some (Returns (res, st')) →
  Shard.download_shard self
    (with_arrivals env
       (arrivals_of self shard_id oom_sample_per_shard shard_to_dl idx moves
          raiser (start self key_url_list)))
    (shard_id, shard_file) fresh_shard
  = (res, st').
Proof.
  intros Hpre Hrun. unfold Pool.download_shard in Hrun. rewrite Hpre in Hrun.
  unfold for_loop in Hrun.
  destruct (run self shard_id oom_sample_per_shard shard_to_dl idx moves
              (start self key_url_list)) as [p|] eqn:Hmoves; [|done].
  pose proof (main_loop_results self shard_id oom_sample_per_shard shard_to_dl
                idx moves _ _
                match raiser with
                | Some (_, err) => [(inl err, oracle_ex)]
                | None => []
                end Hmoves) as Hloop.
  fold (arrivals_of self shard_id oom_sample_per_shard shard_to_dl idx moves
          raiser (start self key_url_list)) in Hloop.
  unfold before_pool, bind, lift, index_of, fault, ret, raise in Hpre.
  destruct (read_shard env shard_file) as [?|rows] eqn:Hread; [done|].
  destruct (list_index "url" (column_list self)) as [u|] eqn:Hurl; [|done].
  unfold Shard.download_shard, bind, lift, index_of, fault, on_loop, zoom, ret,
    raise.
  cbn [read_shard writer_fault oom_per_shard arrivals with_arrivals
       close_fault stats_fault rm_fault].
  rewrite Hread, Hurl.
  destruct (blurring_bbox_col self) as [c|];
    [destruct (list_index c (column_list self)) as [bi|]; [|done]|];
    (destruct (key_url_list_of u rows 0 fresh_shard) as [[?|kul] s3] eqn:Hk;
     [done|]; apply key_url_list_of_state in Hk as Hs3; subst s3);
    (destruct (writer_fault env); [done|]);
    (destruct (oom_per_shard env) as [?|oom]; [done|]);
    (destruct (decide (thread_count self = 0)); [done|]);
    injection Hpre as <- <- <- <- <-.
  all: cbn [fst snd loop closed report removed fresh_shard] in *.
  all: change (mk_loop [] 0 0 0) with (p_loop (start self kul)).
  all: rewrite Hloop.
  all: clear Hloop Hmoves Hk.
  all: destruct raiser as [[i err]|].
  all: cbn [Shard.main_loop]; unfold raise, ret.
  all: try (destruct (in_flight p !! i); [|done]; destruct (blocked p); [done|];
            by injection Hrun as <- <-).
  all: destruct (exhausted p); [|done].
  all: injection Hrun as Hrun; rewrite <- Hrun.
  all: reflexivity.
Qed.

Lemma progress_until_a_worker_raises_witness :
  ∃ p,
    run self_ex 3 4 rows_ex idx_ex ahead_ex (start self_ex key_url_list_ex)
    = Some p
    ∧ length ahead_ex + ShardFacts.remaining p = 3 * length key_url_list_ex
    ∧ ∃ f, for_loop self_ex 3 4 rows_ex idx_ex ahead_ex
             (Some (0, Fetch.unbound_local "key")) (start self_ex key_url_list_ex)
           = Some f
        ∧ (f = NeverReturns
           ↔ todo p ≠ [] ∧ length (in_flight p) = 2 * thread_count self_ex).
Proof.
  destruct (run self_ex 3 4 rows_ex idx_ex ahead_ex
              (start self_ex key_url_list_ex)) as [p|] eqn:Hrun.
  - exists p. split; [reflexivity|].
    destruct (progress_until_a_worker_raises self_ex 3 4 rows_ex idx_ex
                key_url_list_ex ahead_ex p) as (Hlen & _ & Hraise);
      [cbn; lia | exact Hrun |].
    split; [exact Hlen|].
    apply Hraise. vm_compute in Hrun. injection Hrun as <-. by eexists.
  - vm_compute in Hrun. discriminate Hrun.
Defined.

(** C7: a call on a shard does not always come back.  With [retries = -1]
    every worker raises (the local [key] is unbound at the final [return]
    of [download_image_with_retry]); on a shard of three rows and one
    thread, when the generator has run ahead of the first result, that
    exception leaves the loop without a release and the call never returns:
    neither [(False, row)] nor anything else comes back.  Had the generator
    taken one unit only, the same exception would reach [__call__] and
    [(False, row)] would come back. *)
Theorem worker_exception_never_returns :
  let err := Fetch.unbound_local "key" in
  let row := (3%Z, "shard_3.feather"%string) in
  (∀ urlparse_hostname urlopen is_disallowed rand fuel item timeout
     user_agent_token disallowed_header_directives resolver dns_num_retries w,
     Fetch.download_image_with_retry urlparse_hostname urlopen is_disallowed
       rand fuel item timeout (-1)%Z user_agent_token
       disallowed_header_directives resolver dns_num_retries w
     = Some (inl err, w))
  ∧ Downloader_call self_ex env_pool_ex ahead_ex (Some (0, err)) row
    = Some NeverReturns
  ∧ ∃ st,
      Downloader_call self_ex env_pool_ex [Acquire; Yield] (Some (0, err)) row
      = Some (Returns ((false, row), st)).
Proof.
  split; [reflexivity|]. split; [by vm_compute|].
  eexists. by vm_compute.
Qed.

End Pool.

(** ** Resolver set-up: [Downloader.__init__], [_setup_cache_pool],
       [_setup_dns_resolver] *)

Module Setup.
Import Exc.
Local Open Scope exc_scope.
Local Open Scope Z_scope.

(** [redis.ConnectionPool(host=..., port=..., max_connections=...)] *)
Record ConnectionPool : Type := mk_pool {
  host : string;
  port : Z;
  max_connections : Z
}.

Inductive cache_object : Type :=
| LRUCache (max_size : Z)            (* dns.resolver.LRUCache(max_size=...) *)
| LRUCacheRedis (pool : ConnectionPool).

(** [dns.resolver.Resolver(configure=False)]: its [cache] attribute, [None]
    until one is assigned. *)
Record resolver_object : Type := mk_resolver {
  r_cache : option cache_object
}.

(** The attributes of a [Downloader] the set-up reads and writes. *)
Record instance : Type := mk_instance {
  thread_count : Z;
  resolver : option resolver_object;
  use_public_dns : bool;
  dns_cache_host : string;
  cache_pool_initialized : bool;
  cache_type : string;
  cache_size : Z;
  cache : option cache_object
}.

(** The class attribute [Downloader._cache_pool], one per process, and the
    instance at hand. *)
Record state : Type := mk_state {
  _cache_pool : option ConnectionPool;
  self : instance
}.

Definition _VALID_CACHE_TYPES : list string :=
  ["individual_lru"; "shared_lru"; "redis"]%string.

Definition __init__ (thread_count : Z) (use_public_dns : bool)
    (dns_cache_host dns_cache_type : string) (dns_cache_size : Z)
    : string + instance :=
  if bool_decide (dns_cache_type ∈ _VALID_CACHE_TYPES)
  then inr (mk_instance thread_count None use_public_dns dns_cache_host false
              dns_cache_type dns_cache_size None)
  else inl ("ValueError: Invalid DNS cache type: " ++ dns_cache_type)%string.

Definition set_class_pool (p : ConnectionPool) : M state unit :=
  modify (λ s, mk_state (Some p) (self s)).

Definition set_initialized : M state unit :=
  modify (λ s, let d := self s in
    mk_state (_cache_pool s)
      (mk_instance (thread_count d) (resolver d) (use_public_dns d)
         (dns_cache_host d) true (cache_type d) (cache_size d) (cache d))).

Definition set_cache (c : cache_object) : M state unit :=
  modify (λ s, let d := self s in
    mk_state (_cache_pool s)
      (mk_instance (thread_count d) (resolver d) (use_public_dns d)
         (dns_cache_host d) (cache_pool_initialized d) (cache_type d)
         (cache_size d) (Some c))).

Definition set_resolver (r : resolver_object) : M state unit :=
  modify (λ s, let d := self s in
    mk_state (_cache_pool s)
      (mk_instance (thread_count d) (Some r) (use_public_dns d)
         (dns_cache_host d) (cache_pool_initialized d) (cache_type d)
         (cache_size d) (cache d))).

(** [redis.ConnectionPool(...)] opens no connection; it is taken here for a
    thread count that is not negative (on a negative [max_connections] the
    constructor raises [ValueError]). *)
Definition _setup_cache_pool : M state unit :=
  d <- gets self ;;
  if String.eqb (cache_type d) "redis" then
    pool <- gets _cache_pool ;;
    match pool with
    | None => set_class_pool (mk_pool (dns_cache_host d) 6379 (2 * thread_count d))
    | Some _ => ret tt
    end ;;
    set_initialized
  else if String.eqb (cache_type d) "shared_lru" then
    set_cache (LRUCache (cache_size d)) ;;
    set_initialized
  else if String.eqb (cache_type d) "individual_lru" then
    set_initialized
  else ret tt.

Definition _setup_dns_resolver : M state unit :=
  set_resolver (mk_resolver None) ;;
  d <- gets self ;;
  if String.eqb (cache_type d) "redis" then
    pool <- gets _cache_pool ;;
    match pool with
    | None => raise "AssertionError"
    | Some p => set_resolver (mk_resolver (Some (LRUCacheRedis p)))
    end
  else if String.eqb (cache_type d) "individual_lru" then
    set_resolver (mk_resolver (Some (LRUCache (cache_size d))))
  else if String.eqb (cache_type d) "shared_lru" then
    match cache d with
    | None => raise "AssertionError"
    | Some c => set_resolver (mk_resolver (Some c))
    end
  else ret tt.

(** Where the rest of [download_shard] raises, if it does: between the
    set-up of the pool and that of the resolver (reading the shard, the
    column positions, the writer), or between the set-up of the resolver
    and the figures of the cache (the loop, closing the writer). *)
Inductive fault : Type := NoFault | BeforeResolver | AfterResolver.

(** The part of [download_shard] that deals with the resolver. *)
Definition download_shard (f : fault) : M state unit :=
  d <- gets self ;;
  (if use_public_dns d then
     if negb (cache_pool_initialized d) then _setup_cache_pool else ret tt
   else ret tt) ;;
  (if f is BeforeResolver then raise "Exception" else ret tt) ;;
  d <- gets self ;;
  (if bool_decide (resolver d = None) && use_public_dns d
   then _setup_dns_resolver else ret tt) ;;
  (if f is AfterResolver then raise "Exception" else ret tt) ;;
  d <- gets self ;;
  match resolver d with
  | Some r => if r_cache r is None then raise "AssertionError" else ret tt
  | None => ret tt
  end.

(** One call after the other on the same instance, in the same process. *)
Fixpoint download_shards (faults : list fault) (s : state)
    : list (string + unit) * state :=
  match faults with
  | [] => ([], s)
  | f :: rest =>
      let '(r, s1) := download_shard f s in
      let '(rs, s2) := download_shards rest s1 in
      (r :: rs, s2)
  end.

Definition outcome (f : fault) : string + unit :=
  match f with
  | NoFault => inr tt
  | _ => inl "Exception"%string
  end.

(** The cache a resolver of this instance gets, given the pool of the
    process. *)
Definition cache_for (pool : option ConnectionPool) (d : instance)
    : option cache_object :=
  if String.eqb (cache_type d) "redis" then LRUCacheRedis <$> pool
  else Some (LRUCache (cache_size d)).

(** What holds between two calls. *)
Record consistent (s : state) : Prop := mk_consistent {
  valid_type : cache_type (self s) ∈ _VALID_CACHE_TYPES;
  off_is_idle : use_public_dns (self s) = false →
                resolver (self s) = None;
  pool_is_up : cache_pool_initialized (self s) = true →
               (cache_type (self s) = "redis"%string → is_Some (_cache_pool s))
               ∧ (cache_type (self s) = "shared_lru"%string →
                  cache (self s) = Some (LRUCache (cache_size (self s))));
  resolver_has_cache : ∀ r, resolver (self s) = Some r →
                       is_Some (r_cache r) ∧ r_cache r = cache_for (_cache_pool s) (self s)
                       ∧ cache_pool_initialized (self s) = true
}.

Lemma valid_type_cases (t : string) :
  t ∈ _VALID_CACHE_TYPES →
  t = "individual_lru"%string ∨ t = "shared_lru"%string ∨ t = "redis"%string.
Proof.
  unfold _VALID_CACHE_TYPES. rewrite !elem_of_cons, elem_of_nil. tauto.
Qed.

Lemma init_consistent thread_count use_public_dns dns_cache_host dns_cache_type
    dns_cache_size pool d :
  __init__ thread_count use_public_dns dns_cache_host dns_cache_type
    dns_cache_size = inr d →
  consistent (mk_state pool d)
  ∧ resolver d = None ∧ Setup.use_public_dns d = use_public_dns
  ∧ Setup.thread_count d = thread_count ∧ Setup.dns_cache_host d = dns_cache_host
  ∧ cache_type d = dns_cache_type ∧ cache_size d = dns_cache_size.
Proof.
  unfold __init__. case_bool_decide as Hv; [|done]. intros [= <-].
  split; [|done]. by split.
Qed.

(** The attributes no call changes. *)
Definition same_settings (d d' : instance) : Prop :=
  thread_count d' = thread_count d ∧ use_public_dns d' = use_public_dns d
  ∧ dns_cache_host d' = dns_cache_host d ∧ cache_type d' = cache_type d
  ∧ cache_size d' = cache_size d.

(** The pool of the process, once there, stays. *)
Definition pool_kept (s s' : state) : Prop :=
  ∀ p, _cache_pool s = Some p → _cache_pool s' = Some p.

Ltac settle :=
  repeat first
    [ progress intros
    | progress simplify_eq
    | match goal with
      | H : is_Some None |- _ => by destruct H as [? [=]]
      | H : _ ∨ _ |- _ => destruct H
      | H : _ ∧ _ |- _ => destruct H
      | |- _ ∧ _ => split
      | |- _ ↔ _ => split
      end ];
  try done; try (by eexists); try (by right); try (by left; eexists).

Lemma download_shard_consistent (f : fault) (s : state) :
  consistent s →
  ∃ s', download_shard f s = (outcome f, s')
    ∧ consistent s'
    ∧ same_settings (self s) (self s')
    ∧ pool_kept s s'
    ∧ (is_Some (resolver (self s')) ↔
       is_Some (resolver (self s))
       ∨ (use_public_dns (self s) = true ∧ f ≠ BeforeResolver))
    ∧ (use_public_dns (self s) = true → cache_type (self s) = "redis"%string →
       _cache_pool s = None →
       _cache_pool s' = Some (mk_pool (dns_cache_host (self s)) 6379
                                (2 * thread_count (self s)))).
Proof.
  intros [Hv Hoff Hup Hres]. destruct s as [pool d].
  destruct d as [tc res pub hst ini ty sz c]. cbn [self _cache_pool] in *.
  cbn [cache_type use_public_dns resolver cache_pool_initialized cache cache_size
       thread_count dns_cache_host] in *.
  pose proof (valid_type_cases _ Hv) as Hcases.
  destruct Hcases as [-> | [-> | ->]]; destruct pub, res as [[rc]|], ini, pool as [p|], f;
    try (by specialize (Hoff eq_refl));
    try (destruct (Hres _ eq_refl) as ([co Hco] & Hcf & Hini); cbn in Hco, Hcf, Hini;
         simplify_eq);
    try (destruct (Hup eq_refl) as [Hr Hs];
         try (by destruct (Hr eq_refl)); try specialize (Hs eq_refl);
         simplify_eq);
    clear Hoff Hup Hres;
    (eexists; split; [vm_compute; reflexivity|]);
    unfold same_settings, pool_kept, cache_for, _VALID_CACHE_TYPES;
    cbn; (split; [split; cbn; [exact Hv|..]|]); clear Hv; settle.
Qed.

Lemma download_shards_consistent (faults : list fault) : ∀ s,
  consistent s →
  ∃ s', download_shards faults s = (outcome <$> faults, s')
    ∧ consistent s'
    ∧ same_settings (self s) (self s')
    ∧ pool_kept s s'
    ∧ (is_Some (resolver (self s')) ↔
       is_Some (resolver (self s))
       ∨ (use_public_dns (self s) = true
          ∧ ∃ f, f ∈ faults ∧ f ≠ BeforeResolver)).
Proof.
  induction faults as [|f faults IH]; intros s Hs.
  - exists s. split; [done|]. split; [done|].
    split; [by repeat split|]. split; [by intros p ?|].
    split; [by left|]. intros [?|[_ (f & Hf & _)]]; [done|].
    by apply elem_of_nil in Hf.
  - destruct (download_shard_consistent f s Hs)
      as (s1 & Hrun & Hs1 & Hsame & Hkept & Hres & _).
    destruct (IH s1 Hs1) as (s2 & Hrun2 & Hs2 & Hsame2 & Hkept2 & Hres2).
    exists s2. cbn [download_shards fmap list_fmap]. rewrite Hrun.
    change (list_fmap _ _ outcome faults) with (outcome <$> faults).
    rewrite Hrun2.
    split; [done|]. split; [done|].
    destruct Hsame as (E1 & E2 & E3 & E4 & E5).
    destruct Hsame2 as (F1 & F2 & F3 & F4 & F5).
    split; [unfold same_settings; by rewrite F1, F2, F3, F4, F5|].
    split; [intros p Hp; by apply Hkept2, Hkept|].
    rewrite Hres2, Hres, E2. split.
    + intros [[?|[Hpub Hf]]|[Hpub (f' & Hin & Hf)]]; [by left | |].
      * right. split; [done|]. exists f. split; [by left | done].
      * right. split; [done|]. exists f'. split; [by right | done].
    + intros [?|[Hpub (f' & Hin & Hf)]]; [by left; left|].
      apply elem_of_cons in Hin as [->|Hin].
      * left. by right.
      * right. split; [done|]. by exists f'.
Qed.

(** X27: an instance that [__init__] accepted never trips an assertion of
    the set-up, whatever calls of [download_shard] it goes through, whatever
    the pool of the process at the start and wherever the rest of a call
    raises: each call ends as the rest of it does; the instance has a
    resolver in the end exactly when public DNS is on and one of the calls
    got as far as the thread pool; and that resolver has a cache, the one of
    its cache type. *)
Theorem setup_assertions_hold (thread_count : Z) (use_public_dns : bool)
    (dns_cache_host dns_cache_type : string) (dns_cache_size : Z)
    (pool : option ConnectionPool) (d : instance) (faults : list fault) :
  __init__ thread_count use_public_dns dns_cache_host dns_cache_type
    dns_cache_size = inr d →
  ∃ s', download_shards faults (mk_state pool d) = (outcome <$> faults, s')
    ∧ (is_Some (resolver (self s')) ↔
       use_public_dns = true ∧ ∃ f, f ∈ faults ∧ f ≠ BeforeResolver)
    ∧ (∀ r, resolver (self s') = Some r →
         is_Some (r_cache r)
         ∧ r_cache r = cache_for (_cache_pool s') (self s')).
Proof.
  intros Hinit.
  destruct (init_consistent _ _ _ _ _ pool d Hinit)
    as (Hc & Hres & Hpub & _).
  destruct (download_shards_consistent faults _ Hc)
    as (s' & Hrun & Hc' & _ & _ & Hiff).
  exists s'. split; [exact Hrun|]. cbn [self] in Hiff.
  rewrite Hres, Hpub in Hiff. split.
  - rewrite Hiff. split; [intros [[? [=]]|?]; done | by right].
  - intros r Hr. destruct (resolver_has_cache _ Hc' r Hr) as (? & ? & _).
    by split.
Qed.

Lemma setup_assertions_hold_witness :
  ∃ s', download_shards [BeforeResolver; NoFault]
          (mk_state None
             (mk_instance 8 None true "localhost" false "shared_lru" 100 None))
        = ([inl "Exception"%string; inr tt], s')
    ∧ ∀ r, resolver (self s') = Some r → is_Some (r_cache r).
Proof.
  destruct (setup_assertions_hold 8 true "localhost" "shared_lru" 100 None _
              [BeforeResolver; NoFault] eq_refl) as (s' & Hrun & _ & Hr).
  exists s'. split; [exact Hrun|]. intros r E. exact (proj1 (Hr r E)).
Defined.

(** X28: the Redis pool belongs to the process and the first instance to set
    it up decides it: when a first instance of cache type [redis], built for
    at least one thread, went through a call in a process without a pool, a
    second instance of that type, built for another host and another number
    of threads, gets a resolver whose cache talks to the host of the first,
    with the connection limit of the first. *)
Theorem redis_pool_first_come (tc1 tc2 : Z) (host1 host2 : string)
    (size1 size2 : Z) (f1 : fault) (faults1 faults2 : list fault) :
  1 <= tc1 →
  ∃ d1 d2 s1 s2,
    __init__ tc1 true host1 "redis" size1 = inr d1
    ∧ __init__ tc2 true host2 "redis" size2 = inr d2
    ∧ download_shards (f1 :: faults1) (mk_state None d1)
      = (outcome <$> f1 :: faults1, s1)
    ∧ download_shards faults2 (mk_state (_cache_pool s1) d2)
      = (outcome <$> faults2, s2)
    ∧ _cache_pool s2 = Some (mk_pool host1 6379 (2 * tc1))
    ∧ ∀ r, resolver (self s2) = Some r →
        r_cache r = Some (LRUCacheRedis (mk_pool host1 6379 (2 * tc1))).
Proof.
  intros _.
  destruct (init_consistent tc1 true host1 "redis" size1 None _ eq_refl)
    as (Hc1 & _).
  destruct (download_shard_consistent f1 _ Hc1)
    as (sa & Hruna & Hca & _ & _ & _ & Hpool).
  specialize (Hpool eq_refl eq_refl eq_refl). cbn in Hpool.
  destruct (download_shards_consistent faults1 sa Hca)
    as (s1 & Hrun1 & _ & _ & Hkept1 & _).
  specialize (Hkept1 _ Hpool).
  destruct (init_consistent tc2 true host2 "redis" size2 (_cache_pool s1) _ eq_refl)
    as (Hc2 & _).
  destruct (download_shards_consistent faults2 _ Hc2)
    as (s2 & Hrun2 & Hc2' & (_ & _ & _ & Hty & _) & Hkept2 & _).
  specialize (Hkept2 _ Hkept1).
  eexists _, _, s1, s2. split; [reflexivity|]. split; [reflexivity|].
  split.
  { cbn [download_shards fmap list_fmap].
    change (download_shard f1 _) with
      (download_shard f1 (mk_state None
         (mk_instance tc1 None true host1 false "redis" size1 None))) .
    rewrite Hruna. change (list_fmap _ _ outcome faults1) with (outcome <$> faults1).
    by rewrite Hrun1. }
  split; [exact Hrun2|]. split; [exact Hkept2|].
  intros r Hr. destruct (resolver_has_cache _ Hc2' r Hr) as (_ & -> & _).
  unfold cache_for. rewrite Hty, Hkept2. reflexivity.
Qed.

Lemma redis_pool_first_come_witness :
  ∃ d1 d2 s1 s2,
    __init__ 8 true "cache-a" "redis" 100 = inr d1
    ∧ __init__ 2 true "cache-b" "redis" 100 = inr d2
    ∧ download_shards [NoFault] (mk_state None d1) = ([inr tt], s1)
    ∧ download_shards [NoFault] (mk_state (_cache_pool s1) d2) = ([inr tt], s2)
    ∧ _cache_pool s2 = Some (mk_pool "cache-a" 6379 16)
    ∧ ∀ r, resolver (self s2) = Some r →
        r_cache r = Some (LRUCacheRedis (mk_pool "cache-a" 6379 16)).
Proof.
  exact (redis_pool_first_come 8 2 "cache-a" "cache-b" 100 100 NoFault []
           [NoFault] ltac:(lia)).
Defined.

End Setup.
